(** * rss-action: the managed-section codec, the URL canonicalizer and the
      merge step of [src/index.js], embedded and verified.

    JavaScript strings are sequences of UTF-16 code units; a code unit is
    modelled as an [N] and a string as a [list N].  Literals of the source
    are written with [lit], which maps an ASCII literal to its code units. *)

From Stdlib Require Import NArith ZArith Ascii String DecimalString Lia.
From stdpp Require Import base option list gmap.

Local Open Scope list_scope.
Local Open Scope nat_scope.

(** ** JavaScript strings *)

Definition lit (s : string) : list N :=
  map N_of_ascii (list_ascii_of_string s).

(** Code units the source names explicitly. *)
Definition LF : N := 10%N.
Definition LBRACKET : N := 91%N.
Definition RBRACKET : N := 93%N.
Definition LPAREN : N := 40%N.
Definition RPAREN : N := 41%N.
Definition DASH : N := 45%N.
Definition SPACE : N := 32%N.

(** LineTerminator of ECMA-262: LF, CR, LS, PS. *)
Definition is_line_terminator (c : N) : bool :=
  (c =? 10)%N || (c =? 13)%N || (c =? 8232)%N || (c =? 8233)%N.

(** WhiteSpace or LineTerminator of ECMA-262: what [\s] matches and what
    [trim]/[trimEnd] strip. *)
Definition is_space (c : N) : bool :=
  (c =? 9)%N || (c =? 10)%N || (c =? 11)%N || (c =? 12)%N || (c =? 13)%N ||
  (c =? 32)%N || (c =? 160)%N || (c =? 5760)%N ||
  ((8192 <=? c)%N && (c <=? 8202)%N) ||
  (c =? 8232)%N || (c =? 8233)%N || (c =? 8239)%N || (c =? 8287)%N ||
  (c =? 12288)%N || (c =? 65279)%N.

(** [\d] *)
Definition is_digit (c : N) : bool := (48 <=? c)%N && (c <=? 57)%N.

Fixpoint starts_with (pat s : list N) : bool :=
  match pat, s with
  | [], _ => true
  | _ :: _, [] => false
  | p :: pat', c :: s' => (p =? c)%N && starts_with pat' s'
  end.

(** [s.indexOf(pat)]: [None] stands for -1. *)
Fixpoint indexOf (pat s : list N) : option nat :=
  if starts_with pat s then Some 0
  else match s with
       | [] => None
       | _ :: s' => S <$> indexOf pat s'
       end.

(** [s.slice(a, b)] and [s.slice(a)] for indices within [0, length]. *)
Definition slice (a b : nat) (s : list N) : list N := take (b - a) (drop a s).
Definition slice_from (a : nat) (s : list N) : list N := drop a s.

Fixpoint trimStart (s : list N) : list N :=
  match s with
  | c :: s' => if is_space c then trimStart s' else s
  | [] => []
  end.

Definition trimEnd (s : list N) : list N := rev (trimStart (rev s)).
Definition trim (s : list N) : list N := trimEnd (trimStart s).

(** [parts.join(sep)] *)
Fixpoint join (sep : list N) (parts : list (list N)) : list N :=
  match parts with
  | [] => []
  | [p] => p
  | p :: ps => p ++ sep ++ join sep ps
  end.

(** ** Constants *)

Definition MARKER_START : list N := lit "<!-- rss-action:start -->".
Definition MARKER_END : list N := lit "<!-- rss-action:end -->".

(** ** Regular expressions

    The matcher follows the continuation semantics of ECMA-262 (22.2.2):
    a matcher takes a match state and a continuation and answers with the
    final state or with failure.  The state keeps the unread input, the
    code unit before it (all that [^] looks at) and the captures.  The
    quantified atoms of the one pattern of the source are one-character
    classes, so their RepeatMatcher is written by recursion on the input. *)

Inductive regex :=
| REmpty
| RChar (c : N)
| RClass (p : N -> bool)
| RBol
| RSeq (r1 r2 : regex)
| RGroup (n : nat) (r : regex)
| RPlus (greedy : bool) (p : N -> bool)
| RCount (n : nat) (p : N -> bool)
| ROpt (r : regex).

Record mstate := MState {
  prev : option N;
  rest : list N;
  caps : gmap nat (list N)
}.

Definition cont := mstate -> option mstate.

(** [+?] on a class: one unit, then the continuation before any further unit. *)
Fixpoint rep_lazy (p : N -> bool) (cp : gmap nat (list N)) (rs : list N)
    (k : cont) : option mstate :=
  match rs with
  | [] => None
  | c :: rs' =>
      if p c then
        match k (MState (Some c) rs' cp) with
        | Some y => Some y
        | None => rep_lazy p cp rs' k
        end
      else None
  end.

(** [+] on a class: one unit, then further units before the continuation. *)
Fixpoint rep_greedy (p : N -> bool) (cp : gmap nat (list N)) (rs : list N)
    (k : cont) : option mstate :=
  match rs with
  | [] => None
  | c :: rs' =>
      if p c then
        match rep_greedy p cp rs' k with
        | Some y => Some y
        | None => k (MState (Some c) rs' cp)
        end
      else None
  end.

(** [{n}] on a class. *)
Fixpoint rep_count (n : nat) (p : N -> bool) (x : mstate) (k : cont)
    : option mstate :=
  match n with
  | 0 => k x
  | S n' =>
      match rest x with
      | c :: rs' =>
          if p c then rep_count n' p (MState (Some c) rs' (caps x)) k
          else None
      | [] => None
      end
  end.

(** The capture groups inside a pattern: a quantifier resets them on entry. *)
Fixpoint groups_of (r : regex) : list nat :=
  match r with
  | RSeq r1 r2 => groups_of r1 ++ groups_of r2
  | RGroup n r' => n :: groups_of r'
  | ROpt r' => groups_of r'
  | _ => []
  end.

(** The text read between two states of one match. *)
Definition consumed (x y : mstate) : list N :=
  take (length (rest x) - length (rest y)) (rest x).

Fixpoint matcher (r : regex) (x : mstate) (k : cont) : option mstate :=
  match r with
  | REmpty => k x
  | RChar c =>
      match rest x with
      | c' :: rs' =>
          if (c' =? c)%N then k (MState (Some c') rs' (caps x)) else None
      | [] => None
      end
  | RClass p =>
      match rest x with
      | c' :: rs' => if p c' then k (MState (Some c') rs' (caps x)) else None
      | [] => None
      end
  | RBol =>
      match prev x with
      | None => k x
      | Some c => if is_line_terminator c then k x else None
      end
  | RSeq r1 r2 => matcher r1 x (fun y => matcher r2 y k)
  | RGroup n r' =>
      matcher r' x
        (fun y => k (MState (prev y) (rest y) (<[n := consumed x y]> (caps y))))
  | RPlus true p => rep_greedy p (caps x) (rest x) k
  | RPlus false p => rep_lazy p (caps x) (rest x) k
  | RCount n p => rep_count n p x k
  | ROpt r' =>
      let x' := MState (prev x) (rest x)
                  (foldr delete (caps x) (groups_of r')) in
      match matcher r' x'
              (fun y => if length (rest y) =? length (rest x) then None
                        else k y) with
      | Some y => Some y
      | None => k x
      end
  end.

Definition rseq (rs : list regex) : regex := foldr RSeq REmpty rs.
Definition rlit (s : string) : regex := rseq (map RChar (lit s)).

(** One call of [re.exec(s)] for a global, non-sticky pattern whose
    [lastIndex] points at [rs] (with [pv] the unit before it): the first
    start position at or after [lastIndex] where the pattern matches. *)
Fixpoint exec (re : regex) (pv : option N) (rs : list N) : option mstate :=
  match matcher re (MState pv rs ∅) Some with
  | Some y => Some y
  | None =>
      match rs with
      | [] => None
      | c :: rs' => exec re (Some c) rs'
      end
  end.

(** ** The managed-section codec *)

Record link := Link { title : list N; url : list N; date : list N }.

Global Instance link_eq_dec : EqDecision link.
Proof. solve_decision. Defined.

Record section := Section_ {
  before : list N;
  after : list N;
  links : list link
}.

(** [\d{4}-\d{2}-\d{2}] *)
Definition dateRe : regex :=
  rseq [ RCount 4 is_digit; RChar DASH; RCount 2 is_digit; RChar DASH;
         RCount 2 is_digit ].

(** [/^- \[(.+?)\]\(([^)]+)\)(?: - (\d{4}-\d{2}-\d{2}))?/gm] *)
Definition lineRe : regex :=
  rseq [ RBol; rlit "- [";
         RGroup 1 (RPlus false (λ c, negb (is_line_terminator c)));
         rlit "](";
         RGroup 2 (RPlus true (λ c, negb (c =? RPAREN)%N));
         RChar RPAREN;
         ROpt (rseq [ rlit " - "; RGroup 3 dateRe ]) ].

(** [x || y] on a possibly undefined string: the empty string is falsy. *)
Definition or_else (x : option (list N)) (y : list N) : list N :=
  match x with
  | Some (c :: s) => c :: s
  | _ => y
  end.

(** [{ title: m[1], url: m[2], date: m[3] || today() }] *)
Definition link_of_match (today : list N) (m : mstate) : link :=
  Link (default [] (caps m !! 1)) (default [] (caps m !! 2))
       (or_else (caps m !! 3) today).

(** The [while ((m = lineRe.exec(sectionBody)) !== null)] loop.  Each turn
    resumes at the end of the previous match; [fuel] bounds the turns and
    [None] means it ran out. *)
Fixpoint collect (fuel : nat) (today : list N) (pv : option N) (rs : list N)
    : option (list link) :=
  match fuel with
  | 0 => None
  | S fuel' =>
      match exec lineRe pv rs with
      | None => Some []
      | Some m =>
          cons (link_of_match today m) <$> collect fuel' today (prev m) (rest m)
      end
  end.

Definition matchLinks (today body : list N) : list link :=
  default [] (collect (S (length body)) today None body).

(** The answer when no valid pair of markers is found: the section is to
    be appended at the end. *)
Definition fallback (content : list N) : section :=
  let trimmed := trimEnd content in
  Section_ (match trimmed with [] => [] | _ => trimmed ++ [LF; LF] end) [LF] [].

Definition parseSection (today content : list N) : section :=
  match indexOf MARKER_START content, indexOf MARKER_END content with
  | Some si, Some ei =>
      if ei <=? si then fallback content
      else
        let sectionBody := slice (si + length MARKER_START) ei content in
        Section_ (slice 0 si content)
                 (slice_from (ei + length MARKER_END) content)
                 (matchLinks today sectionBody)
  | _, _ => fallback content
  end.

Definition renderLine (l : link) : list N :=
  lit "- [" ++ title l ++ lit "](" ++ url l ++ lit ") - " ++ date l.

Definition renderSection (ls : list link) : list N :=
  let lines := map renderLine ls in
  let body := match lines with
              | [] => [LF]
              | _ => [LF] ++ join [LF] lines ++ [LF]
              end in
  MARKER_START ++ body ++ MARKER_END.

(** [.replace(/\s+/g, ' ')] *)
Fixpoint collapse_spaces (in_run : bool) (s : list N) : list N :=
  match s with
  | [] => []
  | c :: s' =>
      if is_space c then
        if in_run then collapse_spaces true s'
        else SPACE :: collapse_spaces true s'
      else c :: collapse_spaces false s'
  end.

(** Sanitise a feed item title; [None] is an absent (undefined) title. *)
Definition sanitiseTitle (raw : option (list N)) : list N :=
  trim (collapse_spaces false
          (filter (λ c, c ≠ LBRACKET ∧ c ≠ RBRACKET)
                  (or_else raw (lit "Untitled")))).

(** ** The URL interface of the platform

    [addUTM] and [stripUTM] go through the [URL] class of the runtime
    (WHATWG URL).  The class is not code of this repository: it is taken
    as an interface, [URLApi], and what the properties below need of it
    is stated as laws, [URLLaws].  A value of [URL] is a URL object
    together with its [searchParams] list; [set] and [delete] change the
    list and write it back into the query of the URL, as the update steps
    of the standard do after every change. *)

Class URLApi := {
  URL : Type;
  (** [new URL(s)]; [None] when the constructor throws. *)
  URL_new : list N → option URL;
  (** [url.toString()] *)
  URL_toString : URL → list N;
  (** [url.searchParams.set(name, value)] *)
  searchParams_set : list N → list N → URL → URL;
  (** [url.searchParams.delete(name)] *)
  searchParams_delete : list N → URL → URL
}.

(** The URL objects a program can hold: parsed from a string, then updated
    through [searchParams]. *)
Inductive reachable `{URLApi} : URL → Prop :=
| reach_new s u : URL_new s = Some u → reachable u
| reach_set k v u : reachable u → reachable (searchParams_set k v u)
| reach_delete k u : reachable u → reachable (searchParams_delete k u).

Definition is_ascii (s : list N) : Prop := Forall (λ c, (c < 128)%N) s.

Class URLLaws (A : URLApi) : Prop := {
  (** [delete] removes every pair of the name, also one [set] just before. *)
  delete_set k v u :
    searchParams_delete k (searchParams_set k v u) = searchParams_delete k u;
  (** Updates under different names do not see each other. *)
  delete_set_ne k k' v u :
    is_ascii k → is_ascii k' → k ≠ k' →
    searchParams_delete k (searchParams_set k' v u)
    = searchParams_set k' v (searchParams_delete k u);
  (** The serialization of a URL object parses back to that object. *)
  new_toString u : reachable u → URL_new (URL_toString u) = Some u
}.

Section Canonicalizer.
Context `{A : URLApi}.

Definition addUTM (rawUrl owner repo : list N) : list N :=
  match URL_new rawUrl with
  | Some url =>
      let url := searchParams_set (lit "utm_source") (lit "github") url in
      let url := searchParams_set (lit "utm_medium") owner url in
      let url := searchParams_set (lit "utm_campaign") repo url in
      URL_toString url
  | None => rawUrl
  end.

Definition stripUTM (rawUrl : list N) : list N :=
  match URL_new rawUrl with
  | Some url =>
      let url := searchParams_delete (lit "utm_source") url in
      let url := searchParams_delete (lit "utm_medium") url in
      let url := searchParams_delete (lit "utm_campaign") url in
      URL_toString url
  | None => rawUrl
  end.

End Canonicalizer.

(** ** Numbers

    [maxLinks] is the one Number of the program that is not an array
    length.  [Int z] stands for the Number nearest to the integer [z];
    the program only compares it with array lengths, which rounding
    (above 2^53) cannot change. *)

Inductive number := NaN | Int (z : Z).

Fixpoint digits_value (acc : Z) (s : list N) : Z :=
  match s with
  | c :: s' =>
      if is_digit c then digits_value (10 * acc + (Z.of_N c - 48)) s' else acc
  | [] => acc
  end.

(** [parseInt(s, 10)]: leading white space, an optional sign, then the
    longest run of decimal digits; [NaN] when that run is empty. *)
Definition parseInt10 (s : list N) : number :=
  let s := trimStart s in
  let '(sign, s) := match s with
                    | c :: s' => if (c =? 45)%N then ((-1)%Z, s')
                                 else if (c =? 43)%N then (1%Z, s')
                                 else (1%Z, s)
                    | [] => (1%Z, s)
                    end in
  match s with
  | c :: _ => if is_digit c then Int (sign * digits_value 0 s) else NaN
  | [] => NaN
  end.

(** [Math.max(1, x)] *)
Definition max1 (x : number) : number :=
  match x with
  | NaN => NaN
  | Int z => Int (Z.max 1 z)
  end.

(** [n > x] for an array length [n] *)
Definition length_gt (n : nat) (x : number) : bool :=
  match x with
  | NaN => false
  | Int z => (z <? Z.of_nat n)%Z
  end.

(** [l.slice(0, x)] *)
Definition slice0 {A} (x : number) (l : list A) : list A :=
  match x with
  | NaN => []
  | Int z => if (z <? 0)%Z then take (Z.to_nat (Z.of_nat (length l) + z)) l
             else take (Z.to_nat z) l
  end.

(** [n - x] for an array length [n] *)
Definition length_minus (n : nat) (x : number) : number :=
  match x with
  | NaN => NaN
  | Int z => Int (Z.of_nat n - z)
  end.

(** [String(n)] for an array length. *)
Definition String_of_nat (n : nat) : list N :=
  lit (NilZero.string_of_uint (Nat.to_uint n)).

(** ** Inputs *)

(** [name.toUpperCase().replace(/-/g, '_')] on the ASCII names of the
    source. *)
Definition input_key (name : list N) : list N :=
  lit "INPUT_" ++
  map (λ c, if (c =? 45)%N then 95%N
            else if ((97 <=? c) && (c <=? 122))%N then (c - 32)%N else c) name.

(** [getInput(name)]: the trimmed value of the environment variable, the
    empty string when it is unset. *)
Definition getInput (env : list N → option (list N)) (name : string)
    : list N :=
  trim (default [] (env (input_key (lit name)))).

(** [Math.max(1, parseInt(getInput('max_links') || '10', 10))] *)
Definition maxLinksOf (env : list N → option (list N)) : number :=
  max1 (parseInt10 (or_else (Some (getInput env "max_links")) (lit "10"))).

(** [raw.split(/[\n,]+/)]: the pieces between runs of newlines and commas. *)
Fixpoint split_sep (cur : list N) (in_sep : bool) (s : list N)
    : list (list N) :=
  match s with
  | [] => [rev cur]
  | c :: s' =>
      if (c =? 10)%N || (c =? 44)%N then
        if in_sep then split_sep cur true s'
        else rev cur :: split_sep [] true s'
      else split_sep (c :: cur) false s'
  end.

(** [rssUrlsRaw.split(/[\n,]+/).map(u => u.trim()).filter(Boolean)] *)
Definition rssUrlsOf (raw : list N) : list (list N) :=
  filter (λ u, u ≠ []) (map trim (split_sep [] false raw)).

(** ** The merge step *)

Section Merge.
Context `{A : URLApi}.

(** Step 5 of [run]: the fresh items whose stripped URL is not the stripped
    URL of an existing link. *)
Definition existingBaseUrls (existingLinks : list link) : gset (list N) :=
  list_to_set (map (λ l, stripUTM (url l)) existingLinks).

Definition dedup (freshItems existingLinks : list link) : list link :=
  filter (λ item, stripUTM (url item) ∉ existingBaseUrls existingLinks)
         freshItems.

(** Step 6 of [run]: new items first, then the existing links, cut to
    [maxLinks]; the answer is [allLinks] with [removedCount]. *)
Definition mergeLinks (maxLinks : number) (newItems existingLinks : list link)
    : list link * number :=
  let allLinks := newItems ++ existingLinks in
  if length_gt (length allLinks) maxLinks
  then (slice0 maxLinks allLinks, length_minus (length allLinks) maxLinks)
  else (allLinks, Int 0).

End Merge.

(** ** The run

    Everything outside the program is gathered in a [world]: the
    environment, the feeds, the clock, the file system and the hosting
    API.  [run] answers with the trace of what the program does to it.
    The clock is read as one instant for the whole run, the text of log
    lines is left out, and the calls to the file system, git and the
    hosting API are followed on their success path. *)

Record item := Item {
  item_title : option (list N);
  item_link : option (list N);
  item_guid : option (list N);
  item_pubDate : option (list N)
}.

Inductive feed_result :=
| FeedError
| Feed (items : list item).

Record world := World {
  w_env : list N → option (list N);
  w_owner : list N;
  w_repo : list N;
  (** [parser.parseURL(feedUrl)] *)
  w_parseURL : list N → feed_result;
  (** [new Date().toISOString()] *)
  w_now : list N;
  (** [new Date(s).toISOString()]; [None] when it throws. *)
  w_toISOString : list N → option (list N);
  (** [path.resolve(process.cwd(), f)] and [path.dirname(p)] *)
  w_resolve : list N → list N;
  w_dirname : list N → list N;
  (** [fs.existsSync(p)] and [fs.readFileSync(p, 'utf8')] *)
  w_exists : list N → bool;
  w_read : list N → list N;
  (** [pr.html_url] of the pull request that [pulls.create] opens *)
  w_pr_html_url : list N
}.

Inductive event :=
| EvInfo
| EvWarning
| EvSetFailed (message : list N)
| EvSetOutput (name value : list N)
| EvMkdir (dir : list N)
| EvWriteFile (path content : list N)
| EvExec (command : list N) (args : list (list N))
| EvPullsCreate (title head base body : list N).

(** A step of the run: the events it adds, and its value unless the run has
    ended there (by [return] or by a throw that [run().catch] reports). *)
Definition M (A : Type) : Type := list event * option A.

Global Instance M_ret : MRet M := λ A a, ([], Some a).
Global Instance M_bind : MBind M := λ A B k m,
  match m with
  | (t, Some a) => let '(t', r) := k a in (t ++ t', r)
  | (t, None) => (t, None)
  end.

Definition emit (e : event) : M unit := ([e], Some tt).
Definition stop {A} : M A := ([], None).
Definition throw {A} (message : list N) : M A := ([EvSetFailed message], None).
Definition when (b : bool) (m : M unit) : M unit := if b then m else mret tt.

(** [today()] *)
Definition today (w : world) : list N := slice 0 10 (w_now w).

(** [x || y] where both may be undefined. *)
Definition first_truthy (x y : option (list N)) : option (list N) :=
  match x with
  | Some (c :: s) => Some (c :: s)
  | _ => match y with
         | Some (c :: s) => Some (c :: s)
         | _ => None
         end
  end.

(** The loop over the items of one feed: the records pushed, and whether
    the loop ran to its end ([false]: a date threw on the way). *)
Fixpoint pushItems (w : world) (items : list item) : list link * bool :=
  match items with
  | [] => ([], true)
  | it :: items' =>
      match first_truthy (item_link it) (item_guid it) with
      | None => pushItems w items'
      | Some link =>
          let d := match item_pubDate it with
                   | Some (c :: s) => slice 0 10 <$> w_toISOString w (c :: s)
                   | _ => Some (today w)
                   end in
          match d with
          | None => ([], false)
          | Some d =>
              let '(ls, ok) := pushItems w items' in
              (Link (sanitiseTitle (item_title it)) link d :: ls, ok)
          end
      end
  end.

(** Step 2 of [run]: the loop over the feeds. *)
Fixpoint fetchFeeds (w : world) (rssUrls : list (list N))
    : M (list link) :=
  match rssUrls with
  | [] => mret []
  | feedUrl :: rest =>
      emit EvInfo ;;
      ls ← match w_parseURL w feedUrl with
           | FeedError => emit EvWarning ;; mret []
           | Feed items =>
               let '(ls, ok) := pushItems w (take 20 items) in
               emit (if ok then EvInfo else EvWarning) ;; mret ls
           end;
      ls' ← fetchFeeds w rest;
      mret (ls ++ ls')
  end.

Definition required_missing (name : string) : list N :=
  lit "Required input " ++ [34%N] ++ lit name ++ [34%N] ++ lit " is missing.".

Definition getRequired (w : world) (name : string) : M (list N) :=
  match getInput (w_env w) name with
  | [] => throw (required_missing name)
  | v => mret v
  end.

(** [String(x)] for the integers that reach a message. *)
Definition String_of_number (x : number) : list N :=
  match x with
  | NaN => lit "NaN"
  | Int z => lit (NilZero.string_of_int (Z.to_int z))
  end.

(** [removedCount > 0] *)
Definition positive (x : number) : bool :=
  match x with
  | NaN => false
  | Int z => (0 <? z)%Z
  end.

(** [`- [${i.title}](${i.url})`] *)
Definition prLine (i : link) : list N :=
  lit "- [" ++ title i ++ lit "](" ++ url i ++ lit ")".

Definition prBody (owner repo : list N) (maxLinks removedCount : number)
    (newItems : list link) : list N :=
  let newLinkLines := join [LF] (map prLine newItems) in
  let removedNote :=
    if positive removedCount
    then [LF] ++ lit "> Removed **" ++ String_of_number removedCount ++
         lit "** oldest link(s) to stay within " ++ [96%N] ++
         lit "max_links: " ++ String_of_number maxLinks ++ [96%N] ++ lit "."
    else [] in
  join [LF]
    [ lit "## RSS Feed Update";
      [];
      lit "Added **" ++ String_of_nat (length newItems) ++
        lit "** new link(s) from RSS feeds." ++ removedNote;
      [];
      lit "### New links";
      newLinkLines;
      [];
      lit "---";
      lit "_Automatically created by [rss-action](https://github.com/" ++
        owner ++ lit "/" ++ repo ++ lit ")_" ].

Section Run.
Context `{A : URLApi}.

(** What steps 1 to 4 of [run] hand to the merge. *)
Record gathered := Gathered {
  g_maxLinks : number;
  g_outputFile : list N;
  g_token : list N;
  g_branchPfx : list N;
  g_baseBranch : list N;
  g_freshItems : list link;
  g_filePath : list N;
  g_parsed : section
}.

Definition no_change : M unit :=
  emit EvInfo ;;
  emit (EvSetOutput (lit "pr_url") []) ;;
  emit (EvSetOutput (lit "new_items_count") (lit "0")) ;;
  stop.

(** Steps 1 to 4 of [run]: inputs, feeds, UTM parameters, existing file. *)
Definition gather (w : world) : M gathered :=
  (* 1. Read inputs *)
  rssUrlsRaw ← getRequired w "rss_urls";
  let maxLinks := maxLinksOf (w_env w) in
  let outputFile := or_else (Some (getInput (w_env w) "output_file"))
                            (lit "links.md") in
  token ← getRequired w "github_token";
  let branchPfx := or_else (Some (getInput (w_env w) "branch_prefix"))
                           (lit "rss-update") in
  let baseBranch := or_else (Some (getInput (w_env w) "base_branch"))
                            (lit "main") in
  let rssUrls := rssUrlsOf rssUrlsRaw in
  match rssUrls with
  | [] => throw (lit "No RSS URLs provided.")
  | _ => mret tt
  end ;;
  emit EvInfo ;;
  (* 2. Fetch feeds *)
  freshItems ← fetchFeeds w rssUrls;
  match freshItems with
  | [] => no_change
  | _ => mret tt
  end ;;
  (* 3. Apply UTM parameters *)
  let freshItems :=
    map (λ item, Link (title item)
                      (addUTM (url item) (w_owner w) (w_repo w)) (date item))
        freshItems in
  (* 4. Read the existing output file *)
  let filePath := w_resolve w outputFile in
  existingContent ←
    (if w_exists w filePath then mret (w_read w filePath)
     else emit EvInfo ;;
          mret (lit "# RSS Links" ++ [LF; LF] ++ MARKER_START ++ [LF] ++
                MARKER_END ++ [LF]));
  mret (Gathered maxLinks outputFile token branchPfx baseBranch freshItems
                 filePath (parseSection (today w) existingContent)).

(** Steps 6 to 9 of [run]: merge, write, commit and push, pull request. *)
Definition publish (w : world) (g : gathered) (newItems : list link)
    : M unit :=
  let owner := w_owner w in
  let repo := w_repo w in
  let maxLinks := g_maxLinks g in
  let existingLinks := links (g_parsed g) in
  emit EvInfo ;;
  (* 6. Merge and enforce max_links *)
  let '(allLinks, removedCount) := mergeLinks maxLinks newItems existingLinks in
  when (length_gt (length (newItems ++ existingLinks)) maxLinks)
       (emit EvInfo) ;;
  (* 7. Write the updated file *)
  let newContent :=
    before (g_parsed g) ++ renderSection allLinks ++ after (g_parsed g) in
  let fileDir := w_dirname w (g_filePath g) in
  when (negb (w_exists w fileDir)) (emit (EvMkdir fileDir)) ;;
  emit (EvWriteFile (g_filePath g) newContent) ;;
  emit EvInfo ;;
  (* 8. Git: configure, branch, commit, push *)
  let ts := slice 0 19
              (map (λ c, if (c =? 58)%N || (c =? 46)%N then DASH else c)
                   (w_now w)) in
  let branchName := g_branchPfx g ++ lit "/" ++ ts in
  let remoteUrl := lit "https://x-access-token:" ++ g_token g ++
                   lit "@github.com/" ++ owner ++ lit "/" ++ repo ++
                   lit ".git" in
  let git := λ args, emit (EvExec (lit "git") args) in
  git [lit "config"; lit "--local"; lit "user.email";
       lit "41898282+github-actions[bot]@users.noreply.github.com"] ;;
  git [lit "config"; lit "--local"; lit "user.name";
       lit "github-actions[bot]"] ;;
  git [lit "remote"; lit "set-url"; lit "origin"; remoteUrl] ;;
  git [lit "checkout"; lit "-b"; branchName] ;;
  git [lit "add"; g_outputFile g] ;;
  git [lit "commit"; lit "-m";
       lit "chore(rss): add " ++ String_of_nat (length newItems) ++
       lit " new link(s) [automated]"] ;;
  git [lit "push"; lit "--set-upstream"; lit "origin"; branchName] ;;
  (* 9. Open a pull request *)
  emit (EvPullsCreate
          (lit "chore(rss): " ++ String_of_nat (length newItems) ++
           lit " new link(s) " ++ [8212%N] ++ lit " " ++ slice 0 10 ts)
          branchName (g_baseBranch g)
          (prBody owner repo maxLinks removedCount newItems)) ;;
  emit EvInfo ;;
  emit (EvSetOutput (lit "pr_url") (w_pr_html_url w)) ;;
  emit (EvSetOutput (lit "new_items_count")
                    (String_of_nat (length newItems))).

Definition run_steps (w : world) : M unit :=
  g ← gather w;
  (* 5. Deduplicate *)
  let newItems := dedup (g_freshItems g) (links (g_parsed g)) in
  match newItems with
  | [] => no_change
  | _ => publish w g newItems
  end.

(** The trace of [run().catch(err => core.setFailed(err.message))]. *)
Definition run (w : world) : list event := fst (run_steps w).

End Run.

(** ** A small instance of the URL interface

    [PlainURL] is a URL reduced to the text before the first [?] and the
    list of query pairs after it, with [%], [&] and [=] percent-encoded in
    names and values.  It shows that the laws of [URLLaws] can be met and
    lets the properties below be run on concrete addresses. *)

Module PlainURL.

Record t := Make { base : list N; params : list (list N * list N) }.

Definition is_alpha (c : N) : bool :=
  ((65 <=? c) && (c <=? 90))%N || ((97 <=? c) && (c <=? 122))%N.

Fixpoint scheme_rest (s : list N) : bool :=
  match s with
  | [] => false
  | c :: s' =>
      if (c =? 58)%N then true
      else if is_alpha c || is_digit c || (c =? 43)%N || (c =? 45)%N ||
              (c =? 46)%N
           then scheme_rest s' else false
  end.

(** A letter, then letters, digits, [+], [-] or [.], then a colon. *)
Definition has_scheme (s : list N) : bool :=
  match s with
  | [] => false
  | c :: s' => is_alpha c && scheme_rest s'
  end.

(** The text before the first [c], and the text after it if [c] occurs. *)
Fixpoint break_at (c : N) (s : list N) : list N * option (list N) :=
  match s with
  | [] => ([], None)
  | x :: s' =>
      if (x =? c)%N then ([], Some s')
      else let '(a, b) := break_at c s' in (x :: a, b)
  end.

Fixpoint split_on (c : N) (s : list N) : list (list N) :=
  match s with
  | [] => [[]]
  | x :: s' =>
      if (x =? c)%N then [] :: split_on c s'
      else match split_on c s' with
           | h :: t => (x :: h) :: t
           | [] => [[x]]
           end
  end.

Fixpoint esc (s : list N) : list N :=
  match s with
  | [] => []
  | c :: s' =>
      (if (c =? 37)%N then lit "%25"
       else if (c =? 38)%N then lit "%26"
       else if (c =? 61)%N then lit "%3D"
       else [c]) ++ esc s'
  end.

Fixpoint unesc (s : list N) : list N :=
  match s with
  | [] => []
  | c1 :: s1 =>
      match s1 with
      | c2 :: c3 :: s3 =>
          if ((c1 =? 37) && (c2 =? 50) && (c3 =? 53))%N then 37%N :: unesc s3
          else if ((c1 =? 37) && (c2 =? 50) && (c3 =? 54))%N
               then 38%N :: unesc s3
          else if ((c1 =? 37) && (c2 =? 51) && (c3 =? 68))%N
               then 61%N :: unesc s3
          else c1 :: unesc s1
      | _ => c1 :: unesc s1
      end
  end.

Definition ser_pair (p : list N * list N) : list N :=
  esc p.1 ++ 61%N :: esc p.2.

Definition parse_pair (s : list N) : list N * list N :=
  let '(k, v) := break_at 61 s in (unesc k, unesc (default [] v)).

Definition ser (l : list (list N * list N)) : list N :=
  join [38%N] (map ser_pair l).

Definition parse_query (q : list N) : list (list N * list N) :=
  map parse_pair (filter (λ s, s ≠ []) (split_on 38 q)).

Definition new (s : list N) : option t :=
  let '(b, q) := break_at 63 s in
  if has_scheme b then Some (Make b (parse_query (default [] q))) else None.

Definition toString (u : t) : list N :=
  base u ++ match params u with
            | [] => []
            | l => 63%N :: ser l
            end.

Definition without (k : list N) (l : list (list N * list N))
    : list (list N * list N) :=
  filter (λ p, p.1 ≠ k) l.

(** The first pair of the name takes the value and the others go; a new
    pair is added at the end when there is none. *)
Fixpoint set_first (k v : list N) (l : list (list N * list N))
    : list (list N * list N) :=
  match l with
  | [] => [(k, v)]
  | p :: l' =>
      if decide (p.1 = k) then (k, v) :: without k l'
      else p :: set_first k v l'
  end.

Definition set (k v : list N) (u : t) : t :=
  Make (base u) (set_first k v (params u)).

Definition delete (k : list N) (u : t) : t :=
  Make (base u) (without k (params u)).

(** What every reachable object satisfies: its base holds no [?] and opens
    with a scheme. *)
Definition good (u : t) : Prop :=
  (63%N ∉ base u) ∧ has_scheme (base u) = true.

Global Instance api : URLApi := {|
  URL := t;
  URL_new := new;
  URL_toString := toString;
  searchParams_set := set;
  searchParams_delete := delete
|}.

End PlainURL.

(** ** Reading a trace *)

(** The events that change something outside the run: the file system,
    git, the hosting API. *)
Definition is_action (e : event) : Prop :=
  match e with
  | EvMkdir _ | EvWriteFile _ _ | EvExec _ _ | EvPullsCreate _ _ _ _ => True
  | _ => False
  end.

Definition is_failure (e : event) : Prop :=
  match e with
  | EvSetFailed _ => True
  | _ => False
  end.

(** The log lines: they touch neither the file, nor git, nor the hosting
    API, nor the outputs. *)
Definition quiet (e : event) : Prop :=
  match e with
  | EvInfo | EvWarning => True
  | _ => False
  end.

(** The outputs a trace sets, in order. *)
Definition outputs (t : list event) : list (list N * list N) :=
  flat_map (λ e, match e with
                 | EvSetOutput n v => [(n, v)]
                 | _ => []
                 end) t.

(** The contents written to files, in order. *)
Definition written (t : list event) : list (list N * list N) :=
  flat_map (λ e, match e with
                 | EvWriteFile p c => [(p, c)]
                 | _ => []
                 end) t.

(** ** Sample data *)

Module Sample.

Definition today0 : list N := lit "2026-11-03".

Definition e1 : link :=
  Link (lit "Hello (world)") (lit "https://x.com/a?b=c") (lit "2024-01-02").
Definition e2 : link :=
  Link (lit "Second post") (lit "https://y.org/p/2") (lit "2023-12-31").

(** A record within the stated bounds (no bracket in the title, a valid
    date) whose URL holds a closing parenthesis. *)
Definition paren : link :=
  Link (lit "Rust")
       (lit "https://en.wikipedia.org/wiki/Rust_(programming_language)")
       (lit "2024-01-02").

(** A document that opens with a stray end marker. *)
Definition stray_body : list N := [LF] ++ renderLine e1 ++ [LF].
Definition stray_end : list N :=
  MARKER_END ++ MARKER_START ++ stray_body ++ MARKER_END.

(** An environment in which only the given inputs are set. *)
Definition env_of (kvs : list (string * string)) (k : list N)
    : option (list N) :=
  match list_find (λ kv, input_key (lit kv.1) = k) kvs with
  | Some (_, kv) => Some (lit kv.2)
  | None => None
  end.

Definition mk_link (n : string) : link :=
  Link (lit n) (lit "https://x.com/" ++ lit n) (lit "2024-01-02").

Definition mk_item (n : string) : item :=
  Item (Some (lit n)) (Some (lit "https://x.com/" ++ lit n)) None
       (Some (lit "2024-05-06T07:08:09Z")).

Definition file_with (ls : list link) : list N :=
  lit "# RSS Links" ++ [LF; LF] ++ renderSection ls ++ [LF].

Definition world_of (inputs : list (string * string)) (items : list item)
    (file : list N) : world :=
  {| w_env := env_of inputs;
     w_owner := lit "o";
     w_repo := lit "r";
     w_parseURL := λ _, Feed items;
     w_now := lit "2026-11-03T02:32:10.123Z";
     w_toISOString := λ s, Some (lit "2024-05-06T07:08:09.000Z");
     w_resolve := λ f, lit "/repo/" ++ f;
     w_dirname := λ _, lit "/repo";
     w_exists := λ _, true;
     w_read := λ _, file;
     w_pr_html_url := lit "https://github.com/o/r/pull/7" |}.

Definition inputs0 : list (string * string) :=
  [("rss_urls", "https://blog.example/feed"); ("github_token", "t0ken")]%string.

(** Every fetched item is already in the file. *)
Definition w_same : world :=
  world_of inputs0 [mk_item "A"; mk_item "B"]
    (file_with
       [Link (lit "A")
             (lit "https://x.com/A?utm_source=github&utm_medium=o&utm_campaign=r")
             (lit "2024-01-02");
        mk_link "B"]).

(** Cap 5, three links in the file, four new items. *)
Definition w_cap : world :=
  world_of (("max_links", "5")%string :: inputs0)
    [mk_item "D"; mk_item "E"; mk_item "F"; mk_item "G"]
    (file_with [mk_link "A"; mk_link "B"; mk_link "C"]).

(** [max_links] is not a number; eleven links in the file, one new item. *)
Definition eleven : list link :=
  map mk_link ["L01"; "L02"; "L03"; "L04"; "L05"; "L06"; "L07"; "L08";
               "L09"; "L10"; "L11"]%string.
Definition w_nan : world :=
  world_of (("max_links", "abc")%string :: inputs0) [mk_item "D"]
    (file_with eleven).

(** What [gather] hands over in [w_cap]. *)
Definition cap_fresh : list link :=
  map (λ n, Link (lit n)
                 (lit "https://x.com/" ++ lit n ++
                  lit "?utm_source=github&utm_medium=o&utm_campaign=r")
                 (lit "2024-05-06"))
      ["D"; "E"; "F"; "G"]%string.
Definition cap_existing : list link := [mk_link "A"; mk_link "B"; mk_link "C"].

End Sample.

(** ** Auxiliary notions of the proofs *)

(** [sealed pat a]: no occurrence of [pat] starts inside [a], whatever
    text follows [a]. *)
Definition sealed (pat a : list N) : Prop :=
  ∀ b, indexOf pat (a ++ b) = (λ i, length a + i) <$> indexOf pat b.

(** The unit before the position reached by reading [cs]. *)
Definition prev_after (cs : list N) (pv : option N) : option N :=
  match last cs with
  | Some c => Some c
  | None => pv
  end.

(** [YYYY-MM-DD]: four digits, a dash, two digits, a dash, two digits. *)
Definition is_iso_date (d : list N) : bool :=
  match d with
  | [y1; y2; y3; y4; h1; m1; m2; h2; d1; d2] =>
      is_digit y1 && is_digit y2 && is_digit y3 && is_digit y4 &&
      (h1 =? DASH)%N && is_digit m1 && is_digit m2 && (h2 =? DASH)%N &&
      is_digit d1 && is_digit d2
  | _ => false
  end.

(** The records that the line pattern reads back as they were written. *)
Record wf_link (l : link) : Prop := {
  wf_title_nonempty : title l ≠ [];
  wf_title_units :
    Forall (λ c, c ≠ RBRACKET ∧ is_line_terminator c = false) (title l);
  wf_title_marker : indexOf MARKER_END (title l) = None;
  wf_url_nonempty : url l ≠ [];
  wf_url_units : Forall (λ c, c ≠ RPAREN) (url l);
  wf_url_marker : indexOf MARKER_END (url l) = None;
  wf_date : is_iso_date (date l) = true
}.

(** The body of a rendered section after its leading newline: every line
    closed by a newline. *)
Fixpoint flat (ls : list link) : list N :=
  match ls with
  | [] => []
  | l :: ls' => renderLine l ++ LF :: flat ls'
  end.

(** Closed decidable facts about the literals of the source. *)
Ltac decide_by_compute := apply (bool_decide_unpack _); vm_compute; exact I.


(** ** Notions of the further properties *)

(** Text in which white space only comes as single [SPACE] units: every
    white-space unit is a [SPACE] and is not followed by white space. *)
Fixpoint tidy (s : list N) : Prop :=
  match s with
  | [] => True
  | c :: s' =>
      (is_space c = true →
       c = SPACE ∧ ∀ c', head s' = Some c' → is_space c' = false) ∧
      tidy s'
  end.

(** The units a sanitised title is cleared of. *)
Definition bracket_or_space (c : N) : Prop :=
  c = LBRACKET ∨ c = RBRACKET ∨ is_space c = true.

(** What every entry read from a section satisfies. *)
Definition parsed_ok (today : list N) (l : link) : Prop :=
  title l ≠ [] ∧
  Forall (λ c, is_line_terminator c = false) (title l) ∧
  url l ≠ [] ∧
  (RPAREN ∉ url l) ∧
  (is_iso_date (date l) = true ∨ date l = today).

(** The units [/[\n,]+/] matches. *)
Definition is_separator (c : N) : bool := (c =? 10)%N || (c =? 44)%N.

(** Text that neither starts nor ends with white space. *)
Definition trimmed (u : list N) : Prop :=
  (∀ c, head u = Some c → is_space c = false) ∧
  (∀ c, last u = Some c → is_space c = false).

(** What every feed address handed to the fetch loop satisfies. *)
Definition feed_url_ok (u : list N) : Prop :=
  u ≠ [] ∧ Forall (λ c, is_separator c = false) u ∧ trimmed u.

(** An input that is unset or holds white space only. *)
Definition blank_input (env : list N → option (list N)) (name : string)
    : Prop :=
  match env (input_key (lit name)) with
  | None => True
  | Some s => Forall (λ c, is_space c = true) s
  end.

(** The records the fetch loop gathers from a list of feeds. *)
Definition fetched (w : world) (rssUrls : list (list N)) : list link :=
  default [] (fetchFeeds w rssUrls).2.

(** An item with a link or a guid whose date the clock cannot read. *)
Definition bad_date (w : world) (it : item) : Prop :=
  first_truthy (item_link it) (item_guid it) ≠ None ∧
  ∃ c s, item_pubDate it = Some (c :: s) ∧ w_toISOString w (c :: s) = None.

(** The record pushed for an item. *)
Definition record_of (w : world) (it : item) (l : link) : Prop :=
  title l = sanitiseTitle (item_title it) ∧
  first_truthy (item_link it) (item_guid it) = Some (url l) ∧
  match item_pubDate it with
  | Some (c :: s) =>
      ∃ iso, w_toISOString w (c :: s) = Some iso ∧ date l = slice 0 10 iso
  | _ => date l = today w
  end.

(** The events of a trace that change something outside the run, in
    order. *)
Definition actions (t : list event) : list event :=
  flat_map (λ e, match e with
                 | EvMkdir _ | EvWriteFile _ _ | EvExec _ _
                 | EvPullsCreate _ _ _ _ => [e]
                 | _ => []
                 end) t.

(** The document [run] starts from when the output file does not exist. *)
Definition seed : list N :=
  lit "# RSS Links" ++ [LF; LF] ++ MARKER_START ++ [LF] ++ MARKER_END ++ [LF].

(** The world once [fs.writeFileSync(path, content)] has run: the file
    exists and holds [content]; everything else is as before. *)
Definition with_file (w : world) (path content : list N) : world :=
  {| w_env := w_env w;
     w_owner := w_owner w;
     w_repo := w_repo w;
     w_parseURL := w_parseURL w;
     w_now := w_now w;
     w_toISOString := w_toISOString w;
     w_resolve := w_resolve w;
     w_dirname := w_dirname w;
     w_exists := λ p, if decide (p = path) then true else w_exists w p;
     w_read := λ p, if decide (p = path) then content else w_read w p;
     w_pr_html_url := w_pr_html_url w |}.

(** A document in which the parser finds the section, or no marker at
    all. *)
Definition section_or_none (content : list N) : Prop :=
  (∃ si ei, indexOf MARKER_START content = Some si ∧
            indexOf MARKER_END content = Some ei ∧ si < ei) ∨
  (indexOf MARKER_START content = None ∧ indexOf MARKER_END content = None).

(** An entry line without date, as one written by hand:
    [- [title](url)]. *)
Definition undatedLine (e : list N * list N) : list N :=
  lit "- [" ++ e.1 ++ lit "](" ++ e.2 ++ lit ")".

(** Lines without date, each closed by a newline. *)
Fixpoint undated (es : list (list N * list N)) : list N :=
  match es with
  | [] => []
  | e :: es' => undatedLine e ++ LF :: undated es'
  end.

(** The titles and URLs the line pattern reads back as they are. *)
Definition wf_undated (e : list N * list N) : Prop :=
  e.1 ≠ [] ∧
  Forall (λ c, c ≠ RBRACKET ∧ is_line_terminator c = false) e.1 ∧
  indexOf MARKER_END e.1 = None ∧
  e.2 ≠ [] ∧ Forall (λ c, c ≠ RPAREN) e.2 ∧ indexOf MARKER_END e.2 = None.


(** ** Facts about strings *)

Lemma starts_with_app (pat s : list N) : starts_with pat (pat ++ s) = true.
Proof.
  induction pat as [|p pat IH]; simpl; [done|].
  by rewrite N.eqb_refl, IH.
Qed.

Lemma starts_with_split (pat s : list N) :
  starts_with pat s = true → s = pat ++ drop (length pat) s.
Proof.
  revert s. induction pat as [|p pat IH]; intros [|c s]; simpl; try done.
  intros [Hc Hs]%andb_prop. apply N.eqb_eq in Hc as ->.
  f_equal. by apply IH.
Qed.

(** A unit that the pattern lacks stops every occurrence that reaches it. *)
Lemma starts_with_sep (pat a b : list N) (c : N) :
  c ∉ pat → starts_with pat (a ++ c :: b) = starts_with pat a.
Proof.
  revert a. induction pat as [|p pat IH]; intros a Hc; [by destruct a|].
  apply not_elem_of_cons in Hc as [Hpc Hc].
  destruct a as [|x a]; simpl.
  - apply andb_false_iff. left. apply N.eqb_neq. congruence.
  - by rewrite IH.
Qed.

Lemma starts_with_short (pat s : list N) :
  length s < length pat → starts_with pat s = false.
Proof.
  revert s. induction pat as [|p pat IH]; intros [|c s] Hlen; simpl in *;
    try done; try lia.
  rewrite IH by lia. apply andb_false_r.
Qed.

Lemma indexOf_short (pat s : list N) :
  length s < length pat → indexOf pat s = None.
Proof.
  induction s as [|c s IH]; intros Hlen.
  - simpl. by rewrite starts_with_short.
  - cbn [indexOf]. rewrite starts_with_short by done.
    rewrite IH; [done | simpl in Hlen; lia].
Qed.

Lemma indexOf_None_inv (pat : list N) (c : N) (s : list N) :
  indexOf pat (c :: s) = None →
  starts_with pat (c :: s) = false ∧ indexOf pat s = None.
Proof.
  cbn [indexOf]. destruct (starts_with pat (c :: s)); [done|].
  by destruct (indexOf pat s).
Qed.

Lemma sealed_nil (pat : list N) : sealed pat [].
Proof. intros b. simpl. by destruct (indexOf pat b). Qed.

Lemma sealed_app (pat a1 a2 : list N) :
  sealed pat a1 → sealed pat a2 → sealed pat (a1 ++ a2).
Proof.
  intros H1 H2 b. rewrite <- (assoc_L (++)), H1, H2.
  destruct (indexOf pat b); simpl; [|done].
  rewrite length_app. f_equal. lia.
Qed.

Lemma sealed_sep (pat a : list N) (c : N) :
  c ∉ pat → pat ≠ [] → indexOf pat a = None → sealed pat (a ++ [c]).
Proof.
  intros Hc Hpat Ha b. rewrite <- (assoc_L (++)). simpl.
  induction a as [|x a IH].
  - simpl. replace (starts_with pat (c :: b)) with (starts_with pat []).
    2:{ symmetry. apply (starts_with_sep pat [] b c Hc). }
    destruct pat; [done|]. simpl. by destruct (indexOf (n :: pat) b).
  - apply indexOf_None_inv in Ha as [Hx Ha].
    change ((x :: a) ++ c :: b) with (x :: (a ++ c :: b)).
    cbn [indexOf].
    change (x :: (a ++ c :: b)) with ((x :: a) ++ c :: b).
    rewrite starts_with_sep, Hx by done.
    simpl. rewrite IH by done. by destruct (indexOf pat b).
Qed.

Lemma indexOf_first (pat s : list N) (i : nat) :
  indexOf pat s = Some i →
  starts_with pat (drop i s) = true ∧
  ∀ j, j < i → starts_with pat (drop j s) = false.
Proof.
  revert i. induction s as [|c s IH]; intros i; simpl.
  - destruct (starts_with pat []) eqn:Hsw; [|done].
    intros [= <-]. split; [done|]. intros; lia.
  - destruct (starts_with pat (c :: s)) eqn:Hsw.
    + intros [= <-]. split; [done|]. intros; lia.
    + destruct (indexOf pat s) as [i'|]; [|done]. simpl.
      intros [= <-]. destruct (IH i' eq_refl) as [H1 H2].
      split; [done|]. intros [|j] Hj; [done|]. apply H2. lia.
Qed.

Lemma indexOf_bound (pat s : list N) (i : nat) :
  indexOf pat s = Some i → i + length pat ≤ length s.
Proof.
  revert i. induction s as [|c s IH]; intros i; cbn [indexOf].
  - destruct (starts_with pat []) eqn:Hsw; [|done]. intros [= <-].
    destruct pat; [simpl; lia | done].
  - destruct (starts_with pat (c :: s)) eqn:Hsw.
    + intros [= <-]. destruct (decide (length (c :: s) < length pat)) as [Hlt|];
        [|simpl in *; lia].
      apply starts_with_short in Hlt. congruence.
    + destruct (indexOf pat s) as [i'|]; [|done]. intros [= <-].
      specialize (IH i' eq_refl). simpl. lia.
Qed.

Lemma indexOf_split (pat s : list N) (i : nat) :
  indexOf pat s = Some i →
  s = take i s ++ pat ++ drop (i + length pat) s.
Proof.
  intros [Hsw _]%indexOf_first. apply starts_with_split in Hsw.
  rewrite drop_drop in Hsw. rewrite <- Hsw. by rewrite take_drop.
Qed.

(** ** Facts about the matcher *)

(** A match only moves forward: the continuation is entered at a state
    that has no more unread input than the state the matcher started in. *)
Lemma rep_lazy_forward p cp rs k y :
  rep_lazy p cp rs k = Some y →
  ∃ x', length (rest x') < length rs ∧ k x' = Some y.
Proof.
  induction rs as [|c rs IH]; simpl; [done|].
  destruct (p c); [|done].
  destruct (k (MState (Some c) rs cp)) as [y'|] eqn:Hk.
  - intros [= <-]. eexists. split; [|exact Hk]. simpl. lia.
  - intros (x' & Hlen & Hx')%IH. exists x'. split; [lia|done].
Qed.

Lemma rep_greedy_forward p cp rs k y :
  rep_greedy p cp rs k = Some y →
  ∃ x', length (rest x') < length rs ∧ k x' = Some y.
Proof.
  induction rs as [|c rs IH]; simpl; [done|].
  destruct (p c); [|done].
  destruct (rep_greedy p cp rs k) as [y'|] eqn:Hrec.
  - intros [= <-]. destruct (IH eq_refl) as (x' & Hlen & Hx').
    exists x'. split; [lia|done].
  - intros Hk. eexists. split; [|exact Hk]. simpl. lia.
Qed.

Lemma rep_count_forward n p x k y :
  rep_count n p x k = Some y →
  ∃ x', length (rest x') ≤ length (rest x) ∧ k x' = Some y.
Proof.
  revert x. induction n as [|n IH]; intros x; simpl.
  - intros Hk. by exists x.
  - destruct (rest x) as [|c rs] eqn:Hrs; [done|].
    destruct (p c); [|done].
    intros (x' & Hlen & Hx')%IH. exists x'. simpl in *. split; [lia|done].
Qed.

Lemma matcher_forward r x k y :
  matcher r x k = Some y →
  ∃ x', length (rest x') ≤ length (rest x) ∧ k x' = Some y.
Proof.
  revert x k y. induction r as [|c|p| |r1 IH1 r2 IH2|n r IH|g p|n p|r IH];
    intros x k y; simpl.
  - intros Hk. by exists x.
  - destruct (rest x) as [|c' rs]; [done|]. destruct (c' =? c)%N; [|done].
    intros Hk. eexists. split; [|exact Hk]. simpl. lia.
  - destruct (rest x) as [|c' rs]; [done|]. destruct (p c'); [|done].
    intros Hk. eexists. split; [|exact Hk]. simpl. lia.
  - destruct (prev x) as [c|]; [destruct (is_line_terminator c)|];
      try done; intros Hk; by exists x.
  - intros (x1 & Hlen1 & (x2 & Hlen2 & Hk)%IH2)%IH1.
    exists x2. split; [lia|done].
  - intros (x1 & Hlen1 & Hk)%IH. eexists. split; [|exact Hk]. done.
  - destruct g.
    + intros (x' & Hlen & Hk)%rep_greedy_forward. exists x'. split; [lia|done].
    + intros (x' & Hlen & Hk)%rep_lazy_forward. exists x'. split; [lia|done].
  - apply rep_count_forward.
  - match goal with |- context [matcher r ?x0 ?k0] =>
      destruct (matcher r x0 k0) as [y'|] eqn:Hm end.
    + intros [= <-]. apply IH in Hm as (x' & Hlen & Hk). simpl in *.
      destruct (length (rest x') =? length (rest x)); [done|].
      by exists x'.
    + intros Hk. by exists x.
Qed.

Lemma matcher_rseq_cons r rs x k :
  matcher (rseq (r :: rs)) x k = matcher r x (λ y, matcher (rseq rs) y k).
Proof. reflexivity. Qed.

Lemma prev_after_cons c cs pv : prev_after (c :: cs) pv = prev_after cs (Some c).
Proof. unfold prev_after. rewrite last_cons. by destruct (last cs). Qed.

(** A literal reads exactly its own units. *)
Lemma matcher_literal cs x k :
  matcher (rseq (map RChar cs)) x k =
  if starts_with cs (rest x)
  then k (MState (prev_after cs (prev x)) (drop (length cs) (rest x)) (caps x))
  else None.
Proof.
  revert x. induction cs as [|c cs IH]; intros [pv rs cp].
  - done.
  - cbn [map]. rewrite matcher_rseq_cons. cbn [matcher rest prev caps].
    destruct rs as [|c' rs]; [done|]. cbn [starts_with].
    rewrite (N.eqb_sym c c'). destruct (c' =? c)%N eqn:Hc; [|done].
    apply N.eqb_eq in Hc as ->. rewrite IH. cbn [rest prev caps andb].
    by rewrite prev_after_cons.
Qed.

Lemma matcher_rlit s x k :
  matcher (rlit s) x k =
  if starts_with (lit s) (rest x)
  then k (MState (prev_after (lit s) (prev x))
                 (drop (length (lit s)) (rest x)) (caps x))
  else None.
Proof. apply matcher_literal. Qed.

(** A match of [lineRe] reads at least one unit, so the loop of
    [parseSection] advances on every turn. *)
Lemma lineRe_advances x y :
  matcher lineRe x Some = Some y → length (rest y) < length (rest x).
Proof.
  unfold lineRe. rewrite matcher_rseq_cons.
  intros (x1 & Hlen1 & Hm)%matcher_forward.
  rewrite matcher_rseq_cons, matcher_rlit in Hm.
  destruct (starts_with (lit "- [") (rest x1)) eqn:Hsw; [|done].
  apply matcher_forward in Hm as (x2 & Hlen2 & [= <-]).
  apply starts_with_split in Hsw. apply (f_equal length) in Hsw.
  rewrite length_app in Hsw. simpl in *. lia.
Qed.

Lemma exec_advances pv rs y :
  exec lineRe pv rs = Some y → length (rest y) < length rs.
Proof.
  revert pv. induction rs as [|c rs IH]; intros pv; cbn [exec].
  - destruct (matcher lineRe (MState pv [] ∅) Some) eqn:Hm; [|done].
    intros [= <-]. by apply lineRe_advances in Hm.
  - destruct (matcher lineRe (MState pv (c :: rs) ∅) Some) eqn:Hm.
    + intros [= <-]. by apply lineRe_advances in Hm.
    + intros Hy%IH. simpl. lia.
Qed.

(** The loop of [parseSection] ends within the fuel it is given. *)
Lemma collect_total fuel today pv rs :
  length rs < fuel → is_Some (collect fuel today pv rs).
Proof.
  revert pv rs. induction fuel as [|fuel IH]; intros pv rs Hlen; [lia|].
  cbn [collect]. destruct (exec lineRe pv rs) as [m|] eqn:Hex; [|done].
  apply exec_advances in Hex.
  destruct (IH (prev m) (rest m)) as [ls ->]; [lia|]. done.
Qed.

Lemma matchLinks_terminates (today body : list N) :
  collect (S (length body)) today None body = Some (matchLinks today body).
Proof.
  unfold matchLinks.
  destruct (collect_total (S (length body)) today None body) as [ls ->];
    [lia|done].
Qed.

(** ** Reading back one rendered line *)

Lemma rep_lazy_title (t : list N) : ∀ (c : N) (s : list N) cp (k : cont) r,
  Forall (λ c, c ≠ RBRACKET ∧ is_line_terminator c = false) (c :: t) →
  (∀ y, head (rest y) ≠ Some RBRACKET → k y = None) →
  k (MState (prev_after (c :: t) None) (RBRACKET :: s) cp) = Some r →
  rep_lazy (λ c, negb (is_line_terminator c)) cp ((c :: t) ++ RBRACKET :: s) k
  = Some r.
Proof.
  induction t as [|c' t IH]; intros c s cp k r Hall Hk Hr.
  - apply Forall_cons in Hall as [[_ Hc] _]. simpl. rewrite Hc. simpl.
    unfold prev_after in Hr. simpl in Hr. by rewrite Hr.
  - apply Forall_cons in Hall as [[_ Hc] Hall].
    change ((c :: c' :: t) ++ RBRACKET :: s)
      with (c :: ((c' :: t) ++ RBRACKET :: s)).
    cbn [rep_lazy]. rewrite Hc. cbn [negb].
    rewrite Hk.
    + apply IH; [done..|]. by rewrite !prev_after_cons in *.
    + simpl. apply Forall_cons in Hall as [[Hne _] _]. congruence.
Qed.

Lemma rep_greedy_url (u : list N) : ∀ (c : N) (s : list N) cp (k : cont) r,
  Forall (λ c, c ≠ RPAREN) (c :: u) →
  k (MState (prev_after (c :: u) None) (RPAREN :: s) cp) = Some r →
  rep_greedy (λ c, negb (c =? RPAREN)%N) cp ((c :: u) ++ RPAREN :: s) k
  = Some r.
Proof.
  induction u as [|c' u IH]; intros c s cp k r Hall Hr.
  - apply Forall_cons in Hall as [Hc _]. apply N.eqb_neq in Hc.
    simpl. rewrite Hc. simpl. unfold prev_after in Hr. simpl in Hr.
    by rewrite Hr.
  - apply Forall_cons in Hall as [Hc Hall]. apply N.eqb_neq in Hc.
    change ((c :: c' :: u) ++ RPAREN :: s)
      with (c :: ((c' :: u) ++ RPAREN :: s)).
    cbn [rep_greedy]. rewrite Hc. cbn [negb].
    rewrite (IH c' s cp k r); [done|done|]. by rewrite !prev_after_cons in *.
Qed.

Lemma consumed_app (t s : list N) pv pv' cp cp' :
  consumed (MState pv (t ++ s) cp) (MState pv' s cp') = t.
Proof.
  unfold consumed. cbn [rest]. rewrite length_app.
  replace (length t + length s - length s) with (length t) by lia.
  by rewrite take_app_length.
Qed.

Lemma is_iso_date_inv (d : list N) :
  is_iso_date d = true →
  ∃ y1 y2 y3 y4 m1 m2 d1 d2,
    d = [y1; y2; y3; y4; DASH; m1; m2; DASH; d1; d2] ∧
    Forall (λ c, is_digit c = true) [y1; y2; y3; y4; m1; m2; d1; d2].
Proof.
  do 11 (destruct d as [|? d]; try done). cbn [is_iso_date].
  rewrite !andb_true_iff, !N.eqb_eq.
  intros [[[[[[[[[? ?] ?] ?] ->] ?] ?] ->] ?] ?].
  do 8 eexists. split; [reflexivity|]. repeat constructor; done.
Qed.

(** The optional [ - YYYY-MM-DD] suffix of the pattern on a well-formed
    date. *)
Lemma matcher_date_suffix (d s : list N) pv cp :
  is_iso_date d = true → cp !! 3 = None →
  matcher (ROpt (rseq [ rlit " - "; RGroup 3 dateRe ]))
          (MState pv (lit " - " ++ d ++ LF :: s) cp) Some
  = Some (MState (last d) (LF :: s) (<[3 := d]> cp)).
Proof.
  intros (y1 & y2 & y3 & y4 & m1 & m2 & d1 & d2 & -> & Hd)%is_iso_date_inv Hcp.
  repeat (apply Forall_cons in Hd as [? Hd]).
  cbn [matcher groups_of rseq foldr app prev rest caps].
  change (groups_of (rlit " - ") ++ 3 :: groups_of dateRe ++ []) with [3].
  cbn [foldr]. rewrite delete_id by done.
  rewrite matcher_rlit. cbn [rest prev caps].
  rewrite starts_with_app. cbn [lit list_ascii_of_string map length drop app].
  unfold dateRe.
  cbn [matcher rseq foldr rep_count rest prev caps].
  repeat match goal with H : is_digit _ = true |- _ => rewrite H; clear H end.
  unfold DASH. rewrite !N.eqb_refl.
  cbn [rest length]. 
  replace (S (length s) =? _) with false.
  2:{ symmetry. apply Nat.eqb_neq. lia. }
  unfold consumed. cbn [rest length].
  replace (S (S (S (S (S (S (S (S (S (S (S (length s))))))))))) - S (length s))
    with 10 by lia.
  reflexivity.
Qed.

Lemma starts_with_head_ne (p : N) (pat s : list N) :
  head s ≠ Some p → starts_with (p :: pat) s = false.
Proof.
  destruct s as [|c s]; [done|]. simpl. intros Hne.
  destruct (p =? c)%N eqn:Hc; [|done]. apply N.eqb_eq in Hc. congruence.
Qed.

(** A well-formed line at the start of a line is read back whole. *)
Lemma lineRe_rendered (today : list N) (l : link) (s : list N) :
  wf_link l →
  ∃ m, matcher lineRe (MState (Some LF) (renderLine l ++ LF :: s) ∅) Some
       = Some m ∧
       rest m = LF :: s ∧ link_of_match today m = l.
Proof.
  intros [Ht Htu _ Hu Huu _ Hd]. destruct l as [t u d]. cbn [title url date] in *.
  destruct t as [|tc t]; [done|]. destruct u as [|uc u]; [done|].
  eexists. split; [|split].
  - unfold lineRe, renderLine. cbn [title url date].
    rewrite matcher_rseq_cons. cbn [matcher prev].
    change (is_line_terminator LF) with true. cbn match.
    rewrite matcher_rseq_cons, matcher_rlit. cbn [rest prev caps].
    rewrite <- !(assoc_L (++)), starts_with_app, drop_app_length.
    rewrite matcher_rseq_cons. cbn [matcher rest prev caps].
    change (lit ") - " ++ ?x) with (RPAREN :: (lit " - " ++ x)).
    apply rep_lazy_title; [done| |].
    { intros y Hy. rewrite matcher_rseq_cons, matcher_rlit. cbn [rest].
      change (lit "](") with [RBRACKET; LPAREN].
      by rewrite starts_with_head_ne. }
    cbn [prev rest caps].
    change (RBRACKET :: N_of_ascii "(" :: ?x) with (lit "](" ++ x).
    rewrite matcher_rseq_cons, matcher_rlit. cbn [rest prev caps].
    rewrite starts_with_app, drop_app_length.
    rewrite matcher_rseq_cons. cbn [matcher rest prev caps].
    apply rep_greedy_url; [done|].
    cbn [prev rest caps].
    rewrite matcher_rseq_cons. cbn [matcher rest prev caps].
    rewrite N.eqb_refl.
    rewrite matcher_rseq_cons.
    change (λ y, matcher (rseq []) y Some) with (Some : cont).
    rewrite matcher_date_suffix; [reflexivity|done|].
    by rewrite !lookup_insert_ne by done.
  - reflexivity.
  - unfold link_of_match. cbn [caps].
    rewrite lookup_insert_eq.
    rewrite !lookup_insert_ne, lookup_insert_eq by done.
    rewrite lookup_insert_ne, lookup_insert_eq by done.
    rewrite !consumed_app. cbn [default].
    f_equal. apply is_iso_date_inv in Hd as (? & ? & ? & ? & ? & ? & ? & ? & -> & _).
    reflexivity.
Qed.

(** ** Reading back a rendered section *)

Lemma join_flat (l : link) (ls : list link) :
  join [LF] (map renderLine (l :: ls)) ++ [LF] = flat (l :: ls).
Proof.
  revert l. induction ls as [|l' ls IH]; intros l; [done|].
  change (join [LF] (map renderLine (l :: l' :: ls)))
    with (renderLine l ++ [LF] ++ join [LF] (map renderLine (l' :: ls))).
  rewrite <- !(assoc_L (++)), IH. done.
Qed.

Lemma renderSection_flat (ls : list link) :
  renderSection ls = MARKER_START ++ (LF :: flat ls) ++ MARKER_END.
Proof.
  unfold renderSection. destruct ls as [|l ls]; [done|].
  cbn zeta. change (map renderLine (l :: ls)) with
    (renderLine l :: map renderLine ls) at 1. cbn match.
  by rewrite <- (join_flat l ls).
Qed.

Lemma exec_hit re pv rs y :
  matcher re (MState pv rs ∅) Some = Some y → exec re pv rs = Some y.
Proof. intros Hm. destruct rs; simpl; by rewrite Hm. Qed.

Lemma lineRe_needs_dash x :
  head (rest x) ≠ Some DASH → matcher lineRe x Some = None.
Proof.
  intros Hne. unfold lineRe. rewrite matcher_rseq_cons. cbn [matcher].
  assert (matcher (rseq
            [rlit "- [";
             RGroup 1 (RPlus false (λ c, negb (is_line_terminator c)));
             rlit "](";
             RGroup 2 (RPlus true (λ c, negb (c =? RPAREN)%N));
             RChar RPAREN;
             ROpt (rseq [rlit " - "; RGroup 3 dateRe])]) x Some = None) as ->.
  { rewrite matcher_rseq_cons, matcher_rlit.
    change (lit "- [") with [DASH; SPACE; LBRACKET].
    by rewrite starts_with_head_ne. }
  by repeat case_match.
Qed.

Lemma exec_skip_LF pv s : exec lineRe pv (LF :: s) = exec lineRe (Some LF) s.
Proof. cbn [exec]. by rewrite lineRe_needs_dash. Qed.

Lemma exec_nil pv : exec lineRe pv [] = None.
Proof. cbn [exec]. by rewrite lineRe_needs_dash. Qed.

Lemma collect_flat (today : list N) (ls : list link) :
  Forall wf_link ls →
  ∀ fuel pv, length ls < fuel →
    collect fuel today pv (LF :: flat ls) = Some ls.
Proof.
  induction 1 as [|l ls Hl Hls IH]; intros [|fuel] pv Hfuel;
    simpl in Hfuel; try lia; cbn [collect]; rewrite exec_skip_LF.
  - by rewrite exec_nil.
  - cbn [flat].
    destruct (lineRe_rendered today l (flat ls) Hl) as (m & Hm & Hrest & Hlink).
    rewrite (exec_hit _ _ _ _ Hm), Hrest, Hlink, IH by lia. done.
Qed.

Lemma matchLinks_flat (today : list N) (ls : list link) :
  Forall wf_link ls → matchLinks today (LF :: flat ls) = ls.
Proof.
  intros Hls. unfold matchLinks. rewrite collect_flat; [done..|].
  assert (length ls ≤ length (flat ls)); [|simpl; lia].
  clear. induction ls as [|l ls IH]; simpl; [lia|].
  rewrite length_app. simpl. lia.
Qed.

(** ** Locating the markers *)

(** Both markers open with [<], which occurs nowhere else in them. *)
Lemma MARKER_START_shape : ∃ tl, MARKER_START = 60%N :: tl ∧ 60%N ∉ tl.
Proof.
  eexists. split; [reflexivity|]. decide_by_compute.
Qed.

Lemma MARKER_END_shape : ∃ tl, MARKER_END = 60%N :: tl ∧ 60%N ∉ tl.
Proof.
  eexists. split; [reflexivity|]. decide_by_compute.
Qed.

(** Text without the pattern, followed by the first unit of the pattern,
    hosts no occurrence when that unit is nowhere else in the pattern. *)
Lemma indexOf_past (c0 : N) (pat' a b : list N) :
  c0 ∉ pat' → indexOf (c0 :: pat') a = None →
  indexOf (c0 :: pat') (a ++ c0 :: b)
  = (λ i, length a + i) <$> indexOf (c0 :: pat') (c0 :: b).
Proof.
  intros Hc0. generalize (eq_refl (indexOf (c0 :: pat') (c0 :: b))).
  generalize (indexOf (c0 :: pat') (c0 :: b)) at 1 3. intros r Hr.
  induction a as [|x a IH]; intros Ha.
  - cbn [app length]. rewrite <- Hr. by destruct r.
  - apply indexOf_None_inv in Ha as [Hx Ha].
    change ((x :: a) ++ c0 :: b) with (x :: (a ++ c0 :: b)).
    cbn [indexOf].
    replace (starts_with (c0 :: pat') (x :: (a ++ c0 :: b))) with false.
    2:{ cbn [starts_with] in *. by rewrite starts_with_sep. }
    rewrite IH by done. by destruct r.
Qed.

Lemma sealed_short (pat a : list N) (c : N) :
  c ∉ pat → length a < length pat → sealed pat (a ++ [c]).
Proof.
  intros Hc Hlen. apply sealed_sep; [done| |by apply indexOf_short].
  intros ->. simpl in Hlen. lia.
Qed.

Lemma renderLine_pieces (l : link) :
  renderLine l ++ [LF]
  = (lit "- " ++ [LBRACKET]) ++ (title l ++ [RBRACKET]) ++ ([] ++ [LPAREN]) ++
    (url l ++ [RPAREN]) ++ ((lit " - " ++ date l) ++ [LF]).
Proof. unfold renderLine. by rewrite <- !(assoc_L (++)). Qed.

Lemma sealed_line (l : link) :
  wf_link l → sealed MARKER_END (renderLine l ++ [LF]).
Proof.
  intros [_ _ Ht _ _ Hu Hd]. rewrite renderLine_pieces.
  apply is_iso_date_inv in Hd as (? & ? & ? & ? & ? & ? & ? & ? & -> & _).
  apply sealed_app; [|apply sealed_app; [|apply sealed_app; [|apply sealed_app]]].
  - apply sealed_short; [decide_by_compute|simpl; lia].
  - apply sealed_sep; [decide_by_compute|done|done].
  - apply sealed_short; [decide_by_compute|simpl; lia].
  - apply sealed_sep; [decide_by_compute|done|done].
  - apply sealed_short; [decide_by_compute|simpl; lia].
Qed.

Lemma sealed_flat (ls : list link) :
  Forall wf_link ls → sealed MARKER_END (flat ls).
Proof.
  induction 1 as [|l ls Hl _ IH]; [apply sealed_nil|].
  cbn [flat]. change (renderLine l ++ LF :: flat ls)
    with (renderLine l ++ [LF] ++ flat ls).
  rewrite (assoc_L (++)). apply sealed_app; [by apply sealed_line|done].
Qed.

(** In a rendered section the first end marker is the closing one. *)
Lemma indexOf_end_rendered (ls : list link) (post : list N) :
  Forall wf_link ls →
  indexOf MARKER_END (MARKER_START ++ (LF :: flat ls) ++ MARKER_END ++ post)
  = Some (length MARKER_START + length (LF :: flat ls)).
Proof.
  intros Hls.
  assert (sealed MARKER_END (MARKER_START ++ LF :: flat ls)) as Hsealed.
  { change (MARKER_START ++ LF :: flat ls)
      with ((MARKER_START ++ [LF]) ++ flat ls).
    apply sealed_app; [|by apply sealed_flat].
    apply sealed_sep; [|done|by vm_compute].
    decide_by_compute. }
  rewrite (assoc_L (++)), Hsealed.
  replace (indexOf MARKER_END (MARKER_END ++ post)) with (Some 0).
  2:{ destruct post; cbn [indexOf]; by rewrite ?starts_with_app. }
  cbn [fmap option_fmap option_map]. rewrite length_app. f_equal. lia.
Qed.

Lemma indexOf_head (pat s : list N) : indexOf pat (pat ++ s) = Some 0.
Proof. destruct (pat ++ s) eqn:E; cbn [indexOf]; by rewrite <- E, starts_with_app. Qed.

(** A rendered section is found again inside any document whose text before
    the section holds neither marker. *)
Lemma parseSection_rendered (today pre post : list N) (ls : list link) :
  Forall wf_link ls →
  indexOf MARKER_START pre = None → indexOf MARKER_END pre = None →
  parseSection today (pre ++ renderSection ls ++ post) = Section_ pre post ls.
Proof.
  intros Hls Hs He. rewrite renderSection_flat.
  set (body := LF :: flat ls).
  assert (pre ++ (MARKER_START ++ body ++ MARKER_END) ++ post
          = pre ++ MARKER_START ++ body ++ MARKER_END ++ post) as ->.
  { by rewrite <- !(assoc_L (++)). }
  assert (indexOf MARKER_START (pre ++ MARKER_START ++ body ++ MARKER_END ++ post)
          = Some (length pre)) as Hsi.
  { destruct MARKER_START_shape as (tl & Heq & Htl).
    rewrite Heq in Hs |- *. cbn [app]. rewrite indexOf_past by done.
    change (60%N :: tl ++ ?x) with ((60%N :: tl) ++ x).
    rewrite indexOf_head. cbn. f_equal. lia. }
  assert (indexOf MARKER_END (pre ++ MARKER_START ++ body ++ MARKER_END ++ post)
          = Some (length pre + (length MARKER_START + length body))) as Hei.
  { destruct MARKER_END_shape as (tl & Heq & Htl).
    pose proof (indexOf_end_rendered ls post Hls) as Hin.
    fold body in Hin. revert Hin.
    change MARKER_START with (60%N :: drop 1 MARKER_START) at 1 3.
    cbn [app]. rewrite Heq in He |- *. intros Hin.
    rewrite indexOf_past by done. by rewrite Hin. }
  unfold parseSection. rewrite Hsi, Hei.
  replace (_ <=? length pre) with false
    by (symmetry; apply Nat.leb_gt; unfold body; simpl; lia).
  unfold slice, slice_from. f_equal.
  - by rewrite drop_0, Nat.sub_0_r, take_app_length.
  - replace (length pre + (length MARKER_START + length body) + length MARKER_END)
      with (length (pre ++ MARKER_START ++ body ++ MARKER_END))
      by (rewrite !length_app; lia).
    replace (pre ++ MARKER_START ++ body ++ MARKER_END ++ post)
      with ((pre ++ MARKER_START ++ body ++ MARKER_END) ++ post)
      by (by rewrite <- !(assoc_L (++))).
    by rewrite drop_app_length.
  - replace (length pre + length MARKER_START)
      with (length (pre ++ MARKER_START)) by (by rewrite length_app).
    rewrite (assoc_L (++) pre), drop_app_length.
    replace (length pre + (length MARKER_START + length body)
             - length (pre ++ MARKER_START)) with (length body)
      by (rewrite length_app; lia).
    rewrite take_app_length. by apply matchLinks_flat.
Qed.

(** The end marker cannot begin inside a start marker. *)
Lemma marker_no_overlap (d : nat) (t : list N) :
  0 < d < length MARKER_START →
  starts_with MARKER_END (drop d (MARKER_START ++ t)) = false.
Proof.
  intros Hd.
  do 25 (destruct d as [|d]; [first [lia | reflexivity]|]).
  simpl in Hd. lia.
Qed.

Lemma markers_apart (content : list N) (si ei : nat) :
  indexOf MARKER_START content = Some si →
  indexOf MARKER_END content = Some ei →
  si < ei → si + length MARKER_START ≤ ei.
Proof.
  intros [Hs _]%indexOf_first [He _]%indexOf_first Hlt.
  destruct (decide (si + length MARKER_START ≤ ei)) as [|Hnear]; [done|].
  apply starts_with_split in Hs.
  replace ei with (si + (ei - si)) in He by lia.
  rewrite <- drop_drop, Hs, marker_no_overlap in He; [done|lia].
Qed.

Lemma parseSection_fallback (today content : list N) :
  (∀ si ei, indexOf MARKER_START content = Some si →
            indexOf MARKER_END content = Some ei → ei ≤ si) →
  parseSection today content = fallback content.
Proof.
  intros H. unfold parseSection.
  destruct (indexOf MARKER_START content) as [si|]; [|done].
  destruct (indexOf MARKER_END content) as [ei|]; [|done].
  specialize (H si ei eq_refl eq_refl).
  apply Nat.leb_le in H. by rewrite H.
Qed.

Lemma parseSection_located (today content : list N) (si ei : nat) :
  indexOf MARKER_START content = Some si →
  indexOf MARKER_END content = Some ei →
  si < ei →
  ∃ body,
    content = before (parseSection today content) ++ MARKER_START ++ body ++
              MARKER_END ++ after (parseSection today content) ∧
    length (before (parseSection today content)) = si ∧
    si + length MARKER_START + length body = ei ∧
    links (parseSection today content) = matchLinks today body.
Proof.
  intros Hs He Hlt. pose proof (markers_apart _ _ _ Hs He Hlt) as Hapart.
  pose proof (indexOf_bound _ _ _ He) as Hbound.
  unfold parseSection. rewrite Hs, He.
  replace (ei <=? si) with false by (symmetry; apply Nat.leb_gt; lia).
  cbn [before after links]. unfold slice, slice_from.
  exists (take (ei - (si + length MARKER_START))
               (drop (si + length MARKER_START) content)).
  rewrite drop_0, Nat.sub_0_r.
  assert (length (take si content) = si) as Hlen_before.
  { rewrite length_take. lia. }
  split; [|split; [done|split; [|done]]].
  - rewrite (indexOf_split _ _ _ Hs) at 1. f_equal. f_equal.
    set (rest0 := drop (si + length MARKER_START) content).
    assert (drop (ei + length MARKER_END) content
            = drop (ei - (si + length MARKER_START) + length MARKER_END) rest0)
      as ->.
    { unfold rest0. rewrite drop_drop. f_equal. lia. }
    assert (starts_with MARKER_END (drop (ei - (si + length MARKER_START)) rest0)
            = true) as Hsw.
    { unfold rest0. rewrite drop_drop.
      replace (si + length MARKER_START + (ei - (si + length MARKER_START)))
        with ei by lia.
      by apply indexOf_first in He as [He _]. }
    apply starts_with_split in Hsw. rewrite drop_drop in Hsw.
    rewrite <- Hsw. by rewrite take_drop.
  - rewrite length_take, length_drop. lia.
Qed.

(** ** Lines the pattern cannot read *)

(** The title group must be followed by [\]]: with no [\]] after the first
    unit the lazy repetition runs out without a match. *)
Lemma rep_lazy_no_bracket p cp (s : list N) (k : cont) :
  (∀ y, head (rest y) ≠ Some RBRACKET → k y = None) →
  RBRACKET ∉ tail s → rep_lazy p cp s k = None.
Proof.
  intros Hk. induction s as [|c s IH]; intros Hs; [done|].
  cbn [rep_lazy tail] in *. destruct (p c); [|done].
  rewrite Hk.
  - apply IH. destruct s; [apply not_elem_of_nil|].
    by apply not_elem_of_cons in Hs as [_ Hs].
  - destruct s as [|c' s]; [done|]. cbn.
    apply not_elem_of_cons in Hs as [Hne _]. congruence.
Qed.

Lemma lineRe_no_bracket x :
  RBRACKET ∉ drop 4 (rest x) → matcher lineRe x Some = None.
Proof.
  intros Hx. unfold lineRe. rewrite matcher_rseq_cons. cbn [matcher].
  assert (matcher (rseq
            [rlit "- [";
             RGroup 1 (RPlus false (λ c, negb (is_line_terminator c)));
             rlit "](";
             RGroup 2 (RPlus true (λ c, negb (c =? RPAREN)%N));
             RChar RPAREN;
             ROpt (rseq [rlit " - "; RGroup 3 dateRe])]) x Some = None) as ->.
  { rewrite matcher_rseq_cons, matcher_rlit.
    destruct (starts_with (lit "- [") (rest x)); [|done].
    rewrite matcher_rseq_cons. cbn [matcher rest prev caps].
    apply rep_lazy_no_bracket.
    - intros y Hy. rewrite matcher_rseq_cons, matcher_rlit. cbn [rest].
      change (lit "](") with [RBRACKET; LPAREN].
      by rewrite starts_with_head_ne.
    - change (length (lit "- [")) with 3.
      replace (tail (drop 3 (rest x))) with (drop 4 (rest x)); [done|].
      by destruct (rest x) as [|? [|? [|? [|? ?]]]]. }
  by repeat case_match.
Qed.

Lemma elem_of_drop_S {A} (x : A) (n : nat) (l : list A) :
  x ∈ drop (S n) l → x ∈ drop n l.
Proof.
  intros (i & Hi)%list_elem_of_lookup. rewrite lookup_drop in Hi.
  apply list_elem_of_lookup. exists (S i). rewrite lookup_drop.
  by replace (n + S i) with (S n + i) by lia.
Qed.

Lemma exec_no_bracket pv (rs : list N) :
  RBRACKET ∉ drop 4 rs → exec lineRe pv rs = None.
Proof.
  revert pv. induction rs as [|c rs IH]; intros pv Hrs; cbn [exec];
    rewrite lineRe_no_bracket by done; [done|].
  apply IH. intros Hin. apply Hrs. by apply elem_of_drop_S in Hin.
Qed.

Lemma elem_of_drop_take {A} (x : A) (k n : nat) (l : list A) :
  x ∈ drop k (take n l) → x ∈ drop k l.
Proof.
  intros (i & Hi)%list_elem_of_lookup. rewrite lookup_drop in Hi.
  apply lookup_take_Some in Hi as [Hi _].
  apply list_elem_of_lookup. exists i. by rewrite lookup_drop.
Qed.

(** A record with an empty title and no [\]] in its other fields is not
    read back from the section it was rendered into. *)
Lemma parseSection_empty_title (today u d : list N) :
  RBRACKET ∉ u → RBRACKET ∉ d →
  links (parseSection today (renderSection [Link [] u d])) = [].
Proof.
  intros Hu Hd. rewrite renderSection_flat. unfold parseSection.
  rewrite indexOf_head.
  destruct (indexOf MARKER_END _) as [ei|]; [|done].
  destruct (ei <=? 0); [done|]. cbn [links]. unfold slice.
  change (0 + length MARKER_START) with (length MARKER_START).
  rewrite drop_app_length. generalize (ei - length MARKER_START) as n.
  intros n. unfold matchLinks.
  assert (∀ fuel, collect (S fuel) today None
            (take n ((LF :: flat [Link [] u d]) ++ MARKER_END)) = Some [])
    as ->; [|done].
  intros fuel. cbn [collect].
  destruct n as [|n]; cbn [take app]; [by rewrite exec_nil|].
  rewrite exec_skip_LF, exec_no_bracket; [done|].
  intros Hin%elem_of_drop_take. revert Hin.
  cbn [flat]. unfold renderLine. cbn [title url date].
  rewrite <- !(assoc_L (++)).
  change (drop 4 (lit "- [" ++ [] ++ lit "](" ++ ?x)) with (LPAREN :: x).
  change (lit ") - " ++ ?x) with (RPAREN :: SPACE :: DASH :: SPACE :: x).
  rewrite !elem_of_cons, !elem_of_app, !elem_of_cons.
  rewrite !elem_of_app.
  intros [?|[?|[?|[?|[?|[?|[?|[Hin|Hin]]]]]]]]; try done.
  - by apply list_elem_of_singleton in Hin.
  - revert Hin. apply (bool_decide_unpack _). by vm_compute.
Qed.

(** ** The canonicalizer under the laws of the URL interface *)

Section CanonicalizerFacts.
Context {A : URLApi} {L : URLLaws A}.

Lemma stripUTM_addUTM (u owner repo : list N) :
  stripUTM (addUTM u owner repo) = stripUTM u.
Proof.
  unfold addUTM. destruct (URL_new u) as [x|] eqn:Hu; [|done].
  cbn zeta. unfold stripUTM at 1. rewrite new_toString.
  2:{ do 3 apply reach_set. by eapply reach_new. }
  unfold stripUTM. rewrite Hu. cbn zeta. f_equal.
  assert (is_ascii (lit "utm_source")) by decide_by_compute.
  assert (is_ascii (lit "utm_medium")) by decide_by_compute.
  assert (is_ascii (lit "utm_campaign")) by decide_by_compute.
  rewrite (delete_set_ne (lit "utm_source") (lit "utm_campaign")),
    (delete_set_ne (lit "utm_source") (lit "utm_medium")), delete_set
    by first [done | decide_by_compute].
  rewrite (delete_set_ne (lit "utm_medium") (lit "utm_campaign")), delete_set
    by first [done | decide_by_compute].
  by rewrite delete_set.
Qed.

Lemma addUTM_malformed (s owner repo : list N) :
  URL_new s = None → addUTM s owner repo = s.
Proof. intros Hs. unfold addUTM. by rewrite Hs. Qed.

Lemma stripUTM_malformed (s : list N) : URL_new s = None → stripUTM s = s.
Proof. intros Hs. unfold stripUTM. by rewrite Hs. Qed.

End CanonicalizerFacts.

(** ** [PlainURL] meets the laws *)

Module PlainURLFacts.
Import PlainURL.

Lemma without_without k k' l : without k (without k' l) = without k' (without k l).
Proof.
  unfold without. induction l as [|p l IH]; [done|].
  rewrite !filter_cons. repeat case_decide; rewrite ?filter_cons;
    repeat case_decide; try done; by rewrite IH.
Qed.

Lemma without_idemp k l : without k (without k l) = without k l.
Proof.
  unfold without. induction l as [|p l IH]; [done|].
  rewrite !filter_cons. case_decide; rewrite ?filter_cons;
    repeat case_decide; try done; by rewrite IH.
Qed.

Lemma without_set_first k v l : without k (set_first k v l) = without k l.
Proof.
  induction l as [|p l IH]; cbn [set_first].
  - unfold without. rewrite filter_cons. by case_decide.
  - unfold without in *. case_decide as Hp.
    + rewrite !filter_cons. cbn [fst]. repeat case_decide; try done.
      apply without_idemp.
    + rewrite !filter_cons. case_decide; [|done]. by rewrite IH.
Qed.

Lemma without_set_first_ne k k' v l :
  k ≠ k' → without k (set_first k' v l) = set_first k' v (without k l).
Proof.
  intros Hne. induction l as [|p l IH]; cbn [set_first].
  - unfold without. rewrite filter_cons. cbn [fst]. by case_decide.
  - unfold without in *. case_decide as Hp.
    + rewrite !filter_cons. cbn [fst]. rewrite Hp.
      repeat case_decide; try done. cbn [set_first].
      case_decide; [|done]. f_equal. apply without_without.
    + rewrite !filter_cons. case_decide.
      * cbn [set_first]. case_decide; [done|]. by rewrite IH.
      * done.
Qed.

Lemma break_at_sep c a b :
  c ∉ a → break_at c (a ++ c :: b) = (a, Some b).
Proof.
  induction a as [|x a IH]; intros Hc; cbn [app break_at].
  - by rewrite N.eqb_refl.
  - apply not_elem_of_cons in Hc as [Hx Hc].
    replace (x =? c)%N with false by (symmetry; apply N.eqb_neq; congruence).
    by rewrite IH.
Qed.

Lemma break_at_none c a : c ∉ a → break_at c a = (a, None).
Proof.
  induction a as [|x a IH]; intros Hc; cbn [break_at]; [done|].
  apply not_elem_of_cons in Hc as [Hx Hc].
  replace (x =? c)%N with false by (symmetry; apply N.eqb_neq; congruence).
  by rewrite IH.
Qed.

Lemma break_at_fst c s : c ∉ (break_at c s).1.
Proof.
  induction s as [|x s IH]; cbn [break_at]; [apply not_elem_of_nil|].
  destruct (x =? c)%N eqn:Hx; [apply not_elem_of_nil|].
  destruct (break_at c s) as [a b]. cbn [fst] in *.
  apply not_elem_of_cons. split; [|done]. apply N.eqb_neq in Hx. congruence.
Qed.

Lemma esc_clean s : (38%N ∉ esc s) ∧ (61%N ∉ esc s).
Proof.
  induction s as [|c s [IH1 IH2]]; cbn [esc].
  - split; apply not_elem_of_nil.
  - rewrite !not_elem_of_app.
    destruct (c =? 37)%N eqn:H37; [split; (split; [decide_by_compute|done])|].
    destruct (c =? 38)%N eqn:H38; [split; (split; [decide_by_compute|done])|].
    destruct (c =? 61)%N eqn:H61; [split; (split; [decide_by_compute|done])|].
    apply N.eqb_neq in H38, H61.
    split; (split; [|done]); rewrite list_elem_of_singleton; congruence.
Qed.

Lemma unesc_esc s : unesc (esc s) = s.
Proof.
  induction s as [|c s IH]; [done|]. cbn [esc].
  destruct (c =? 37)%N eqn:H37.
  { apply N.eqb_eq in H37 as ->. cbn. by rewrite IH. }
  destruct (c =? 38)%N eqn:H38.
  { apply N.eqb_eq in H38 as ->. cbn. by rewrite IH. }
  destruct (c =? 61)%N eqn:H61.
  { apply N.eqb_eq in H61 as ->. cbn. by rewrite IH. }
  cbn [app unesc]. rewrite H37. cbn [andb]. rewrite IH.
  by destruct (esc s) as [|? [|? ?]].
Qed.

Lemma parse_ser_pair p : parse_pair (ser_pair p) = p.
Proof.
  destruct p as [k v]. unfold parse_pair, ser_pair. cbn [fst snd].
  rewrite break_at_sep by apply esc_clean. cbn [default]. unfold id.
  by rewrite !unesc_esc.
Qed.

Lemma ser_pair_clean p : 38%N ∉ ser_pair p.
Proof.
  unfold ser_pair. rewrite not_elem_of_app, not_elem_of_cons.
  split; [apply esc_clean|]. split; [done|apply esc_clean].
Qed.

Lemma split_on_clean c s : c ∉ s → split_on c s = [s].
Proof.
  induction s as [|x s IH]; intros Hc; cbn [split_on]; [done|].
  apply not_elem_of_cons in Hc as [Hx Hc].
  replace (x =? c)%N with false by (symmetry; apply N.eqb_neq; congruence).
  by rewrite IH.
Qed.

Lemma split_on_app c a s :
  c ∉ a → split_on c (a ++ c :: s) = a :: split_on c s.
Proof.
  induction a as [|x a IH]; intros Hc; cbn [app split_on].
  - by rewrite N.eqb_refl.
  - apply not_elem_of_cons in Hc as [Hx Hc].
    replace (x =? c)%N with false by (symmetry; apply N.eqb_neq; congruence).
    by rewrite IH.
Qed.

Lemma split_on_join c (p : list N) (ps : list (list N)) :
  Forall (λ s, c ∉ s) (p :: ps) → split_on c (join [c] (p :: ps)) = p :: ps.
Proof.
  revert p. induction ps as [|p' ps IH]; intros p Hall.
  - apply Forall_cons in Hall as [Hp _]. by apply split_on_clean.
  - apply Forall_cons in Hall as [Hp Hall].
    change (join [c] (p :: p' :: ps)) with (p ++ c :: join [c] (p' :: ps)).
    rewrite split_on_app by done. by rewrite IH.
Qed.

Lemma parse_query_ser p l : parse_query (ser (p :: l)) = p :: l.
Proof.
  unfold parse_query, ser. cbn [map].
  rewrite split_on_join.
  2:{ change (ser_pair p :: map ser_pair l) with (map ser_pair (p :: l)).
      apply Forall_map, Forall_true, ser_pair_clean. }
  change (ser_pair p :: map ser_pair l) with (map ser_pair (p :: l)).
  generalize (p :: l) as l'. clear. induction l' as [|p l IH]; [done|].
  cbn [map]. rewrite filter_cons. case_decide as Hne.
  - cbn [map]. by rewrite parse_ser_pair, IH.
  - exfalso. revert Hne. unfold ser_pair. by destruct (esc p.1).
Qed.

Lemma reachable_good (u : t) : reachable (H := api) u → good u.
Proof.
  induction 1 as [s u Hnew| |]; [|done..].
  cbn in Hnew. unfold new in Hnew.
  pose proof (break_at_fst 63 s) as Hb.
  destruct (break_at 63 s) as [b q]. cbn [fst] in *.
  destruct (has_scheme b) eqn:Hs; [|done]. by injection Hnew as <-.
Qed.

Lemma new_toString_good (u : t) : good u → new (toString u) = Some u.
Proof.
  intros [Hb Hs]. destruct u as [b l]. cbn [base params] in *.
  unfold toString, new. cbn [base params]. destruct l as [|p l].
  - rewrite (right_id_L [] (++)), break_at_none, Hs by done. done.
  - rewrite break_at_sep, Hs by done. cbn [default]. unfold id.
    by rewrite parse_query_ser.
Qed.

Global Instance laws : URLLaws api.
Proof.
  split.
  - intros k v [b l]. cbn. unfold set, delete. cbn [base params].
    by rewrite without_set_first.
  - intros k k' v [b l] _ _ Hne. cbn. unfold set, delete. cbn [base params].
    by rewrite without_set_first_ne.
  - intros u Hu. apply new_toString_good. by apply reachable_good.
Qed.

End PlainURLFacts.

(** ** The merge step *)

Section MergeFacts.
Context {A : URLApi}.

Lemma elem_of_existingBaseUrls (x : list N) (existingLinks : list link) :
  x ∈ existingBaseUrls existingLinks ↔
  ∃ e, e ∈ existingLinks ∧ x = stripUTM (url e).
Proof.
  unfold existingBaseUrls. rewrite elem_of_list_to_set.
  change (map ?f ?l) with (f <$> l). rewrite list_elem_of_fmap.
  split; intros (e & H1 & H2); exists e; done.
Qed.

Lemma elem_of_dedup (i : link) (freshItems existingLinks : list link) :
  i ∈ dedup freshItems existingLinks ↔
  i ∈ freshItems ∧
  ∀ e, e ∈ existingLinks → stripUTM (url e) ≠ stripUTM (url i).
Proof.
  unfold dedup. rewrite list_elem_of_filter, elem_of_existingBaseUrls.
  split.
  - intros [Hno Hin]. split; [done|]. intros e He Heq. apply Hno. by exists e.
  - intros [Hin Hno]. split; [|done]. intros (e & He & Heq).
    by apply (Hno e He).
Qed.

Lemma dedup_cons (i : link) (freshItems existingLinks : list link) :
  dedup (i :: freshItems) existingLinks
  = (if decide (stripUTM (url i) ∈ existingBaseUrls existingLinks)
     then [] else [i]) ++ dedup freshItems existingLinks.
Proof. unfold dedup. rewrite filter_cons. by repeat case_decide. Qed.

Lemma mergeLinks_Int (cap : nat) (newItems existingLinks : list link) :
  mergeLinks (Int (Z.of_nat cap)) newItems existingLinks
  = (take cap (newItems ++ existingLinks),
     Int (Z.of_nat (length (newItems ++ existingLinks) - cap))).
Proof.
  unfold mergeLinks, length_gt, slice0, length_minus.
  destruct (Z.of_nat cap <? Z.of_nat _)%Z eqn:Hlt.
  - apply Z.ltb_lt in Hlt.
    replace (Z.of_nat cap <? 0)%Z with false by (symmetry; apply Z.ltb_ge; lia).
    rewrite Nat2Z.id. do 2 f_equal. lia.
  - apply Z.ltb_ge in Hlt. rewrite take_ge by lia. do 2 f_equal. lia.
Qed.

End MergeFacts.

(** ** The trace of a run *)

Lemma bind_Some {X Y} (t : list event) (a : X) (k : X → M Y) :
  (((t, Some a) : M X) ≫= k) = (t ++ (k a).1, (k a).2).
Proof. unfold mbind, M_bind. by destruct (k a). Qed.

Lemma bind_ret {X Y} (a : X) (k : X → M Y) : (mret a ≫= k) = k a.
Proof. unfold mret, M_ret, mbind, M_bind. by destruct (k a). Qed.

Lemma bind_emit {Y} (e : event) (k : unit → M Y) :
  (emit e ≫= k) = (e :: (k tt).1, (k tt).2).
Proof. unfold emit, mbind, M_bind. by destruct (k tt). Qed.

Lemma fetchFeeds_quiet (w : world) (rssUrls : list (list N)) :
  ∃ t ls, fetchFeeds w rssUrls = (t, Some ls) ∧ Forall quiet t.
Proof.
  induction rssUrls as [|feedUrl rest (t & ls & IH & Ht)]; cbn [fetchFeeds].
  - by exists [], [].
  - rewrite IH. destruct (w_parseURL w feedUrl) as [|items].
    + eexists _, _. split; [reflexivity|]. cbn. rewrite app_nil_r.
      by repeat constructor.
    + destruct (pushItems w (take 20 items)) as [ls' ok].
      eexists _, _. split; [reflexivity|]. cbn. rewrite app_nil_r.
      repeat constructor; [by destruct ok|done].
Qed.

Section RunFacts.
Context {A : URLApi}.

Lemma gather_quiet (w : world) (t : list event) (g : gathered) :
  gather w = (t, Some g) → Forall quiet t.
Proof.
  unfold gather, getRequired.
  destruct (getInput (w_env w) "rss_urls") as [|c raw]; [done|].
  rewrite bind_ret.
  destruct (getInput (w_env w) "github_token") as [|c' token]; [done|].
  rewrite bind_ret.
  destruct (rssUrlsOf (c :: raw)) as [|u us]; [done|].
  rewrite bind_ret, bind_emit.
  destruct (fetchFeeds_quiet w (u :: us)) as (tf & ls & Hf & Htf).
  rewrite Hf, bind_Some. destruct ls as [|l ls]; [done|].
  rewrite bind_ret.
  destruct (w_exists w _).
  - rewrite !bind_ret. cbn. intros [= <- _]. rewrite app_nil_r.
    by constructor.
  - unfold mbind, M_bind, emit, mret, M_ret. cbn [fst snd app].
    intros [= <- _].
    constructor; [done|]. apply Forall_app. split; [done|].
    by repeat constructor.
Qed.

Lemma run_no_change (w : world) (t : list event) (g : gathered) :
  gather w = (t, Some g) →
  dedup (g_freshItems g) (links (g_parsed g)) = [] →
  run w = t ++ [EvInfo; EvSetOutput (lit "pr_url") [];
                EvSetOutput (lit "new_items_count") (lit "0")].
Proof.
  intros Hg Hnew. unfold run, run_steps. rewrite Hg, bind_Some, Hnew. done.
Qed.

End RunFacts.

Lemma quiet_outputs (t : list event) : Forall quiet t → outputs t = [].
Proof.
  induction 1 as [|e t He _ IH]; [done|]. cbn [outputs flat_map].
  fold (outputs t). rewrite IH. by destruct e.
Qed.

Lemma quiet_written (t : list event) : Forall quiet t → written t = [].
Proof.
  induction 1 as [|e t He _ IH]; [done|]. cbn [written flat_map].
  fold (written t). rewrite IH. by destruct e.
Qed.

Lemma quiet_harmless (t : list event) :
  Forall quiet t → Forall (λ e, ¬ is_action e ∧ ¬ is_failure e) t.
Proof.
  intros Ht. eapply Forall_impl; [exact Ht|].
  intros [] Hq; cbn in *; tauto.
Qed.

Lemma outputs_app (t1 t2 : list event) :
  outputs (t1 ++ t2) = outputs t1 ++ outputs t2.
Proof. apply flat_map_app. Qed.

Lemma written_app (t1 t2 : list event) :
  written (t1 ++ t2) = written t1 ++ written t2.
Proof. apply flat_map_app. Qed.

Section PublishFacts.
Context {A : URLApi}.

Lemma publish_outputs (w : world) (g : gathered) (newItems : list link) :
  outputs (publish w g newItems).1
  = [(lit "pr_url", w_pr_html_url w);
     (lit "new_items_count", String_of_nat (length newItems))].
Proof.
  unfold publish.
  destruct (mergeLinks _ _ _) as [allLinks removedCount].
  destruct (length_gt _ _), (w_exists w _); reflexivity.
Qed.

Lemma publish_written (w : world) (g : gathered) (newItems : list link) :
  written (publish w g newItems).1
  = [(g_filePath g,
      before (g_parsed g) ++
      renderSection (mergeLinks (g_maxLinks g) newItems
                                (links (g_parsed g))).1 ++
      after (g_parsed g))].
Proof.
  unfold publish.
  destruct (mergeLinks _ _ _) as [allLinks removedCount].
  destruct (length_gt _ _), (w_exists w _); reflexivity.
Qed.

Lemma run_publish (w : world) (t : list event) (g : gathered) :
  gather w = (t, Some g) →
  dedup (g_freshItems g) (links (g_parsed g)) ≠ [] →
  run w = t ++ (publish w g (dedup (g_freshItems g) (links (g_parsed g)))).1.
Proof.
  intros Hg Hnew. unfold run, run_steps. rewrite Hg, bind_Some.
  by destruct (dedup _ _).
Qed.

End PublishFacts.

(** * The claims *)

(** ** The codec *)

Lemma sample_entries_wf : Forall wf_link [Sample.e1; Sample.e2].
Proof.
  repeat constructor; try done; try decide_by_compute.
Qed.

(** C1, as stated, fails: [Sample.paren] has a title without brackets and a
    valid date, yet the section rendered from it is not read back as it
    was written, because the pattern stops the URL at its first closing
    parenthesis. *)
Lemma roundtrip_paren_url_counterexample :
  Forall (λ c, c ≠ LBRACKET ∧ c ≠ RBRACKET) (title Sample.paren) ∧
  is_iso_date (date Sample.paren) = true ∧
  links (parseSection Sample.today0 (renderSection [Sample.paren]))
  ≠ [Sample.paren].
Proof.
  split; [decide_by_compute|]. split; [reflexivity|]. decide_by_compute.
Qed.

(** Each further bound of [wf_link] is needed: an empty title, a line
    terminator in the title, the end marker in the title, an empty URL and
    the end marker in the URL each make a record that is not read back. *)
Lemma wf_link_bounds_needed :
  let back l := links (parseSection Sample.today0 (renderSection [l])) in
  back (Link [] (lit "https://x.com/a") (lit "2024-01-02")) = [] ∧
  back (Link (lit "a" ++ [LF] ++ lit "b") (lit "https://x.com/a")
             (lit "2024-01-02")) = [] ∧
  back (Link (lit "a " ++ MARKER_END) (lit "https://x.com/a")
             (lit "2024-01-02")) = [] ∧
  back (Link (lit "a") [] (lit "2024-01-02")) = [] ∧
  back (Link (lit "a") (lit "https://x.com/" ++ MARKER_END)
             (lit "2024-01-02")) = [].
Proof. cbn zeta. repeat split; by vm_compute. Qed.

(** C1, amended: for every entries list whose records are well formed in
    the sense of [wf_link] (a non-empty title without a closing bracket,
    without line terminator and without the end marker; a non-empty URL
    without a closing parenthesis and without the end marker; a date of the
    form YYYY-MM-DD), parsing the document produced by serializing the
    list yields exactly the same list, re-serializing it yields the same
    managed section, and the same holds inside any document whose text
    before the section holds no marker, with that text and the text after
    the section returned untouched. *)
Theorem roundtrip_well_formed (today : list N) (entries : list link) :
  Forall wf_link entries →
  links (parseSection today (renderSection entries)) = entries ∧
  renderSection (links (parseSection today (renderSection entries)))
  = renderSection entries ∧
  ∀ pre post,
    indexOf MARKER_START pre = None → indexOf MARKER_END pre = None →
    parseSection today (pre ++ renderSection entries ++ post)
    = Section_ pre post entries.
Proof.
  intros Hwf.
  assert (links (parseSection today (renderSection entries)) = entries) as Hl.
  { pose proof (parseSection_rendered today [] [] entries Hwf) as Hp.
    cbn [app] in Hp. rewrite app_nil_r in Hp. by rewrite Hp. }
  split; [done|]. split; [by rewrite Hl|].
  intros pre post Hs He. by apply parseSection_rendered.
Qed.

Lemma roundtrip_well_formed_witness :
  links (parseSection Sample.today0 (renderSection [Sample.e1; Sample.e2]))
  = [Sample.e1; Sample.e2].
Proof.
  exact (proj1 (roundtrip_well_formed Sample.today0 [Sample.e1; Sample.e2]
                  sample_entries_wf)).
Defined.

(** A document with its section in place: prefix, entries and suffix come
    back as they are. *)
Example parseSection_sample :
  parseSection Sample.today0 (Sample.file_with [Sample.e1; Sample.e2])
  = Section_ (lit "# RSS Links" ++ [LF; LF]) [LF] [Sample.e1; Sample.e2].
Proof. by vm_compute. Qed.

(** C2, as stated, fails: in [Sample.stray_end], of the form
    END START body END, the parser does not take the text between the start
    marker and the end marker that follows it; it answers as if no marker
    were there, although that text holds a well-formed line. *)
Lemma end_before_start_counterexample :
  parseSection Sample.today0 Sample.stray_end = fallback Sample.stray_end ∧
  links (parseSection Sample.today0 Sample.stray_end) = [] ∧
  matchLinks Sample.today0 Sample.stray_body = [Sample.e1].
Proof. split; [|split]; by vm_compute. Qed.

(** C2, amended: the parser locates the managed section exactly when both
    markers occur and the first occurrence of the start marker lies before
    the first occurrence of the end marker in the whole document.  Then the
    document is prefix, start marker, body, end marker, suffix, with no
    start marker beginning before the one used and no end marker beginning
    before the one used, so the end marker used is also the first one after
    the start marker.  In every other case, and in particular for a
    document that opens with an end marker (END...START...body...END), the
    parser takes the marker-absent fallback. *)
Theorem parseSection_markers (today content : list N) :
  match indexOf MARKER_START content, indexOf MARKER_END content with
  | Some si, Some ei =>
      if decide (si < ei) then
        ∃ body,
          content = before (parseSection today content) ++ MARKER_START ++
                    body ++ MARKER_END ++ after (parseSection today content) ∧
          length (before (parseSection today content)) = si ∧
          si + length MARKER_START + length body = ei ∧
          links (parseSection today content) = matchLinks today body ∧
          (∀ j, j < si → starts_with MARKER_START (drop j content) = false) ∧
          (∀ j, j < ei → starts_with MARKER_END (drop j content) = false)
      else parseSection today content = fallback content
  | _, _ => parseSection today content = fallback content
  end ∧
  ∀ rest, parseSection today (MARKER_END ++ rest) = fallback (MARKER_END ++ rest).
Proof.
  split.
  - destruct (indexOf MARKER_START content) as [si|] eqn:Hs;
      [|apply parseSection_fallback; congruence].
    destruct (indexOf MARKER_END content) as [ei|] eqn:He;
      [|apply parseSection_fallback; congruence].
    case_decide as Hlt.
    + destruct (parseSection_located today content si ei Hs He Hlt)
        as (body & H1 & H2 & H3 & H4).
      exists body. repeat split; try done.
      * by apply indexOf_first in Hs as [_ Hs].
      * by apply indexOf_first in He as [_ He].
    + apply parseSection_fallback. intros si' ei' Hs' He'.
      rewrite Hs in Hs'. rewrite He in He'. simplify_eq. lia.
  - intros rest. apply parseSection_fallback. intros si ei _ He.
    rewrite indexOf_head in He. simplify_eq. lia.
Qed.

(** C3, as stated, fails on the empty list: the two markers come out on
    adjacent lines, one newline apart, not with a blank line between them. *)
Lemma renderSection_empty_counterexample :
  renderSection [] ≠ MARKER_START ++ [LF] ++ [] ++ [LF] ++ MARKER_END.
Proof. decide_by_compute. Qed.

(** C3, amended: serializing the empty entries list yields the start
    marker, one newline and the end marker; serializing a non-empty list
    renders each record as [- [title](url) - date], joins the lines with
    newlines, wraps them with a leading and a trailing newline and encloses
    the result between the two markers. *)
Theorem renderSection_shape :
  renderSection [] = MARKER_START ++ [LF] ++ MARKER_END ∧
  (∀ l ls,
     renderSection (l :: ls)
     = MARKER_START ++ [LF] ++ join [LF] (map renderLine (l :: ls)) ++ [LF] ++
       MARKER_END) ∧
  (∀ l, renderLine l
        = lit "- [" ++ title l ++ lit "](" ++ url l ++ lit ") - " ++ date l) ∧
  (∀ a b ls, join [LF] (a :: b :: ls) = a ++ [LF] ++ join [LF] (b :: ls)) ∧
  (∀ a, join [LF] [a] = a) ∧
  MARKER_START = lit "<!-- rss-action:start -->" ∧
  MARKER_END = lit "<!-- rss-action:end -->".
Proof.
  repeat split; try done.
  intros l ls. unfold renderSection. cbn [map].
  by rewrite <- !(assoc_L (++)).
Qed.

(** C10: the title ["[ ]"] is sanitised to the empty string, not to the
    placeholder; the record made of it renders as [- [](url) - date]; the
    line pattern finds no match in that line; and the section rendered
    from the record is read back with no entry at all.  The URL and the
    date are any texts without a closing bracket. *)
Theorem bracket_only_title_dropped (today u d : list N) :
  RBRACKET ∉ u → RBRACKET ∉ d →
  sanitiseTitle (Some (lit "[ ]")) = [] ∧
  sanitiseTitle (Some (lit "[ ]")) ≠ lit "Untitled" ∧
  renderLine (Link (sanitiseTitle (Some (lit "[ ]"))) u d)
  = lit "- [](" ++ u ++ lit ") - " ++ d ∧
  exec lineRe (Some LF)
       (renderLine (Link (sanitiseTitle (Some (lit "[ ]"))) u d) ++ [LF])
  = None ∧
  links (parseSection today
           (renderSection [Link (sanitiseTitle (Some (lit "[ ]"))) u d]))
  = [].
Proof.
  intros Hu Hd.
  assert (sanitiseTitle (Some (lit "[ ]")) = []) as -> by by vm_compute.
  split; [done|]. split; [done|]. split; [done|].
  split; [|by apply parseSection_empty_title].
  apply exec_no_bracket. unfold renderLine. cbn [title url date].
  rewrite <- !(assoc_L (++)).
  change (drop 4 (lit "- [" ++ [] ++ lit "](" ++ ?x)) with (LPAREN :: x).
  change (lit ") - " ++ ?x) with (RPAREN :: SPACE :: DASH :: SPACE :: x).
  rewrite !elem_of_cons, !elem_of_app, !elem_of_cons, elem_of_app,
    list_elem_of_singleton.
  intros [?|[?|[?|[?|[?|[?|[?|?]]]]]]]; done.
Qed.

Lemma bracket_only_title_dropped_witness :
  links (parseSection Sample.today0
           (renderSection [Link (sanitiseTitle (Some (lit "[ ]")))
                                (lit "https://x.com/a") (lit "2024-01-02")]))
  = [].
Proof.
  apply (bracket_only_title_dropped Sample.today0 (lit "https://x.com/a")
           (lit "2024-01-02")); decide_by_compute.
Defined.

(** ** The canonicalizer *)

(** C4: under the laws of the URL interface, for every URL [u] (valid or
    not) and every owner and repo tag, canonicalizing the decorated URL
    gives what canonicalizing [u] gives; so two decorations of [u], under
    whatever tags, have the same canonical form.  On a valid [u] the
    decoration is three [set]s and the canonicalization three [delete]s on
    the object parsed from [u], under the names [utm_source], [utm_medium]
    and [utm_campaign] and no other. *)
Theorem canonicalize_decorate {A : URLApi} {L : URLLaws A}
    (u owner repo : list N) :
  stripUTM (addUTM u owner repo) = stripUTM u ∧
  (∀ owner' repo',
     stripUTM (addUTM u owner repo) = stripUTM (addUTM u owner' repo')) ∧
  (∀ x, URL_new u = Some x →
     addUTM u owner repo
     = URL_toString
         (searchParams_set (lit "utm_campaign") repo
            (searchParams_set (lit "utm_medium") owner
               (searchParams_set (lit "utm_source") (lit "github") x))) ∧
     stripUTM u
     = URL_toString
         (searchParams_delete (lit "utm_campaign")
            (searchParams_delete (lit "utm_medium")
               (searchParams_delete (lit "utm_source") x)))).
Proof.
  split; [apply stripUTM_addUTM|]. split.
  - intros owner' repo'. by rewrite !stripUTM_addUTM.
  - intros x Hx. unfold addUTM, stripUTM. by rewrite Hx.
Qed.

Lemma canonicalize_decorate_witness :
  stripUTM (A := PlainURL.api)
    (addUTM (lit "https://x.com/a?b=c&utm_medium=old") (lit "o") (lit "r"))
  = stripUTM (lit "https://x.com/a?b=c&utm_medium=old").
Proof.
  apply (proj1 (canonicalize_decorate (L := PlainURLFacts.laws) _ _ _)).
Defined.

(** C8: a string that [new URL] rejects is returned unchanged by the
    decoration and by the canonicalization; both are total functions, so
    neither raises. *)
Theorem malformed_unchanged {A : URLApi} (s owner repo : list N) :
  URL_new s = None →
  addUTM s owner repo = s ∧ stripUTM s = s.
Proof.
  intros Hs. split; [by apply addUTM_malformed|by apply stripUTM_malformed].
Qed.

Lemma malformed_unchanged_witness :
  addUTM (A := PlainURL.api) (lit "not a url") (lit "o") (lit "r")
  = lit "not a url" ∧
  stripUTM (A := PlainURL.api) (lit "not a url") = lit "not a url".
Proof.
  apply (malformed_unchanged (A := PlainURL.api)). reflexivity.
Defined.

(** ** The merge *)

(** C6: the merge keeps exactly the fresh items whose canonical URL is not
    the canonical URL of an existing entry, in their order; each fresh
    item is judged on its own, so a fresh item is never dropped because of
    another fresh item; and a fresh item whose URL is the base URL of an
    existing decorated entry, decorated or not, is filtered out. *)
Theorem dedup_against_existing {A : URLApi} {L : URLLaws A}
    (freshItems existingLinks : list link) :
  (∀ i, i ∈ dedup freshItems existingLinks ↔
        i ∈ freshItems ∧
        ∀ e, e ∈ existingLinks → stripUTM (url e) ≠ stripUTM (url i)) ∧
  dedup freshItems existingLinks `sublist_of` freshItems ∧
  (∀ i, dedup (i :: freshItems) existingLinks
        = dedup [i] existingLinks ++ dedup freshItems existingLinks) ∧
  (∀ i, (∀ e, e ∈ existingLinks → stripUTM (url e) ≠ stripUTM (url i)) →
        dedup [i; i] existingLinks = [i; i]) ∧
  (∀ i e base owner repo owner' repo',
     e ∈ existingLinks → url e = addUTM base owner repo →
     url i = base ∨ url i = addUTM base owner' repo' →
     i ∉ dedup freshItems existingLinks).
Proof.
  split; [intros i; apply elem_of_dedup|].
  split; [apply sublist_filter|].
  split; [intros i; by rewrite dedup_cons, (dedup_cons i []), app_nil_r|].
  split.
  - intros i Hi. rewrite !dedup_cons. cbn [dedup filter list_filter app].
    case_decide as Hin; [|done].
    apply elem_of_existingBaseUrls in Hin as (e & He & Heq).
    by destruct (Hi e He).
  - intros i e base owner repo owner' repo' He Hurl Hi
      [_ Hno]%elem_of_dedup.
    apply (Hno e He). rewrite Hurl, stripUTM_addUTM.
    destruct Hi as [->| ->]; [done|]. by rewrite stripUTM_addUTM.
Qed.

Lemma dedup_against_existing_witness :
  Link (lit "A") (lit "https://x.com/a") (lit "2024-01-02")
  ∉ dedup (A := PlainURL.api)
      [Link (lit "A") (lit "https://x.com/a") (lit "2024-01-02")]
      [Link (lit "A")
            (lit "https://x.com/a?utm_source=github&utm_medium=o&utm_campaign=r")
            (lit "2024-01-01")].
Proof.
  refine (proj2 (proj2 (proj2 (proj2
            (dedup_against_existing (L := PlainURLFacts.laws) _ _))))
            _ _ (lit "https://x.com/a") (lit "o") (lit "r") [] [] _ _ _);
    [apply list_elem_of_singleton; reflexivity | by vm_compute | by left].
Defined.

(** C5: for every cap and all lists of fresh items and existing entries,
    the merge puts the deduplicated new items in front of the existing
    entries and keeps the first [cap] of them; the number it reports as
    removed is the number of entries beyond the cap (none when the list
    fits), and the entries left out are the tail of the concatenation.
    With existing [a; b; c], new [d; e; f; g] and cap 5 the result is
    [d; e; f; g; a] with 2 removed.  A run that reaches the merge with
    these lists writes the section rendered from the result and reports
    the number of new items as [new_items_count]. *)
Theorem merge_cap {A : URLApi} (cap : nat)
    (freshItems existingLinks : list link) :
  let newItems := dedup freshItems existingLinks in
  let final := (mergeLinks (Int (Z.of_nat cap)) newItems existingLinks).1 in
  let evicted := (mergeLinks (Int (Z.of_nat cap)) newItems existingLinks).2 in
  final = take cap (newItems ++ existingLinks) ∧
  evicted = Int (Z.of_nat (length (newItems ++ existingLinks) - cap)) ∧
  (length (newItems ++ existingLinks) ≤ cap →
   final = newItems ++ existingLinks ∧ evicted = Int 0) ∧
  length final ≤ cap ∧
  final ++ drop cap (newItems ++ existingLinks) = newItems ++ existingLinks ∧
  (∀ a b c d e f g : link,
     mergeLinks (Int 5) [d; e; f; g] [a; b; c] = ([d; e; f; g; a], Int 2)) ∧
  (∀ w t g,
     gather w = (t, Some g) →
     g_freshItems g = freshItems → links (g_parsed g) = existingLinks →
     g_maxLinks g = Int (Z.of_nat cap) → newItems ≠ [] →
     outputs (run w)
     = [(lit "pr_url", w_pr_html_url w);
        (lit "new_items_count", String_of_nat (length newItems))] ∧
     written (run w)
     = [(g_filePath g,
         before (g_parsed g) ++ renderSection final ++ after (g_parsed g))]).
Proof.
  cbn zeta. rewrite mergeLinks_Int. cbn [fst snd].
  split; [done|]. split; [done|].
  split; [intros Hle; split; [by rewrite take_ge|do 2 f_equal; lia]|].
  split; [rewrite length_take; lia|]. split; [apply take_drop|].
  split; [done|].
  intros w t g Hg Hf He Hm Hnew. subst freshItems existingLinks.
  rewrite (run_publish w t g Hg Hnew), outputs_app, written_app.
  rewrite quiet_outputs, quiet_written by by eapply gather_quiet.
  rewrite publish_outputs, publish_written, Hm, mergeLinks_Int. done.
Qed.

Lemma merge_cap_witness :
  outputs (run (A := PlainURL.api) Sample.w_cap)
  = [(lit "pr_url", lit "https://github.com/o/r/pull/7");
     (lit "new_items_count", lit "4")] ∧
  written (run (A := PlainURL.api) Sample.w_cap)
  = [(lit "/repo/links.md",
      Sample.file_with
        (Sample.cap_fresh ++ [Sample.mk_link "A"]))].
Proof.
  destruct (merge_cap (A := PlainURL.api) 5 Sample.cap_fresh
              Sample.cap_existing) as (_ & _ & _ & _ & _ & _ & Hrun).
  edestruct (Hrun Sample.w_cap) as [Ho Hw];
    [vm_compute; reflexivity | vm_compute; reflexivity
    | vm_compute; reflexivity | vm_compute; reflexivity
    | decide_by_compute | ].
  split; [exact Ho | exact Hw].
Defined.

(** C7, on the code: when [max_links] is set to a text that does not start
    with a number, such as "abc", the cap is [NaN]; with that cap the merge
    removes nothing, however long the list, and the run of [Sample.w_nan]
    writes twelve links.  When the input is absent or empty the cap is 10,
    and whenever the cap is a number it is at least 1. *)
Theorem max_links_not_a_number :
  maxLinksOf (Sample.env_of [("max_links", "abc")]%string) = NaN ∧
  (∀ (A : URLApi) newItems existingLinks,
     mergeLinks NaN newItems existingLinks
     = (newItems ++ existingLinks, Int 0)) ∧
  (∃ content,
     written (run (A := PlainURL.api) Sample.w_nan)
     = [(lit "/repo/links.md", content)] ∧
     length (links (parseSection Sample.today0 content)) = 12) ∧
  (∀ env, getInput env "max_links" = [] → maxLinksOf env = Int 10) ∧
  (∀ env z, maxLinksOf env = Int z → (1 ≤ z)%Z).
Proof.
  split; [by vm_compute|]. split; [done|]. split; [|split].
  - eexists. split; [by vm_compute|]. by vm_compute.
  - intros env Hin. unfold maxLinksOf. by rewrite Hin.
  - intros env z. unfold maxLinksOf, max1.
    destruct (parseInt10 _); [done|]. intros [= <-]. lia.
Qed.

(** ** The run *)

(** C9: a run that reaches the deduplication and is left with no new item
    ends without failure, writes no file, creates no directory, runs no
    git command and opens no pull request; the outputs it sets are
    [pr_url], to the empty string, and [new_items_count], to "0". *)
Theorem run_without_new_items {A : URLApi} (w : world) (t : list event)
    (g : gathered) :
  gather w = (t, Some g) →
  dedup (g_freshItems g) (links (g_parsed g)) = [] →
  Forall (λ e, ¬ is_action e ∧ ¬ is_failure e) (run w) ∧
  written (run w) = [] ∧
  outputs (run w) = [(lit "pr_url", []); (lit "new_items_count", lit "0")].
Proof.
  intros Hg Hnew. rewrite (run_no_change w t g Hg Hnew).
  pose proof (gather_quiet w t g Hg) as Hq.
  split; [|split].
  - apply Forall_app. split; [by apply quiet_harmless|].
    repeat constructor; cbn; tauto.
  - by rewrite written_app, quiet_written.
  - by rewrite outputs_app, quiet_outputs.
Qed.

Lemma run_without_new_items_witness :
  written (run (A := PlainURL.api) Sample.w_same) = [] ∧
  outputs (run (A := PlainURL.api) Sample.w_same)
  = [(lit "pr_url", []); (lit "new_items_count", lit "0")].
Proof.
  edestruct (run_without_new_items (A := PlainURL.api) Sample.w_same)
    as (_ & Hw & Ho);
    [vm_compute; reflexivity | vm_compute; reflexivity | ].
  split; [exact Hw | exact Ho].
Defined.

(** * Further properties *)

(** ** Trimming *)

Lemma trimStart_split (s : list N) :
  ∃ a, s = a ++ trimStart s ∧ Forall (λ c, is_space c = true) a.
Proof.
  induction s as [|c s (a & Hs & Ha)]; [by exists []|].
  cbn [trimStart]. destruct (is_space c) eqn:Hc; [|by exists []].
  exists (c :: a). split; [by rewrite Hs at 1|by constructor].
Qed.

Lemma trimStart_head (s : list N) (c : N) :
  head (trimStart s) = Some c → is_space c = false.
Proof.
  induction s as [|x s IH]; [done|]. cbn [trimStart].
  destruct (is_space x) eqn:Hx; [done|]. by intros [= <-].
Qed.

Lemma trimStart_id (s : list N) :
  (∀ c, head s = Some c → is_space c = false) → trimStart s = s.
Proof. destruct s as [|c s]; [done|]. intros H. cbn. by rewrite (H c). Qed.

Lemma trimStart_nil (s : list N) :
  trimStart s = [] ↔ Forall (λ c, is_space c = true) s.
Proof.
  induction s as [|c s IH]; [done|]. cbn [trimStart].
  destruct (is_space c) eqn:Hc.
  - rewrite IH. split; [by constructor|by intros [_ ?]%Forall_cons].
  - split; [done|]. intros [? _]%Forall_cons. congruence.
Qed.

Lemma trimEnd_split (s : list N) :
  ∃ b, s = trimEnd s ++ b ∧ Forall (λ c, is_space c = true) b.
Proof.
  unfold trimEnd. destruct (trimStart_split (rev s)) as (a & Hs & Ha).
  exists (rev a). split; [|by apply Forall_rev].
  rewrite <- rev_app_distr, <- Hs. by rewrite rev_involutive.
Qed.

Lemma trimEnd_last (s : list N) (c : N) :
  last (trimEnd s) = Some c → is_space c = false.
Proof.
  unfold trimEnd. intros Hl. apply (trimStart_head (rev s)).
  destruct (trimStart (rev s)) as [|x t]; [done|].
  cbn [rev] in Hl. by rewrite last_snoc in Hl.
Qed.

Lemma trimEnd_id (s : list N) :
  (∀ c, last s = Some c → is_space c = false) → trimEnd s = s.
Proof.
  intros H. unfold trimEnd. rewrite trimStart_id; [apply rev_involutive|].
  intros c Hc. apply H. rewrite <- (rev_involutive s).
  destruct (rev s) as [|x t]; [done|]. cbn [rev head] in *.
  by rewrite last_snoc.
Qed.

Lemma trimEnd_nil (s : list N) :
  trimEnd s = [] ↔ Forall (λ c, is_space c = true) s.
Proof.
  unfold trimEnd. split.
  - intros H. apply (f_equal (@rev N)) in H. rewrite rev_involutive in H.
    cbn in H. apply trimStart_nil in H. apply Forall_rev in H.
    by rewrite rev_involutive in H.
  - intros H. apply Forall_rev in H. apply trimStart_nil in H. by rewrite H.
Qed.

Lemma trimEnd_head (s : list N) (c : N) :
  head s = Some c → is_space c = false → head (trimEnd s) = Some c.
Proof.
  intros Hh Hc. destruct (trimEnd_split s) as (b & Hs & Hb).
  destruct (trimEnd s) as [|x t] eqn:Ht.
  - cbn in Hs. subst b. destruct s as [|y s]; [done|].
    apply Forall_cons in Hb as [Hy _]. cbn in Hh. congruence.
  - rewrite Hs in Hh. done.
Qed.

Lemma trim_split (s : list N) :
  ∃ a b, s = a ++ trim s ++ b ∧
         Forall (λ c, is_space c = true) a ∧ Forall (λ c, is_space c = true) b.
Proof.
  unfold trim. destruct (trimStart_split s) as (a & Hs & Ha).
  destruct (trimEnd_split (trimStart s)) as (b & Ht & Hb).
  exists a, b. split; [|done]. by rewrite <- Ht.
Qed.

Lemma trim_head (s : list N) (c : N) :
  head (trim s) = Some c → is_space c = false.
Proof.
  unfold trim. intros Hh.
  destruct (trimEnd_split (trimStart s)) as (b & Ht & Hb).
  apply (trimStart_head s). rewrite Ht.
  destruct (trimEnd (trimStart s)); [done|]. done.
Qed.

Lemma trim_last (s : list N) (c : N) :
  last (trim s) = Some c → is_space c = false.
Proof. apply trimEnd_last. Qed.

Lemma trim_nil (s : list N) :
  trim s = [] ↔ Forall (λ c, is_space c = true) s.
Proof.
  unfold trim. rewrite trimEnd_nil.
  destruct (trimStart_split s) as (a & Hs & Ha). split.
  - intros H. rewrite Hs. by apply Forall_app.
  - intros H. rewrite Hs in H. by apply Forall_app in H as [_ ?].
Qed.

Lemma trim_id (s : list N) :
  (∀ c, head s = Some c → is_space c = false) →
  (∀ c, last s = Some c → is_space c = false) → trim s = s.
Proof. intros Hh Hl. unfold trim. by rewrite trimStart_id, trimEnd_id. Qed.

(** ** The title sanitiser *)

Lemma is_space_SPACE : is_space SPACE = true.
Proof. reflexivity. Qed.

Lemma collapse_spaces_tidy (s : list N) (b : bool) :
  tidy (collapse_spaces b s) ∧
  (b = true → ∀ c, head (collapse_spaces b s) = Some c → is_space c = false).
Proof.
  revert b. induction s as [|x s IH]; intros b; [done|].
  cbn [collapse_spaces]. destruct (is_space x) eqn:Hx.
  - destruct b; [apply IH|]. split; [|done]. cbn [tidy]. split; [|apply IH].
    intros _. split; [done|]. by apply IH.
  - split; [|intros _ c [= <-]; done]. cbn [tidy]. split; [|apply IH].
    congruence.
Qed.

Lemma collapse_spaces_elem (s : list N) (b : bool) (c : N) :
  c ∈ collapse_spaces b s → c = SPACE ∨ (c ∈ s ∧ is_space c = false).
Proof.
  revert b. induction s as [|x s IH]; intros b; [by intros ?%elem_of_nil|].
  cbn [collapse_spaces]. destruct (is_space x) eqn:Hx.
  - destruct b.
    + intros [?|[? ?]]%IH; [by left|right]. split; [by right|done].
    + intros [->|[?|[? ?]]%IH]%elem_of_cons; [by left|by left|right].
      split; [by right|done].
  - intros [->|[?|[? ?]]%IH]%elem_of_cons; [right|by left|right].
    + split; [by left|done].
    + split; [by right|done].
Qed.

Lemma collapse_spaces_all_space (s : list N) (b : bool) :
  Forall (λ c, is_space c = true) (collapse_spaces b s) ↔
  Forall (λ c, is_space c = true) s.
Proof.
  revert b. induction s as [|x s IH]; intros b; [done|].
  cbn [collapse_spaces]. destruct (is_space x) eqn:Hx.
  - destruct b; rewrite ?Forall_cons, IH; rewrite ?Forall_cons; tauto.
  - rewrite !Forall_cons. split; intros [? _]; congruence.
Qed.

Lemma collapse_spaces_id (s : list N) :
  tidy s →
  collapse_spaces false s = s ∧
  ((∀ c, head s = Some c → is_space c = false) → collapse_spaces true s = s).
Proof.
  induction s as [|x s IH]; [done|]. cbn [tidy collapse_spaces].
  intros [Hx Hs]. destruct (IH Hs) as [IH1 IH2].
  destruct (is_space x) eqn:Hsp.
  - destruct (Hx eq_refl) as [-> Hnext]. split.
    + by rewrite IH2.
    + intros H. by specialize (H SPACE eq_refl).
  - by rewrite IH1.
Qed.

Lemma tidy_app (a b : list N) : tidy (a ++ b) → tidy a ∧ tidy b.
Proof.
  induction a as [|x a IH]; [done|]. cbn [app tidy]. intros [Hx Hab].
  destruct (IH Hab) as [Ha Hb]. split; [|done]. split; [|done].
  intros Hsp. destruct (Hx Hsp) as [-> Hnext]. split; [done|].
  intros c Hc. apply Hnext. by destruct a.
Qed.

Lemma tidy_units (s : list N) :
  tidy s → Forall (λ c, is_space c = true → c = SPACE) s.
Proof.
  induction s as [|x s IH]; [done|]. intros [Hx Hs]. constructor; [|by apply IH].
  intros Hsp. by destruct (Hx Hsp).
Qed.

Lemma tidy_no_double (s a b : list N) : tidy s → s ≠ a ++ SPACE :: SPACE :: b.
Proof.
  intros Hs ->. apply tidy_app in Hs as [_ Hs]. cbn in Hs.
  destruct Hs as [Hx _]. destruct (Hx eq_refl) as [_ Hnext].
  by specialize (Hnext SPACE eq_refl).
Qed.

(** The text of a title before the final trim. *)
Lemma sanitiseTitle_unfold (raw : option (list N)) :
  sanitiseTitle raw
  = trim (collapse_spaces false
            (filter (λ c, c ≠ LBRACKET ∧ c ≠ RBRACKET)
                    (or_else raw (lit "Untitled")))).
Proof. reflexivity. Qed.

Lemma sanitiseTitle_tidy (raw : option (list N)) : tidy (sanitiseTitle raw).
Proof.
  rewrite sanitiseTitle_unfold.
  match goal with |- tidy (trim ?u) =>
    destruct (trim_split u) as (a & b & Hu & _ & _);
    pose proof (proj1 (collapse_spaces_tidy _ false : tidy u ∧ _)) as Ht end.
  rewrite Hu in Ht. apply tidy_app in Ht as [_ Ht]. by apply tidy_app in Ht as [Ht _].
Qed.

Lemma sanitiseTitle_elem (raw : option (list N)) (c : N) :
  c ∈ sanitiseTitle raw →
  c ≠ LBRACKET ∧ c ≠ RBRACKET ∧ (is_space c = true → c = SPACE).
Proof.
  intros Hc. split; [|split].
  - revert Hc. rewrite sanitiseTitle_unfold.
    match goal with |- _ ∈ trim ?u → _ =>
      destruct (trim_split u) as (a & b & Hu & _ & _) end.
    intros Hc.
    assert (c ∈ collapse_spaces false
              (filter (λ c, c ≠ LBRACKET ∧ c ≠ RBRACKET)
                      (or_else raw (lit "Untitled")))) as Hin.
    { rewrite Hu. rewrite !elem_of_app. tauto. }
    apply collapse_spaces_elem in Hin as [->|[Hin _]]; [done|].
    by apply list_elem_of_filter in Hin as [[? ?] _].
  - revert Hc. rewrite sanitiseTitle_unfold.
    match goal with |- _ ∈ trim ?u → _ =>
      destruct (trim_split u) as (a & b & Hu & _ & _) end.
    intros Hc.
    assert (c ∈ collapse_spaces false
              (filter (λ c, c ≠ LBRACKET ∧ c ≠ RBRACKET)
                      (or_else raw (lit "Untitled")))) as Hin.
    { rewrite Hu. rewrite !elem_of_app. tauto. }
    apply collapse_spaces_elem in Hin as [->|[Hin _]]; [done|].
    by apply list_elem_of_filter in Hin as [[? ?] _].
  - pose proof (tidy_units _ (sanitiseTitle_tidy raw)) as Hall.
    rewrite Forall_forall in Hall. by apply Hall.
Qed.

Lemma sanitiseTitle_lines (raw : option (list N)) :
  Forall (λ c, is_line_terminator c = false) (sanitiseTitle raw).
Proof.
  apply Forall_forall. intros c (_ & _ & Hc)%sanitiseTitle_elem.
  destruct (is_line_terminator c) eqn:Hlt; [|done].
  assert (is_space c = true) as Hsp.
  { unfold is_line_terminator in Hlt. unfold is_space.
    repeat (apply orb_prop in Hlt as [Hlt|Hlt]);
      rewrite Hlt, ?orb_true_r; done. }
  rewrite (Hc Hsp) in Hlt. done.
Qed.

Lemma sanitiseTitle_ends (raw : option (list N)) :
  (∀ c, head (sanitiseTitle raw) = Some c → is_space c = false) ∧
  (∀ c, last (sanitiseTitle raw) = Some c → is_space c = false).
Proof. split; [apply trim_head|apply trim_last]. Qed.

(** X1: a title is cleared of brackets; its white space is made of single
    [SPACE] units, none at either end; so it holds no tab, no line
    terminator and no run of spaces, whatever the feed sent. *)
Theorem sanitiseTitle_clean (raw : option (list N)) :
  (LBRACKET ∉ sanitiseTitle raw) ∧
  (RBRACKET ∉ sanitiseTitle raw) ∧
  Forall (λ c, is_space c = true → c = SPACE) (sanitiseTitle raw) ∧
  Forall (λ c, is_line_terminator c = false) (sanitiseTitle raw) ∧
  (∀ a b, sanitiseTitle raw ≠ a ++ SPACE :: SPACE :: b) ∧
  (∀ c, head (sanitiseTitle raw) = Some c → is_space c = false) ∧
  (∀ c, last (sanitiseTitle raw) = Some c → is_space c = false).
Proof.
  split; [by intros [? _]%sanitiseTitle_elem|].
  split; [by intros (_ & ? & _)%sanitiseTitle_elem|].
  split; [apply tidy_units, sanitiseTitle_tidy|].
  split; [apply sanitiseTitle_lines|].
  split; [intros a b; apply tidy_no_double, sanitiseTitle_tidy|].
  apply sanitiseTitle_ends.
Qed.

Lemma placeholder_not_blank :
  ¬ Forall (λ c, is_space c = true)
      (filter (λ c, c ≠ LBRACKET ∧ c ≠ RBRACKET) (lit "Untitled")).
Proof.
  change (filter _ (lit "Untitled")) with (lit "Untitled").
  by intros [? _]%Forall_cons.
Qed.

(** X2: the sanitised title is empty exactly when the feed sent a non-empty
    title made of brackets and white space only; an absent or empty title
    becomes the placeholder. *)
Theorem sanitiseTitle_empty_iff (raw : option (list N)) :
  (sanitiseTitle raw = [] ↔
   ∃ s, raw = Some s ∧ s ≠ [] ∧ Forall bracket_or_space s) ∧
  sanitiseTitle None = lit "Untitled" ∧
  sanitiseTitle (Some []) = lit "Untitled".
Proof.
  split; [|split; by vm_compute].
  rewrite sanitiseTitle_unfold, trim_nil, collapse_spaces_all_space.
  destruct raw as [[|x s]|].
  - split; [by intros ?%placeholder_not_blank|].
    by intros (s & [= <-] & ? & _).
  - cbn [or_else]. split.
    + intros Hall. exists (x :: s). split; [done|]. split; [done|].
      apply Forall_forall. intros c Hc.
      destruct (decide (c = LBRACKET)) as [|Hl]; [by left|].
      destruct (decide (c = RBRACKET)) as [|Hr]; [by right; left|].
      right; right. rewrite Forall_forall in Hall. apply Hall.
      by apply list_elem_of_filter.
    + intros (s' & [= <-] & _ & Hall). apply Forall_forall.
      intros c [[Hl Hr] Hc]%list_elem_of_filter.
      rewrite Forall_forall in Hall. by destruct (Hall c Hc) as [?|[?|?]].
  - split; [by intros ?%placeholder_not_blank|]. by intros (s & [=] & _).
Qed.

Lemma filter_id_Forall {X} (P : X → Prop) `{!∀ x, Decision (P x)}
    (l : list X) :
  Forall P l → filter P l = l.
Proof.
  induction 1 as [|x l Hx _ IH]; [done|].
  by rewrite filter_cons_True, IH.
Qed.

(** X3: sanitising is idempotent on every title it leaves non-empty. *)
Theorem sanitiseTitle_idempotent (raw : option (list N)) :
  sanitiseTitle raw ≠ [] →
  sanitiseTitle (Some (sanitiseTitle raw)) = sanitiseTitle raw.
Proof.
  intros Hne. destruct (sanitiseTitle_ends raw) as [Hhead Hlast].
  assert (LBRACKET ∉ sanitiseTitle raw) as Hl
    by by intros [? _]%sanitiseTitle_elem.
  assert (RBRACKET ∉ sanitiseTitle raw) as Hr
    by by intros (_ & ? & _)%sanitiseTitle_elem.
  set (t := sanitiseTitle raw) in *.
  rewrite (sanitiseTitle_unfold (Some t)).
  assert (or_else (Some t) (lit "Untitled") = t) as -> by by destruct t.
  rewrite filter_id_Forall.
  2:{ apply Forall_forall. intros c Hc. split; intros ->; done. }
  rewrite (proj1 (collapse_spaces_id t (sanitiseTitle_tidy raw))).
  by apply trim_id.
Qed.

Lemma sanitiseTitle_idempotent_witness :
  sanitiseTitle (Some (sanitiseTitle (Some (lit "  [Rust]   1.80  is out "))))
  = sanitiseTitle (Some (lit "  [Rust]   1.80  is out ")).
Proof.
  apply (sanitiseTitle_idempotent (Some (lit "  [Rust]   1.80  is out "))).
  by vm_compute.
Defined.

(** X4: a record with a sanitised title is read back from the section it is
    rendered into, unless the title came out empty: the sanitiser leaves
    nothing in a title that the line pattern trips over.  The URL and the
    date are bound as the pattern requires. *)
Theorem sanitised_records_roundtrip (today pre post : list N)
    (entries : list link) :
  Forall (λ l, (∃ raw, title l = sanitiseTitle raw) ∧ title l ≠ [] ∧
               indexOf MARKER_END (title l) = None ∧
               url l ≠ [] ∧ (RPAREN ∉ url l) ∧
               indexOf MARKER_END (url l) = None ∧
               is_iso_date (date l) = true) entries →
  indexOf MARKER_START pre = None → indexOf MARKER_END pre = None →
  parseSection today (pre ++ renderSection entries ++ post)
  = Section_ pre post entries.
Proof.
  intros Hall. apply parseSection_rendered.
  eapply Forall_impl; [exact Hall|]. cbn beta.
  intros l ((raw & Ht) & Hne & Hm & Hu & Hp & Hum & Hd).
  split; try done.
  - rewrite Ht. pose proof (sanitiseTitle_lines raw) as Hlt.
    apply Forall_forall. intros c Hc. split.
    + intros ->. by apply sanitiseTitle_elem in Hc as (_ & ? & _).
    + rewrite Forall_forall in Hlt. by apply Hlt.
  - apply Forall_forall. by intros c Hc ->.
Qed.

Lemma sanitised_records_roundtrip_witness :
  parseSection Sample.today0
    ((lit "# Links" ++ [LF]) ++
     renderSection
       [Link (sanitiseTitle (Some (lit "  [Rust]   1.80  is out ")))
             (lit "https://x.com/a") (lit "2024-01-02")] ++ [LF])
  = Section_ (lit "# Links" ++ [LF]) [LF]
      [Link (sanitiseTitle (Some (lit "  [Rust]   1.80  is out ")))
            (lit "https://x.com/a") (lit "2024-01-02")].
Proof.
  apply (sanitised_records_roundtrip Sample.today0 (lit "# Links" ++ [LF])
           [LF]); [|by vm_compute..].
  constructor; [|constructor].
  split; [by eexists|]. repeat split; try by vm_compute.
  decide_by_compute.
Defined.

(** ** What a match of the line pattern holds *)

Lemma matcher_rseq_nil_eq x k : matcher (rseq []) x k = k x.
Proof. reflexivity. Qed.

Lemma rep_lazy_inv p cp (rs : list N) (k : cont) y :
  rep_lazy p cp rs k = Some y →
  ∃ c t s, rs = (c :: t) ++ s ∧ Forall (λ c, p c = true) (c :: t) ∧
           k (MState (last (c :: t)) s cp) = Some y.
Proof.
  induction rs as [|c rs IH]; cbn [rep_lazy]; [done|].
  destruct (p c) eqn:Hc; [|done].
  destruct (k (MState (Some c) rs cp)) as [y'|] eqn:Hk.
  - intros [= <-]. exists c, [], rs. by repeat constructor.
  - intros (c' & t & s & -> & Hall & Hy)%IH.
    exists c, (c' :: t), s. split; [done|]. split; [by constructor|].
    by rewrite last_cons_cons.
Qed.

Lemma rep_greedy_inv p cp (rs : list N) (k : cont) y :
  rep_greedy p cp rs k = Some y →
  ∃ c t s, rs = (c :: t) ++ s ∧ Forall (λ c, p c = true) (c :: t) ∧
           k (MState (last (c :: t)) s cp) = Some y.
Proof.
  induction rs as [|c rs IH]; cbn [rep_greedy]; [done|].
  destruct (p c) eqn:Hc; [|done].
  destruct (rep_greedy p cp rs k) as [y'|] eqn:Hrec.
  - intros [= <-]. destruct (IH eq_refl) as (c' & t & s & -> & Hall & Hy).
    exists c, (c' :: t), s. split; [done|]. split; [by constructor|].
    by rewrite last_cons_cons.
  - intros Hk. exists c, [], rs. by repeat constructor.
Qed.

Lemma rep_count_inv n p x (k : cont) y :
  rep_count n p x k = Some y →
  ∃ ds s, rest x = ds ++ s ∧ length ds = n ∧
          Forall (λ c, p c = true) ds ∧
          k (MState (prev_after ds (prev x)) s (caps x)) = Some y.
Proof.
  revert x. induction n as [|n IH]; intros x; cbn [rep_count].
  - intros Hk. exists [], (rest x). destruct x. by repeat split.
  - destruct (rest x) as [|c rs] eqn:Hrs; [done|].
    destruct (p c) eqn:Hc; [|done].
    intros (ds & s & Hr & Hlen & Hall & Hk)%IH. cbn [rest prev caps] in *.
    exists (c :: ds), s. rewrite Hr, prev_after_cons. cbn [length].
    split; [done|]. split; [by rewrite Hlen|]. split; [by constructor|done].
Qed.

Lemma matcher_char_inv c x (k : cont) y :
  matcher (RChar c) x k = Some y →
  ∃ s, rest x = c :: s ∧ k (MState (Some c) s (caps x)) = Some y.
Proof.
  cbn [matcher]. destruct (rest x) as [|c' s]; [done|].
  destruct (c' =? c)%N eqn:Hc; [|done]. apply N.eqb_eq in Hc as ->. eauto.
Qed.

(** The text that [\d{4}-\d{2}-\d{2}] reads is a date. *)
Lemma dateRe_inv x (k : cont) y :
  matcher dateRe x k = Some y →
  ∃ d s, rest x = d ++ s ∧ is_iso_date d = true ∧
         k (MState (last d) s (caps x)) = Some y.
Proof.
  unfold dateRe. rewrite matcher_rseq_cons. cbn [matcher].
  intros (d1 & s1 & Hr1 & Hl1 & Hd1 & Hk)%rep_count_inv.
  rewrite matcher_rseq_cons in Hk.
  apply matcher_char_inv in Hk as (s2 & Hr2 & Hk). cbn [rest caps] in *.
  rewrite matcher_rseq_cons in Hk. cbn [matcher] in Hk.
  apply rep_count_inv in Hk as (d2 & s3 & Hr3 & Hl2 & Hd2 & Hk).
  cbn [rest caps prev] in *.
  rewrite matcher_rseq_cons in Hk.
  apply matcher_char_inv in Hk as (s4 & Hr4 & Hk). cbn [rest caps] in *.
  rewrite matcher_rseq_cons in Hk. cbn [matcher] in Hk.
  apply rep_count_inv in Hk as (d3 & s5 & Hr5 & Hl3 & Hd3 & Hk).
  cbn [rest caps prev] in *. subst.
  do 5 (destruct d1 as [|? d1]; try done).
  do 3 (destruct d2 as [|? d2]; try done).
  do 3 (destruct d3 as [|? d3]; try done).
  repeat match goal with H : Forall _ (_ :: _) |- _ =>
    apply Forall_cons in H as [? H] end.
  eexists [_; _; _; _; DASH; _; _; DASH; _; _], s5.
  split; [by rewrite Hr1|]. split; [|exact Hk].
  cbn [is_iso_date]. unfold DASH. rewrite !N.eqb_refl.
  repeat match goal with H : is_digit _ = true |- _ => rewrite H; clear H end.
  done.
Qed.

Lemma lineRe_inv (today : list N) pv (rs : list N) y :
  matcher lineRe (MState pv rs ∅) Some = Some y →
  parsed_ok today (link_of_match today y).
Proof.
  unfold lineRe. rewrite matcher_rseq_cons.
  intros Hm.
  assert (matcher (rseq
            [rlit "- [";
             RGroup 1 (RPlus false (λ c, negb (is_line_terminator c)));
             rlit "](";
             RGroup 2 (RPlus true (λ c, negb (c =? RPAREN)%N));
             RChar RPAREN;
             ROpt (rseq [rlit " - "; RGroup 3 dateRe])])
            (MState pv rs ∅) Some = Some y) as Hm'.
  { cbn [matcher prev] in Hm. by repeat case_match. }
  clear Hm. rewrite matcher_rseq_cons, matcher_rlit in Hm'.
  cbn [rest prev caps] in Hm'.
  destruct (starts_with (lit "- [") rs); [|done].
  rewrite matcher_rseq_cons in Hm'. cbn [matcher rest prev caps] in Hm'.
  apply rep_lazy_inv in Hm' as (tc & t & s1 & Hr1 & Ht & Hm).
  rewrite Hr1, consumed_app in Hm. cbn [prev rest caps] in Hm.
  rewrite matcher_rseq_cons, matcher_rlit in Hm. cbn [rest prev caps] in Hm.
  destruct (starts_with (lit "](") s1); [|done].
  rewrite matcher_rseq_cons in Hm. cbn [matcher rest prev caps] in Hm.
  apply rep_greedy_inv in Hm as (uc & u & s2 & Hr2 & Hu & Hm).
  rewrite Hr2, consumed_app in Hm. cbn [prev rest caps] in Hm.
  rewrite matcher_rseq_cons in Hm.
  apply matcher_char_inv in Hm as (s3 & Hr3 & Hm). cbn [rest caps] in Hm.
  rewrite matcher_rseq_cons in Hm.
  change (λ y, matcher (rseq []) y Some) with (Some : cont) in Hm.
  assert (title (link_of_match today y) = tc :: t ∧
          url (link_of_match today y) = uc :: u ∧
          (is_iso_date (date (link_of_match today y)) = true ∨
           date (link_of_match today y) = today)) as (Htitle & Hurl & Hdate).
  { cbn [matcher] in Hm.
    change (groups_of (rseq [rlit " - "; RGroup 3 dateRe])) with [3] in Hm.
    cbn [foldr prev rest caps] in Hm.
    rewrite delete_id in Hm by by rewrite !lookup_insert_ne.
    match type of Hm with
    | match ?m with _ => _ end = _ => destruct m as [y'|] eqn:Hopt
    end.
    - injection Hm as <-.
      rewrite matcher_rseq_cons, matcher_rlit in Hopt.
      cbn [rest prev caps] in Hopt.
      destruct (starts_with (lit " - ") s3); [|done].
      rewrite matcher_rseq_cons in Hopt. cbn [matcher] in Hopt.
      apply dateRe_inv in Hopt as (d & s4 & Hr4 & Hd & Hk).
      rewrite matcher_rseq_nil_eq in Hk. cbn [rest prev caps] in Hk, Hr4.
      destruct (length s4 =? length s3); [done|]. injection Hk as <-.
      unfold link_of_match. cbn [caps title url date].
      change (length (lit " - ")) with 3 in Hr4.
      rewrite Hr4, consumed_app, lookup_insert_eq.
      rewrite !lookup_insert_ne, lookup_insert_eq by done.
      rewrite lookup_insert_ne, lookup_insert_eq by done.
      split; [done|]. split; [done|]. left.
      destruct d as [|? ?]; [done|]. done.
    - injection Hm as <-. unfold link_of_match. cbn [caps title url date].
      rewrite lookup_insert_eq.
      rewrite !lookup_insert_ne, lookup_insert_eq by done.
      rewrite !lookup_insert_ne, lookup_empty by done.
      split; [done|]. split; [done|]. by right. }
  unfold parsed_ok. rewrite Htitle, Hurl.
  split; [done|]. split.
  { eapply Forall_impl; [exact Ht|]. cbn beta. intros c Hc.
    by apply negb_true_iff. }
  split; [done|]. split; [|done].
  intros Hin. rewrite Forall_forall in Hu. specialize (Hu _ Hin).
  cbn beta in Hu. by rewrite N.eqb_refl in Hu.
Qed.

Lemma exec_inv (today : list N) pv (rs : list N) y :
  exec lineRe pv rs = Some y → parsed_ok today (link_of_match today y).
Proof.
  revert pv. induction rs as [|c rs IH]; intros pv; cbn [exec];
    destruct (matcher lineRe _ Some) as [y'|] eqn:Hm; try done;
    try (intros [= <-]; by eapply lineRe_inv).
  apply IH.
Qed.

Lemma collect_parsed_ok (fuel : nat) (today : list N) pv (rs : list N) ls :
  collect fuel today pv rs = Some ls → Forall (parsed_ok today) ls.
Proof.
  revert pv rs ls. induction fuel as [|fuel IH]; intros pv rs ls; [done|].
  cbn [collect]. destruct (exec lineRe pv rs) as [m|] eqn:Hex.
  - destruct (collect fuel today (prev m) (rest m)) as [ls'|] eqn:Hrec;
      [|done].
    intros [= <-]. constructor; [by eapply exec_inv|by eapply IH].
  - by intros [= <-].
Qed.

(** X5: whatever the document, every entry the parser returns has a non-empty
    title free of line terminators and a non-empty URL free of closing
    parentheses, and its date is either of the form YYYY-MM-DD or the
    processing date. *)
Theorem parseSection_entries_ok (today content : list N) :
  Forall (parsed_ok today) (links (parseSection today content)).
Proof.
  unfold parseSection.
  destruct (indexOf MARKER_START content) as [si|]; [|by constructor].
  destruct (indexOf MARKER_END content) as [ei|]; [|by constructor].
  destruct (ei <=? si); [by constructor|]. cbn [links].
  eapply collect_parsed_ok, matchLinks_terminates.
Qed.

(** ** Writing a section and reading it again *)

Lemma indexOf_None_iff (pat s : list N) :
  indexOf pat s = None ↔ ∀ j, starts_with pat (drop j s) = false.
Proof.
  induction s as [|c s IH].
  - cbn [indexOf]. split.
    + intros H j. rewrite drop_nil. by destruct (starts_with pat []).
    + intros H. specialize (H 0). cbn in H. by rewrite H.
  - split.
    + intros [H0 Hs]%indexOf_None_inv [|j]; [done|]. cbn [drop].
      by apply IH.
    + intros H. cbn [indexOf]. pose proof (H 0) as H0. cbn [drop] in H0.
      rewrite H0, (proj2 IH); [done|]. intros j. apply (H (S j)).
Qed.

Lemma starts_with_app_l (pat a b : list N) :
  starts_with pat a = true → starts_with pat (a ++ b) = true.
Proof.
  revert a. induction pat as [|p pat IH]; intros [|c a]; cbn; try done.
  intros [-> H]%andb_prop. by rewrite IH.
Qed.

Lemma starts_with_take (pat t : list N) (n : nat) :
  starts_with pat (take n t) = true →
  starts_with pat t = true ∧ length pat ≤ n.
Proof.
  revert t n. induction pat as [|p pat IH]; intros t n; [cbn; split; [done|lia]|].
  destruct t as [|c t], n as [|n]; cbn; try done.
  intros [-> H]%andb_prop. apply IH in H as [-> ?]. split; [done|lia].
Qed.

Lemma indexOf_None_app_l (pat a b : list N) :
  indexOf pat (a ++ b) = None → indexOf pat a = None.
Proof.
  rewrite !indexOf_None_iff. intros H j. specialize (H j).
  rewrite drop_app in H. destruct (starts_with pat (drop j a)) eqn:Hs; [|done].
  by rewrite (starts_with_app_l _ _ _ Hs) in H.
Qed.

(** No occurrence of the pattern lies wholly before the end of its first
    occurrence. *)
Lemma indexOf_take_None (pat s : list N) (i n : nat) :
  indexOf pat s = Some i → n < i + length pat → indexOf pat (take n s) = None.
Proof.
  intros Hi Hn.
  assert (pat ≠ []) as Hpat.
  { intros ->. destruct s; cbn in Hi; injection Hi as <-; cbn in Hn; lia. }
  apply indexOf_first in Hi as [_ Hfirst]. apply indexOf_None_iff. intros j.
  destruct (starts_with pat (drop j (take n s))) eqn:Hs; [|done].
  destruct (decide (j ≤ n)) as [Hj|Hj].
  - replace n with (j + (n - j)) in Hs by lia.
    rewrite <- take_drop_commute in Hs.
    apply starts_with_take in Hs as [Hs Hlen].
    rewrite Hfirst in Hs; [done|lia].
  - rewrite drop_ge in Hs by (rewrite length_take; lia).
    by destruct pat.
Qed.

Lemma indexOf_None_blank_line (pat a : list N) :
  LF ∉ pat → pat ≠ [] → indexOf pat a = None →
  indexOf pat (a ++ [LF; LF]) = None.
Proof.
  intros Hlf Hpat Ha.
  change (a ++ [LF; LF]) with (a ++ [LF] ++ [LF]). rewrite (assoc_L (++)).
  rewrite (sealed_sep pat a LF Hlf Hpat Ha [LF]).
  destruct pat as [|p pat]; [done|].
  apply not_elem_of_cons in Hlf as [Hp _].
  cbn. replace (p =? LF)%N with false; [done|].
  symmetry. apply N.eqb_neq. congruence.
Qed.

(** X6: when the section is located, writing any well-formed list in its place
    leaves the text before the start marker and after the end marker of
    the document byte for byte, and the document written is read back as
    that text and that list. *)
Theorem rewrite_located_section (today today' content : list N)
    (si ei : nat) (entries : list link) :
  indexOf MARKER_START content = Some si →
  indexOf MARKER_END content = Some ei →
  si < ei → Forall wf_link entries →
  before (parseSection today content) = take si content ∧
  after (parseSection today content)
  = drop (ei + length MARKER_END) content ∧
  parseSection today'
    (before (parseSection today content) ++ renderSection entries ++
     after (parseSection today content))
  = Section_ (take si content) (drop (ei + length MARKER_END) content)
             entries.
Proof.
  intros Hs He Hlt Hwf.
  assert (before (parseSection today content) = take si content ∧
          after (parseSection today content)
          = drop (ei + length MARKER_END) content) as [-> ->].
  { unfold parseSection. rewrite Hs, He.
    replace (ei <=? si) with false by (symmetry; apply Nat.leb_gt; lia).
    cbn [before after]. unfold slice, slice_from.
    by rewrite drop_0, Nat.sub_0_r. }
  split; [done|]. split; [done|].
  apply parseSection_rendered; [done|..].
  - apply (indexOf_take_None _ _ si); [done|]. cbn. lia.
  - apply (indexOf_take_None _ _ ei); [done|]. lia.
Qed.

Lemma rewrite_located_section_witness :
  parseSection Sample.today0
    (before (parseSection Sample.today0 (Sample.file_with [Sample.e1])) ++
     renderSection [Sample.e2; Sample.e1] ++
     after (parseSection Sample.today0 (Sample.file_with [Sample.e1])))
  = Section_ (lit "# RSS Links" ++ [LF; LF]) [LF] [Sample.e2; Sample.e1].
Proof.
  refine (eq_trans (proj2 (proj2 (rewrite_located_section Sample.today0
            Sample.today0 (Sample.file_with [Sample.e1]) 13 91
            [Sample.e2; Sample.e1] _ _ _ _))) _);
    [by vm_compute | by vm_compute | lia | | by vm_compute].
  repeat constructor; try done; decide_by_compute.
Defined.

(** X7: when the document holds neither marker, the parser answers with the
    document trimmed at its end and followed by a blank line as prefix (or
    with an empty prefix when the document is blank); the text trimmed is
    white space only; and the document written from that answer with any
    well-formed list is read back as that prefix and that list: the
    section appended by one run is found by the next. *)
Theorem append_section_then_parse (today today' content : list N)
    (entries : list link) :
  indexOf MARKER_START content = None →
  indexOf MARKER_END content = None →
  Forall wf_link entries →
  (∃ ws, content = trimEnd content ++ ws ∧
         Forall (λ c, is_space c = true) ws) ∧
  before (parseSection today content)
  = match trimEnd content with
    | [] => []
    | _ :: _ => trimEnd content ++ [LF; LF]
    end ∧
  after (parseSection today content) = [LF] ∧
  links (parseSection today content) = [] ∧
  parseSection today'
    (before (parseSection today content) ++ renderSection entries ++
     after (parseSection today content))
  = Section_ (before (parseSection today content)) [LF] entries.
Proof.
  intros Hs He Hwf.
  rewrite (parseSection_fallback today content) by congruence.
  unfold fallback. cbn [before after links].
  split; [apply trimEnd_split|]. split; [done|]. split; [done|].
  split; [done|].
  destruct (trimEnd_split content) as (ws & Hc & _).
  rewrite Hc in Hs, He.
  apply indexOf_None_app_l in Hs, He.
  apply parseSection_rendered; [done|..]; destruct (trimEnd content);
    try done; apply indexOf_None_blank_line; try done; decide_by_compute.
Qed.

Lemma append_section_then_parse_witness :
  parseSection Sample.today0
    (before (parseSection Sample.today0 (lit "# Notes" ++ [LF; LF; LF])) ++
     renderSection [Sample.e1] ++
     after (parseSection Sample.today0 (lit "# Notes" ++ [LF; LF; LF])))
  = Section_ (lit "# Notes" ++ [LF; LF]) [LF] [Sample.e1].
Proof.
  refine (eq_trans (proj2 (proj2 (proj2 (proj2
            (append_section_then_parse Sample.today0 Sample.today0
               (lit "# Notes" ++ [LF; LF; LF]) [Sample.e1] _ _ _))))) _);
    [by vm_compute | by vm_compute | | by vm_compute].
  repeat constructor; try done; decide_by_compute.
Defined.

(** ** The list of feed addresses *)

Lemma split_sep_plain (cur u : list N) (b : bool) :
  Forall (λ c, is_separator c = false) u →
  split_sep cur b u = [rev cur ++ u].
Proof.
  intros Hu. revert cur b.
  induction Hu as [|c u Hc _ IH]; intros cur b; cbn [split_sep].
  - by rewrite app_nil_r.
  - unfold is_separator in Hc. rewrite Hc, IH. cbn [rev].
    by rewrite <- (assoc_L (++)).
Qed.

Lemma split_sep_sep (a s cur : list N) (c : N) (b : bool) :
  is_separator c = true → (b = true → cur = []) →
  filter (λ u, u ≠ []) (map trim (split_sep cur b (a ++ c :: s)))
  = filter (λ u, u ≠ []) (map trim (split_sep cur b a)) ++
    filter (λ u, u ≠ []) (map trim (split_sep [] true s)).
Proof.
  intros Hc. unfold is_separator in Hc. revert cur b.
  induction a as [|x a IH]; intros cur b Hb; cbn [app split_sep].
  - rewrite Hc. destruct b; [by rewrite Hb|]. cbn [map].
    exact (filter_app _ [_] _).
  - destruct ((x =? 10)%N || (x =? 44)%N).
    + destruct b; [by apply IH|]. cbn [map].
      rewrite !(filter_cons _ (trim (rev cur))), (IH [] true) by done.
      by case_decide.
    + by apply IH.
Qed.

Lemma split_sep_in_sep (s : list N) :
  filter (λ u, u ≠ []) (map trim (split_sep [] true s))
  = filter (λ u, u ≠ []) (map trim (split_sep [] false s)).
Proof.
  destruct s as [|c s]; [done|]. cbn [split_sep].
  destruct ((c =? 10)%N || (c =? 44)%N); [|done].
  cbn [map rev]. by rewrite filter_cons_False by (by intros []).
Qed.

Lemma rssUrlsOf_sep (a b : list N) (c : N) :
  is_separator c = true →
  rssUrlsOf (a ++ c :: b) = rssUrlsOf a ++ rssUrlsOf b.
Proof.
  intros Hc. unfold rssUrlsOf.
  by rewrite split_sep_sep, split_sep_in_sep.
Qed.

Lemma rssUrlsOf_plain (u : list N) :
  Forall (λ c, is_separator c = false) u →
  rssUrlsOf u = match trim u with [] => [] | _ :: _ => [trim u] end.
Proof.
  intros Hu. unfold rssUrlsOf. rewrite split_sep_plain by done.
  cbn [rev app map]. rewrite filter_cons, filter_nil.
  case_decide as Ht; by destruct (trim u).
Qed.

(** Induction on a text cut at its separators. *)
Lemma separator_ind (P : list N → Prop) :
  (∀ u, Forall (λ c, is_separator c = false) u → P u) →
  (∀ u c s, Forall (λ c, is_separator c = false) u →
            is_separator c = true → P s → P (u ++ c :: s)) →
  ∀ s, P s.
Proof.
  intros Hplain Hsep s.
  cut (∀ u, Forall (λ c, is_separator c = false) u → P (u ++ s)).
  { intros H. by apply (H []). }
  induction s as [|c s IH]; intros u Hu.
  - rewrite app_nil_r. by apply Hplain.
  - destruct (is_separator c) eqn:Hc.
    + apply Hsep; [done..|]. by apply (IH []).
    + rewrite (cons_middle c), (assoc_L (++)). apply IH.
      apply Forall_app. by split; [|constructor].
Qed.

Lemma trim_units (P : N → Prop) (s : list N) :
  Forall P s → Forall P (trim s).
Proof.
  destruct (trim_split s) as (a & b & Hs & _). intros H. rewrite Hs in H.
  by apply Forall_app in H as [_ [H _]%Forall_app].
Qed.

(** X8: every feed address the run fetches is non-empty, holds neither a
    newline nor a comma, and neither starts nor ends with white space;
    and every unit of it is a unit of the input. *)
Theorem rssUrlsOf_pieces (raw : list N) :
  Forall feed_url_ok (rssUrlsOf raw) ∧
  ∀ u c, u ∈ rssUrlsOf raw → c ∈ u → c ∈ raw.
Proof.
  induction raw as [u Hu|u c s Hu Hc [IH1 IH2]] using separator_ind.
  - rewrite rssUrlsOf_plain by done.
    destruct (trim u) as [|x t] eqn:Ht.
    { split; [constructor|]. by intros ?? ?%elem_of_nil. }
    rewrite <- Ht. split.
    + constructor; [|constructor]. split; [by rewrite Ht|].
      split; [by apply trim_units|]. split; [apply trim_head|apply trim_last].
    + intros u' c ->%list_elem_of_singleton Hin.
      destruct (trim_split u) as (a & b & Hs & _). rewrite Hs.
      rewrite !elem_of_app. tauto.
  - rewrite rssUrlsOf_sep by done. split.
    + apply Forall_app. split; [|done].
      rewrite rssUrlsOf_plain by done.
      destruct (trim u) as [|x t] eqn:Ht; [constructor|]. rewrite <- Ht.
      constructor; [|constructor]. split; [by rewrite Ht|].
      split; [by apply trim_units|]. split; [apply trim_head|apply trim_last].
    + intros u' c' [Hin|Hin]%elem_of_app Hc'.
      * rewrite rssUrlsOf_plain in Hin by done.
        destruct (trim u) as [|x t] eqn:Ht; [by apply elem_of_nil in Hin|].
        rewrite <- Ht in Hin. apply list_elem_of_singleton in Hin as ->.
        destruct (trim_split u) as (a & b & Hs & _). rewrite Hs.
        rewrite !elem_of_app. tauto.
      * rewrite elem_of_app, elem_of_cons. right. right. by eapply IH2.
Qed.


Lemma rssUrlsOf_skip (sep s : list N) :
  Forall (λ c, is_separator c = true) sep →
  rssUrlsOf (sep ++ s) = rssUrlsOf s.
Proof.
  induction 1 as [|c sep Hc _ IH]; [done|].
  rewrite <- IH. exact (rssUrlsOf_sep [] _ c Hc).
Qed.

(** X10: pieces without newline or comma, written one after the other with
    newlines or commas between them, are read back trimmed, the blank ones
    left out; addresses that are not blank and carry no white space at
    either end are read back as they are. *)
Theorem rssUrlsOf_join (sep : list N) (parts : list (list N)) :
  sep ≠ [] → Forall (λ c, is_separator c = true) sep →
  Forall (Forall (λ c, is_separator c = false)) parts →
  rssUrlsOf (join sep parts) = filter (λ u, u ≠ []) (map trim parts) ∧
  (Forall (λ u, u ≠ [] ∧ trimmed u) parts →
   rssUrlsOf (join sep parts) = parts).
Proof.
  intros Hne Hsep Hparts.
  assert (rssUrlsOf (join sep parts)
          = filter (λ u, u ≠ []) (map trim parts)) as Hjoin.
  { induction Hparts as [|p ps Hp Hps IH]; [done|].
    assert (rssUrlsOf p = filter (λ u, u ≠ []) [trim p]) as Hone.
    { rewrite rssUrlsOf_plain, filter_cons, filter_nil by done.
      case_decide; by destruct (trim p). }
    destruct ps as [|q ps]; [done|].
    change (join sep (p :: q :: ps)) with (p ++ sep ++ join sep (q :: ps)).
    destruct sep as [|c sep]; [done|]. apply Forall_cons in Hsep as [Hc Hsep].
    rewrite <- app_comm_cons, rssUrlsOf_sep, rssUrlsOf_skip, IH, Hone by done.
    symmetry. exact (filter_app _ [_] _). }
  split; [done|]. intros Hok. rewrite Hjoin.
  clear -Hok. induction Hok as [|p ps [Hp [Hh Hl]] _ IH]; [done|].
  cbn [map]. rewrite filter_cons, IH, trim_id by done. by case_decide.
Qed.

Lemma rssUrlsOf_join_witness :
  rssUrlsOf (join (lit "," ++ [LF])
               [lit "https://a.example/feed"; lit "  https://b.example/rss "])
  = filter (λ u, u ≠ [])
      (map trim [lit "https://a.example/feed"; lit "  https://b.example/rss "]).
Proof.
  refine (proj1 (rssUrlsOf_join (lit "," ++ [LF])
            [lit "https://a.example/feed"; lit "  https://b.example/rss "]
            _ _ _)); decide_by_compute.
Defined.

(** ** Reading an input *)

(** X11: an input is read without white space at either end; it is empty
    exactly when the variable is unset or blank; and a value without
    white space at either end is read as it is. *)
Theorem getInput_value (env : list N → option (list N)) (name : string) :
  trimmed (getInput env name) ∧
  (getInput env name = [] ↔ blank_input env name) ∧
  (∀ v, env (input_key (lit name)) = Some v → trimmed v →
        getInput env name = v) ∧
  (∀ v, env (input_key (lit name)) = Some v →
        ∃ a b, v = a ++ getInput env name ++ b ∧
               Forall (λ c, is_space c = true) a ∧
               Forall (λ c, is_space c = true) b).
Proof.
  unfold getInput, blank_input.
  split; [split; [apply trim_head|apply trim_last]|].
  split; [|split].
  - rewrite trim_nil. by destruct (env _).
  - intros v -> [Hh Hl]. by apply trim_id.
  - intros v ->. apply trim_split.
Qed.

Lemma getInput_value_witness :
  getInput (Sample.env_of [("output_file", "docs/links.md")]%string)
           "output_file"
  = lit "docs/links.md".
Proof.
  refine (proj1 (proj2 (proj2 (getInput_value _ "output_file")))
            (lit "docs/links.md") _ _); [reflexivity|].
  split; intros c [= <-]; reflexivity.
Defined.

(** ** The fetch loop *)

Lemma pushItems_cons (w : world) (it : item) (items : list item) :
  pushItems w (it :: items)
  = match first_truthy (item_link it) (item_guid it) with
    | None => pushItems w items
    | Some link =>
        match match item_pubDate it with
              | Some (c :: s) => slice 0 10 <$> w_toISOString w (c :: s)
              | _ => Some (today w)
              end with
        | None => ([], false)
        | Some d => (Link (sanitiseTitle (item_title it)) link d ::
                     (pushItems w items).1, (pushItems w items).2)
        end
    end.
Proof.
  cbn [pushItems]. destruct (first_truthy _ _); [|done].
  destruct (match item_pubDate it with Some (_ :: _) => _ | _ => _ end);
    [|done].
  by destruct (pushItems w items).
Qed.

(** X12: an item whose date cannot be read ends the loop over its feed: the
    records pushed before it stay, the items after it are not looked at,
    and the loop reports the failure.  The loop runs to its end exactly
    when the feed holds no such item. *)
Theorem pushItems_cut_short (w : world) (items : list item) :
  (∀ pre bad post, items = pre ++ bad :: post → bad_date w bad →
     pushItems w items = ((pushItems w pre).1, false)) ∧
  ((pushItems w items).2 = true ↔ Forall (λ it, ¬ bad_date w it) items).
Proof.
  split.
  - intros pre bad post -> [Hlink (c & s & Hd & Hiso)].
    induction pre as [|it pre IH].
    + cbn [app]. rewrite pushItems_cons, Hd, Hiso.
      by destruct (first_truthy _ _).
    + cbn [app]. rewrite !pushItems_cons, IH.
      destruct (first_truthy (item_link it) _); [|done].
      by destruct (match item_pubDate it with Some (_ :: _) => _ | _ => _ end).
  - induction items as [|it items IH]; [by split; [constructor|]|].
    rewrite pushItems_cons, Forall_cons, <- IH. unfold bad_date.
    destruct (first_truthy (item_link it) _) as [link|].
    + destruct (item_pubDate it) as [[|c s]|]; cbn [snd].
      * split; [|tauto]. intros Hok. split; [|done].
        by intros [_ (? & ? & [=] & _)].
      * destruct (w_toISOString w (c :: s)) as [iso|] eqn:Hiso; cbn [fmap
          option_fmap option_map snd].
        -- split; [|tauto]. intros Hok. split; [|done].
           intros [_ (? & ? & [= <- <-] & Hn)]. congruence.
        -- split; [done|]. intros [Hn _]. destruct Hn.
           split; [done|]. by exists c, s.
      * split; [|tauto]. intros Hok. split; [|done].
        by intros [_ (? & ? & [=] & _)].
    + split; [|tauto]. intros Hok. split; [|done]. by intros [[] _].
Qed.

Lemma pushItems_cut_short_witness :
  let w := World (λ _, None) [] [] (λ _, FeedError) (lit "2026-11-03T02:32Z")
                 (λ _, None) id id (λ _, false) id [] in
  let undated := Item (Some (lit "A")) (Some (lit "https://x.com/A")) None
                      None in
  pushItems w ([undated] ++ Sample.mk_item "B" :: [undated])
  = ([Link (lit "A") (lit "https://x.com/A") (lit "2026-11-03")], false).
Proof.
  cbv zeta.
  refine (proj1 (pushItems_cut_short _ _) _ _ _ eq_refl _).
  split; [done|]. by eexists _, _.
Defined.

Lemma pushItems_records (w : world) (items : list item) (l : link) :
  l ∈ (pushItems w items).1 → ∃ it, it ∈ items ∧ record_of w it l.
Proof.
  induction items as [|it items IH]; [by intros ?%elem_of_nil|].
  rewrite pushItems_cons.
  destruct (first_truthy (item_link it) _) as [link|] eqn:Hlink.
  - destruct (match item_pubDate it with Some (_ :: _) => _ | _ => _ end)
      as [d|] eqn:Hd; [|by intros ?%elem_of_nil].
    cbn [fst]. intros [->|Hin]%elem_of_cons.
    + exists it. split; [left|]. split; [done|]. split; [done|].
      cbn [date]. destruct (item_pubDate it) as [[|c s]|]; try congruence.
      destruct (w_toISOString w (c :: s)) as [iso|]; [|done].
      exists iso. split; [done|]. by injection Hd as <-.
    + destruct (IH Hin) as (it' & Hit' & Hr). exists it'. split; [by right|done].
  - intros Hin. destruct (IH Hin) as (it' & Hit' & Hr).
    exists it'. split; [by right|done].
Qed.

Lemma pushItems_length (w : world) (items : list item) :
  length (pushItems w items).1 ≤ length items.
Proof.
  induction items as [|it items IH]; [done|]. rewrite pushItems_cons.
  destruct (first_truthy _ _); [|cbn [length]; lia].
  destruct (match item_pubDate it with Some (_ :: _) => _ | _ => _ end);
    cbn [fst length]; lia.
Qed.

Lemma fetchFeeds_cons (w : world) (u : list N) (us : list (list N)) :
  ∃ t, Forall quiet t ∧ length t = 2 * S (length us) ∧
       fetchFeeds w (u :: us)
       = (t, Some (match w_parseURL w u with
                   | FeedError => []
                   | Feed items => (pushItems w (take 20 items)).1
                   end ++ fetched w us)).
Proof.
  revert u. induction us as [|v us IH]; intros u.
  - cbn [fetchFeeds]. unfold fetched. cbn [fetchFeeds].
    destruct (w_parseURL w u) as [|items].
    + eexists. split; [|split; [|reflexivity]]; [by repeat constructor|done].
    + destruct (pushItems w (take 20 items)) as [ls ok].
      eexists. split; [|split; [|reflexivity]]; [|done].
      repeat constructor; by destruct ok.
  - destruct (IH v) as (t & Ht & Hlen & Hf).
    unfold fetched. rewrite Hf. cbn [snd default]. unfold id.
    change (fetchFeeds w (u :: v :: us))
      with (emit EvInfo ;;
            ls ← match w_parseURL w u with
                 | FeedError => emit EvWarning ;; mret []
                 | Feed items =>
                     let '(ls, ok) := pushItems w (take 20 items) in
                     emit (if ok then EvInfo else EvWarning) ;; mret ls
                 end;
            ls' ← fetchFeeds w (v :: us);
            mret (ls ++ ls')).
    rewrite Hf. destruct (w_parseURL w u) as [|items].
    + eexists. split; [|split; [|reflexivity]].
      * cbn. rewrite app_nil_r. by repeat constructor.
      * cbn. rewrite app_nil_r. cbn. lia.
    + destruct (pushItems w (take 20 items)) as [ls ok].
      eexists. split; [|split; [|reflexivity]].
      * cbn. rewrite app_nil_r. repeat constructor; [by destruct ok|done].
      * cbn. rewrite app_nil_r. cbn. lia.
Qed.

Lemma fetched_nil (w : world) : fetched w [] = [].
Proof. done. Qed.

Lemma fetched_cons (w : world) (u : list N) (us : list (list N)) :
  fetched w (u :: us)
  = match w_parseURL w u with
    | FeedError => []
    | Feed items => (pushItems w (take 20 items)).1
    end ++ fetched w us.
Proof.
  destruct (fetchFeeds_cons w u us) as (t & _ & _ & Hf).
  unfold fetched at 1. by rewrite Hf.
Qed.

Lemma fetchFeeds_fetched (w : world) (us : list (list N)) :
  ∃ t, Forall quiet t ∧ length t = 2 * length us ∧
       fetchFeeds w us = (t, Some (fetched w us)).
Proof.
  destruct us as [|u us]; [by exists []|].
  destruct (fetchFeeds_cons w u us) as (t & Ht & Hlen & Hf).
  exists t. by rewrite fetched_cons.
Qed.

(** X13: the fetch loop never ends the run, whatever the feeds answer: it logs
    two lines per feed and nothing else.  The feeds are fetched one by
    one, in the order of the list: the records of a list of feeds are
    those of its first part followed by those of its second part; a feed
    that cannot be fetched adds nothing; and no feed adds more than 20
    records. *)
Theorem fetchFeeds_feed_by_feed (w : world) (us vs : list (list N)) :
  (∃ t, fetchFeeds w us = (t, Some (fetched w us)) ∧
        Forall quiet t ∧ length t = 2 * length us) ∧
  fetched w (us ++ vs) = fetched w us ++ fetched w vs ∧
  (∀ u, w_parseURL w u = FeedError → fetched w (u :: vs) = fetched w vs) ∧
  length (fetched w us) ≤ 20 * length us.
Proof.
  split; [|split; [|split]].
  - destruct (fetchFeeds_fetched w us) as (t & ? & ? & ?). by exists t.
  - induction us as [|u us IH]; [done|]. cbn [app].
    by rewrite !fetched_cons, IH, (assoc_L (++)).
  - intros u Hu. by rewrite fetched_cons, Hu.
  - induction us as [|u us IH]; [cbn; lia|]. rewrite fetched_cons, length_app.
    cbn [length]. destruct (w_parseURL w u) as [|items]; [cbn; lia|].
    pose proof (pushItems_length w (take 20 items)) as Hl.
    rewrite length_take in Hl. lia.
Qed.

Lemma fetchFeeds_feed_by_feed_witness :
  let w := World (λ _, None) [] []
                 (λ u, if decide (u = lit "https://down.example/feed")
                       then FeedError else Feed [Sample.mk_item "A"])
                 (lit "2026-11-03T02:32Z")
                 (λ _, Some (lit "2024-05-06T07:08:09.000Z"))
                 id id (λ _, false) id [] in
  fetched w [lit "https://down.example/feed"; lit "https://x.com/feed"]
  = fetched w [lit "https://x.com/feed"].
Proof.
  cbv zeta.
  refine (proj1 (proj2 (proj2 (fetchFeeds_feed_by_feed _ [] _))) _ _).
  reflexivity.
Defined.

(** X14: every record the fetch loop gathers comes from one of the first 20
    items of a feed of the list: its title is the sanitised title of the
    item, its URL the link of the item or else its guid, never empty, and
    its date the first ten units of the item's date as the clock reads it,
    or the day of the run when the item has no date. *)
Theorem fetched_records (w : world) (us : list (list N)) (l : link) :
  l ∈ fetched w us →
  url l ≠ [] ∧ length (date l) ≤ 10 ∧
  ∃ u items it, u ∈ us ∧ w_parseURL w u = Feed items ∧
                it ∈ take 20 items ∧ record_of w it l.
Proof.
  intros Hin.
  assert (∃ u items it, u ∈ us ∧ w_parseURL w u = Feed items ∧
                        it ∈ take 20 items ∧ record_of w it l)
    as (u & items & it & Hu & Hf & Hit & Hr).
  { induction us as [|u us IH]; [by apply elem_of_nil in Hin|].
    rewrite fetched_cons in Hin. apply elem_of_app in Hin as [Hin|Hin].
    - destruct (w_parseURL w u) as [|items] eqn:Hf;
        [by apply elem_of_nil in Hin|].
      apply pushItems_records in Hin as (it & Hit & Hr).
      exists u, items, it. split; [left|done].
    - destruct (IH Hin) as (u' & items & it & Hu & H).
      exists u', items, it. split; [by right|done]. }
  split; [|split; [|by exists u, items, it]].
  - destruct Hr as (_ & Hlink & _). intros Hnil. rewrite Hnil in Hlink.
    unfold first_truthy in Hlink.
    destruct (item_link it) as [[|??]|], (item_guid it) as [[|??]|];
      congruence.
  - destruct Hr as (_ & _ & Hd).
    assert (date l = today w ∨ ∃ iso, date l = slice 0 10 iso) as [->|[iso ->]].
    { destruct (item_pubDate it) as [[|c s]|]; [by left| |by left].
      destruct Hd as (iso & _ & Hd). right. by exists iso. }
    + unfold today, slice. rewrite length_take. lia.
    + unfold slice. rewrite length_take. lia.
Qed.

Lemma fetched_records_witness :
  url (Link (lit "A") (lit "https://x.com/A") (lit "2024-05-06")) ≠ [] ∧
  length (date (Link (lit "A") (lit "https://x.com/A") (lit "2024-05-06")))
  ≤ 10.
Proof.
  pose proof (fetched_records
                (Sample.world_of [] [Sample.mk_item "A"] [])
                [lit "https://x.com/feed"]
                (Link (lit "A") (lit "https://x.com/A") (lit "2024-05-06")))
    as H.
  destruct H as (Hu & Hd & _); [apply list_elem_of_singleton; reflexivity|].
  exact (conj Hu Hd).
Defined.

(** ** The run, from its inputs *)

Lemma quiet_actions (t : list event) : Forall quiet t → actions t = [].
Proof.
  induction 1 as [|e t He _ IH]; [done|]. cbn [actions flat_map].
  fold (actions t). rewrite IH. by destruct e.
Qed.

Lemma actions_app (t1 t2 : list event) :
  actions (t1 ++ t2) = actions t1 ++ actions t2.
Proof. apply flat_map_app. Qed.

Lemma parseSection_seed (today : list N) :
  parseSection today seed = Section_ (lit "# RSS Links" ++ [LF; LF]) [LF] [].
Proof.
  apply (parseSection_rendered today (lit "# RSS Links" ++ [LF; LF]) [LF] []);
    [constructor|by vm_compute..].
Qed.

Section RunFromInputs.
Context {A : URLApi}.

(** What [gather] answers once the inputs hold at least one feed. *)
Lemma gather_fetch (w : world) (c c' : N) (raw token : list N)
    (u : list N) (us : list (list N)) :
  getInput (w_env w) "rss_urls" = c :: raw →
  getInput (w_env w) "github_token" = c' :: token →
  rssUrlsOf (c :: raw) = u :: us →
  let outputFile := or_else (Some (getInput (w_env w) "output_file"))
                            (lit "links.md") in
  let filePath := w_resolve w outputFile in
  ∃ tf, Forall quiet tf ∧
    gather w
    = match fetched w (u :: us) with
      | [] => (tf ++ [EvInfo; EvSetOutput (lit "pr_url") [];
                      EvSetOutput (lit "new_items_count") (lit "0")], None)
      | l :: ls =>
          (tf ++ (if w_exists w filePath then [] else [EvInfo]),
           Some (Gathered
                   (maxLinksOf (w_env w)) outputFile (c' :: token)
                   (or_else (Some (getInput (w_env w) "branch_prefix"))
                            (lit "rss-update"))
                   (or_else (Some (getInput (w_env w) "base_branch"))
                            (lit "main"))
                   (map (λ item, Link (title item)
                                      (addUTM (url item) (w_owner w)
                                              (w_repo w)) (date item))
                        (l :: ls))
                   filePath
                   (parseSection (today w)
                      (if w_exists w filePath then w_read w filePath
                       else seed))))
      end.
Proof.
  intros Hraw Htok Hurls outputFile filePath.
  destruct (fetchFeeds_fetched w (u :: us)) as (tf & Htf & _ & Hf).
  exists (EvInfo :: tf). split; [by constructor|].
  unfold gather, getRequired. rewrite Hraw, bind_ret, Htok, bind_ret, Hurls.
  rewrite bind_ret, bind_emit, Hf, bind_Some.
  destruct (fetched w (u :: us)) as [|l ls]; [done|].
  rewrite bind_ret. fold outputFile. fold filePath.
  destruct (w_exists w filePath).
  - by rewrite !bind_ret.
  - unfold mbind, M_bind, emit, mret, M_ret. cbn [fst snd app]. done.
Qed.

End RunFromInputs.

(** X15: a run whose inputs name no feed, or no token, fails before it fetches
    anything: its whole trace is the one failure, with the message of the
    first check that fails, in the order [rss_urls], [github_token], list
    of feeds. *)
Theorem run_configuration_errors {A : URLApi} (w : world) :
  (getInput (w_env w) "rss_urls" = [] →
   run w = [EvSetFailed (required_missing "rss_urls")]) ∧
  (getInput (w_env w) "rss_urls" ≠ [] →
   getInput (w_env w) "github_token" = [] →
   run w = [EvSetFailed (required_missing "github_token")]) ∧
  (getInput (w_env w) "rss_urls" ≠ [] →
   getInput (w_env w) "github_token" ≠ [] →
   rssUrlsOf (getInput (w_env w) "rss_urls") = [] →
   run w = [EvSetFailed (lit "No RSS URLs provided.")]).
Proof.
  unfold run, run_steps, gather, getRequired.
  split; [|split].
  - by intros ->.
  - intros Hraw ->. by destruct (getInput (w_env w) "rss_urls").
  - intros Hraw Htok Hurls.
    destruct (getInput (w_env w) "rss_urls") as [|c raw]; [done|].
    destruct (getInput (w_env w) "github_token") as [|c' token]; [done|].
    by rewrite !bind_ret, Hurls.
Qed.

Lemma run_configuration_errors_witness :
  run (A := PlainURL.api)
      (Sample.world_of [("rss_urls", " , ,"); ("github_token", "t0ken")]%string
                       [] [])
  = [EvSetFailed (lit "No RSS URLs provided.")].
Proof.
  refine (proj2 (proj2 (run_configuration_errors (A := PlainURL.api) _))
            _ _ _); decide_by_compute.
Defined.

(** X16: a run whose feeds give no record (every feed fails, is empty, or
    holds only items without link and guid) ends without failure and
    without touching the file, git or the hosting API; it sets [pr_url]
    to the empty string and [new_items_count] to "0". *)
Theorem run_nothing_fetched {A : URLApi} (w : world) :
  getInput (w_env w) "rss_urls" ≠ [] →
  getInput (w_env w) "github_token" ≠ [] →
  rssUrlsOf (getInput (w_env w) "rss_urls") ≠ [] →
  fetched w (rssUrlsOf (getInput (w_env w) "rss_urls")) = [] →
  Forall (λ e, ¬ is_action e ∧ ¬ is_failure e) (run w) ∧
  written (run w) = [] ∧
  outputs (run w) = [(lit "pr_url", []); (lit "new_items_count", lit "0")].
Proof.
  intros Hraw Htok Hurls Hnone.
  destruct (getInput (w_env w) "rss_urls") as [|c raw] eqn:Er; [done|].
  destruct (getInput (w_env w) "github_token") as [|c' token] eqn:Et; [done|].
  destruct (rssUrlsOf (c :: raw)) as [|u us] eqn:Eu; [done|].
  destruct (gather_fetch w c c' raw token u us) as (tf & Htf & Hg); [done..|].
  rewrite Hnone in Hg. unfold run, run_steps. rewrite Hg. cbn [mbind M_bind fst].
  split; [|split].
  - apply Forall_app. split; [by apply quiet_harmless|].
    repeat constructor; cbn; tauto.
  - by rewrite written_app, quiet_written.
  - by rewrite outputs_app, quiet_outputs.
Qed.

Lemma run_nothing_fetched_witness :
  outputs (run (A := PlainURL.api)
             (Sample.world_of Sample.inputs0
                [Item (Some (lit "No link")) None (Some []) None] []))
  = [(lit "pr_url", []); (lit "new_items_count", lit "0")].
Proof.
  refine (proj2 (proj2 (run_nothing_fetched (A := PlainURL.api) _ _ _ _ _)));
    try decide_by_compute.
Defined.

Section RunActions.
Context {A : URLApi}.

Lemma dedup_nil_r (freshItems : list link) : dedup freshItems [] = freshItems.
Proof.
  unfold dedup. apply filter_id_Forall. apply Forall_forall.
  intros i _. unfold existingBaseUrls. cbn. set_solver.
Qed.

(** The time stamp of the branch name. *)
Lemma timestamp_units (now : list N) :
  let ts := slice 0 19
              (map (λ c, if (c =? 58)%N || (c =? 46)%N then DASH else c) now) in
  length ts ≤ 19 ∧ Forall (λ c, c ≠ 58%N ∧ c ≠ 46%N) ts.
Proof.
  cbn zeta. unfold slice. split; [rewrite length_take; lia|].
  apply Forall_take. rewrite drop_0. apply Forall_forall.
  intros c (x & -> & _)%(list_elem_of_fmap_1 _ now c).
  destruct ((x =? 58)%N || (x =? 46)%N) eqn:Hx; [done|].
  apply orb_false_iff in Hx as [H1%N.eqb_neq H2%N.eqb_neq]. done.
Qed.

Lemma publish_actions (w : world) (g : gathered) (newItems : list link) :
  let ts := slice 0 19
              (map (λ c, if (c =? 58)%N || (c =? 46)%N then DASH else c)
                   (w_now w)) in
  let branchName := g_branchPfx g ++ lit "/" ++ ts in
  let merged := mergeLinks (g_maxLinks g) newItems (links (g_parsed g)) in
  let fileDir := w_dirname w (g_filePath g) in
  actions (publish w g newItems).1
  = (if w_exists w fileDir then [] else [EvMkdir fileDir]) ++
    [ EvWriteFile (g_filePath g)
        (before (g_parsed g) ++ renderSection merged.1 ++ after (g_parsed g));
      EvExec (lit "git")
        [lit "config"; lit "--local"; lit "user.email";
         lit "41898282+github-actions[bot]@users.noreply.github.com"];
      EvExec (lit "git")
        [lit "config"; lit "--local"; lit "user.name";
         lit "github-actions[bot]"];
      EvExec (lit "git")
        [lit "remote"; lit "set-url"; lit "origin";
         lit "https://x-access-token:" ++ g_token g ++ lit "@github.com/" ++
         w_owner w ++ lit "/" ++ w_repo w ++ lit ".git"];
      EvExec (lit "git") [lit "checkout"; lit "-b"; branchName];
      EvExec (lit "git") [lit "add"; g_outputFile g];
      EvExec (lit "git")
        [lit "commit"; lit "-m";
         lit "chore(rss): add " ++ String_of_nat (length newItems) ++
         lit " new link(s) [automated]"];
      EvExec (lit "git")
        [lit "push"; lit "--set-upstream"; lit "origin"; branchName];
      EvPullsCreate
        (lit "chore(rss): " ++ String_of_nat (length newItems) ++
         lit " new link(s) " ++ [8212%N] ++ lit " " ++ slice 0 10 ts)
        branchName (g_baseBranch g)
        (prBody (w_owner w) (w_repo w) (g_maxLinks g) merged.2 newItems) ].
Proof.
  cbn zeta. unfold publish.
  destruct (mergeLinks _ _ _) as [allLinks removedCount].
  destruct (length_gt _ _), (w_exists w _); reflexivity.
Qed.

End RunActions.

(** X17: a run that finds new items acts on the outside in one fixed order:
    it creates the directory of the output file when it is missing,
    writes the file, then runs seven git commands (two [config], the
    remote with the token, [checkout -b], [add] of the output file only,
    [commit], [push]) and opens one pull request.  The branch checked out
    is the branch pushed and the head of the pull request; its name is the
    prefix, a slash and a time stamp of at most 19 units without colon or
    dot; the base of the pull request is the base branch.  The run
    reports no failure. *)
Theorem run_actions {A : URLApi} (w : world) (t : list event) (g : gathered) :
  gather w = (t, Some g) →
  dedup (g_freshItems g) (links (g_parsed g)) ≠ [] →
  let newItems := dedup (g_freshItems g) (links (g_parsed g)) in
  let merged := mergeLinks (g_maxLinks g) newItems (links (g_parsed g)) in
  let fileDir := w_dirname w (g_filePath g) in
  ∃ ts,
    length ts ≤ 19 ∧ Forall (λ c, c ≠ 58%N ∧ c ≠ 46%N) ts ∧
    actions (run w)
    = (if w_exists w fileDir then [] else [EvMkdir fileDir]) ++
      [ EvWriteFile (g_filePath g)
          (before (g_parsed g) ++ renderSection merged.1 ++
           after (g_parsed g));
        EvExec (lit "git")
          [lit "config"; lit "--local"; lit "user.email";
           lit "41898282+github-actions[bot]@users.noreply.github.com"];
        EvExec (lit "git")
          [lit "config"; lit "--local"; lit "user.name";
           lit "github-actions[bot]"];
        EvExec (lit "git")
          [lit "remote"; lit "set-url"; lit "origin";
           lit "https://x-access-token:" ++ g_token g ++
           lit "@github.com/" ++ w_owner w ++ lit "/" ++ w_repo w ++
           lit ".git"];
        EvExec (lit "git")
          [lit "checkout"; lit "-b"; g_branchPfx g ++ lit "/" ++ ts];
        EvExec (lit "git") [lit "add"; g_outputFile g];
        EvExec (lit "git")
          [lit "commit"; lit "-m";
           lit "chore(rss): add " ++ String_of_nat (length newItems) ++
           lit " new link(s) [automated]"];
        EvExec (lit "git")
          [lit "push"; lit "--set-upstream"; lit "origin";
           g_branchPfx g ++ lit "/" ++ ts];
        EvPullsCreate
          (lit "chore(rss): " ++ String_of_nat (length newItems) ++
           lit " new link(s) " ++ [8212%N] ++ lit " " ++ slice 0 10 ts)
          (g_branchPfx g ++ lit "/" ++ ts) (g_baseBranch g)
          (prBody (w_owner w) (w_repo w) (g_maxLinks g) merged.2 newItems) ] ∧
    Forall (λ e, ¬ is_failure e) (run w).
Proof.
  intros Hg Hnew. cbn zeta.
  pose proof (timestamp_units (w_now w)) as [Hlen Hts].
  eexists. split; [exact Hlen|]. split; [exact Hts|].
  rewrite (run_publish w t g Hg Hnew). split.
  - rewrite actions_app, quiet_actions by by eapply gather_quiet.
    by rewrite publish_actions.
  - apply Forall_app. split.
    + eapply Forall_impl; [by eapply quiet_harmless, gather_quiet|].
      cbn. tauto.
    + unfold publish. destruct (mergeLinks _ _ _) as [allLinks removedCount].
      destruct (length_gt _ _), (w_exists w _); repeat constructor; cbn; tauto.
Qed.

Lemma run_actions_witness :
  length (actions (run (A := PlainURL.api) Sample.w_cap)) = 9.
Proof.
  edestruct (run_actions (A := PlainURL.api) Sample.w_cap)
    as (ts & _ & _ & Hacts & _);
    [vm_compute; reflexivity | decide_by_compute | ].
  rewrite Hacts. reflexivity.
Defined.

(** X18: when the output file does not exist, a run that fetched records
    writes the heading [# RSS Links], a blank line and the section of all
    the fetched records, decorated and cut to the cap, and reports all
    of them as new. *)
Theorem run_creates_file {A : URLApi} (w : world) :
  let urls := rssUrlsOf (getInput (w_env w) "rss_urls") in
  let filePath :=
    w_resolve w (or_else (Some (getInput (w_env w) "output_file"))
                         (lit "links.md")) in
  let fresh :=
    map (λ item, Link (title item)
                      (addUTM (url item) (w_owner w) (w_repo w)) (date item))
        (fetched w urls) in
  getInput (w_env w) "github_token" ≠ [] →
  fetched w urls ≠ [] →
  w_exists w filePath = false →
  written (run w)
  = [(filePath,
      lit "# RSS Links" ++ [LF; LF] ++
      renderSection (mergeLinks (maxLinksOf (w_env w)) fresh []).1 ++ [LF])] ∧
  outputs (run w)
  = [(lit "pr_url", w_pr_html_url w);
     (lit "new_items_count", String_of_nat (length fresh))].
Proof.
  cbn zeta. intros Htok Hsome Hmissing.
  destruct (getInput (w_env w) "rss_urls") as [|c raw] eqn:Er; [done|].
  destruct (getInput (w_env w) "github_token") as [|c' token] eqn:Et; [done|].
  destruct (rssUrlsOf (c :: raw)) as [|u us] eqn:Eu; [done|].
  destruct (gather_fetch w c c' raw token u us) as (tf & Htf & Hg); [done..|].
  cbn zeta in Hg. rewrite Hmissing, parseSection_seed in Hg.
  destruct (fetched w (u :: us)) as [|l ls] eqn:Ef; [done|].
  assert (dedup (g_freshItems (Gathered (maxLinksOf (w_env w))
            (or_else (Some (getInput (w_env w) "output_file")) (lit "links.md"))
            (c' :: token)
            (or_else (Some (getInput (w_env w) "branch_prefix"))
                     (lit "rss-update"))
            (or_else (Some (getInput (w_env w) "base_branch")) (lit "main"))
            (map (λ item, Link (title item)
                            (addUTM (url item) (w_owner w) (w_repo w))
                            (date item)) (l :: ls))
            (w_resolve w (or_else (Some (getInput (w_env w) "output_file"))
                                  (lit "links.md")))
            (Section_ (lit "# RSS Links" ++ [LF; LF]) [LF] []))) []
          = map (λ item, Link (title item)
                            (addUTM (url item) (w_owner w) (w_repo w))
                            (date item)) (l :: ls)) as Hd
    by apply dedup_nil_r.
  rewrite (run_publish w _ _ Hg) by (cbn [g_parsed links]; by rewrite Hd).
  rewrite outputs_app, written_app, publish_outputs, publish_written.
  rewrite quiet_outputs, quiet_written
    by (apply Forall_app; split; [done|by repeat constructor]).
  cbn [g_parsed links g_freshItems g_filePath g_maxLinks before after] in *.
  rewrite Hd. cbn [app]. by rewrite <- !(assoc_L (++)).
Qed.

Lemma run_creates_file_witness :
  let w := World (Sample.env_of Sample.inputs0) (lit "o") (lit "r")
                 (λ _, Feed [Sample.mk_item "A"])
                 (lit "2026-11-03T02:32:10.123Z")
                 (λ _, Some (lit "2024-05-06T07:08:09.000Z"))
                 (λ f, lit "/repo/" ++ f) (λ _, lit "/repo")
                 (λ p, bool_decide (p = lit "/repo")) (λ _, [])
                 (lit "https://github.com/o/r/pull/7") in
  written (run (A := PlainURL.api) w)
  = [(lit "/repo/links.md",
      lit "# RSS Links" ++ [LF; LF] ++
      renderSection
        [Link (lit "A")
           (lit "https://x.com/A?utm_source=github&utm_medium=o&utm_campaign=r")
           (lit "2024-05-06")] ++ [LF])].
Proof.
  cbv zeta.
  refine (eq_trans (proj1 (run_creates_file (A := PlainURL.api) _ _ _ _)) _);
    [decide_by_compute | decide_by_compute | reflexivity | by vm_compute].
Defined.

(** ** Running again *)

Section MergeAgain.
Context {A : URLApi}.

Lemma dedup_nil_iff (freshItems existingLinks : list link) :
  dedup freshItems existingLinks = [] ↔
  ∀ i, i ∈ freshItems →
       ∃ e, e ∈ existingLinks ∧ stripUTM (url e) = stripUTM (url i).
Proof.
  split.
  - intros Hnil i Hi.
    destruct (decide (stripUTM (url i) ∈ existingBaseUrls existingLinks))
      as [Hin|Hout].
    + apply elem_of_existingBaseUrls in Hin as (e & He & Heq). by exists e.
    + assert (i ∈ dedup freshItems existingLinks) as Hd
        by by apply list_elem_of_filter.
      rewrite Hnil in Hd. by apply elem_of_nil in Hd.
  - intros Hall. apply elem_of_nil_inv. intros i [Hi Hno]%elem_of_dedup.
    destruct (Hall i Hi) as (e & He & Heq). by apply (Hno e He).
Qed.

End MergeAgain.

(** X19: once the new items of a run are in the list and nothing was cut, the
    same fresh items hold nothing new: the run that follows finds no new
    item.  The new items of a run hold nothing that is new a second time
    against the same list, and against an empty list every fresh item is
    new. *)
Theorem dedup_settles {A : URLApi} (maxLinks : number)
    (freshItems existingLinks : list link) :
  let newItems := dedup freshItems existingLinks in
  dedup freshItems (newItems ++ existingLinks) = [] ∧
  ((mergeLinks maxLinks newItems existingLinks).2 = Int 0 →
   dedup freshItems (mergeLinks maxLinks newItems existingLinks).1 = []) ∧
  dedup newItems existingLinks = newItems ∧
  dedup freshItems [] = freshItems.
Proof.
  cbn zeta.
  assert (dedup freshItems (dedup freshItems existingLinks ++ existingLinks)
          = []) as Hsettled.
  { apply dedup_nil_iff. intros i Hi.
    destruct (decide (stripUTM (url i) ∈ existingBaseUrls existingLinks))
      as [Hin|Hout].
    - apply elem_of_existingBaseUrls in Hin as (e & He & Heq).
      exists e. split; [|done]. apply elem_of_app. by right.
    - exists i. split; [|done]. apply elem_of_app. left.
      by apply list_elem_of_filter. }
  split; [done|]. split; [|split].
  - unfold mergeLinks. destruct (length_gt _ maxLinks) eqn:Hgt; [|done].
    destruct maxLinks as [|z]; [done|]. cbn in Hgt. apply Z.ltb_lt in Hgt.
    cbn. intros [= Hz]. lia.
  - apply filter_id_Forall. apply Forall_forall.
    by intros i [Hi _]%list_elem_of_filter.
  - apply dedup_nil_r.
Qed.

Lemma dedup_settles_witness :
  dedup (A := PlainURL.api) Sample.cap_fresh
    (mergeLinks (Int 10)
       (dedup (A := PlainURL.api) Sample.cap_fresh Sample.cap_existing)
       Sample.cap_existing).1
  = [].
Proof.
  refine (proj1 (proj2 (dedup_settles (A := PlainURL.api) (Int 10)
            Sample.cap_fresh Sample.cap_existing)) _).
  reflexivity.
Defined.

(** X20: whatever the [max_links] input holds, the merged list is a prefix of
    the new items followed by the existing links, and it starts with the
    first of them: the newest new item is never the one cut, and the
    list written is empty only when there is nothing to write. *)
Theorem mergeLinks_keeps_newest (env : list N → option (list N))
    (newItems existingLinks : list link) :
  let merged := (mergeLinks (maxLinksOf env) newItems existingLinks).1 in
  merged `prefix_of` newItems ++ existingLinks ∧
  head merged = head (newItems ++ existingLinks) ∧
  (merged = [] ↔ newItems = [] ∧ existingLinks = []).
Proof.
  cbn zeta.
  assert (∃ n, 1 ≤ n ∧
               (mergeLinks (maxLinksOf env) newItems existingLinks).1
               = take n (newItems ++ existingLinks)) as (n & Hn & ->).
  { unfold mergeLinks, maxLinksOf, max1.
    destruct (parseInt10 _) as [|z]; cbn [length_gt slice0].
    - exists (S (length (newItems ++ existingLinks))). split; [lia|].
      cbn [fst]. rewrite take_ge; [done|lia].
    - exists (Z.to_nat (Z.max 1 z)). split; [lia|].
      destruct (Z.max 1 z <? _)%Z eqn:Hlt; cbn [fst].
      + by replace (Z.max 1 z <? 0)%Z with false
          by (symmetry; apply Z.ltb_ge; lia).
      + apply Z.ltb_ge in Hlt. rewrite take_ge; [done|lia]. }
  split; [apply prefix_take|].
  destruct (newItems ++ existingLinks) as [|l ls] eqn:Hall.
  - apply app_eq_nil in Hall as [-> ->]. by rewrite take_nil.
  - destruct n as [|n]; [lia|]. cbn [take head]. split; [done|].
    split; [done|]. by intros [-> ->].
Qed.

(** ** A document with a stray end marker *)

Lemma starts_with_app_short (pat a b : list N) :
  length pat ≤ length a → starts_with pat (a ++ b) = starts_with pat a.
Proof.
  revert a. induction pat as [|p pat IH]; intros [|c a] Hlen; cbn in *;
    [done|done|lia|].
  by rewrite IH by lia.
Qed.

Lemma indexOf_app_Some (pat a b : list N) (i : nat) :
  indexOf pat a = Some i → indexOf pat (a ++ b) = Some i.
Proof.
  revert i. induction a as [|c a IH]; intros i Hi.
  - pose proof (indexOf_bound _ _ _ Hi) as Hb. cbn in Hb.
    destruct pat; [|cbn in Hb; lia]. destruct i; [|cbn in Hb; lia].
    by destruct b.
  - pose proof (indexOf_bound _ _ _ Hi) as Hb.
    cbn [indexOf] in Hi. cbn [app indexOf].
    change (c :: a ++ b) with ((c :: a) ++ b).
    rewrite starts_with_app_short by lia.
    destruct (starts_with pat (c :: a)); [done|].
    destruct (indexOf pat a) as [i'|]; [|done].
    by rewrite (IH i').
Qed.

Lemma indexOf_take_Some (pat s : list N) (i n : nat) :
  indexOf pat s = Some i → i + length pat ≤ n → indexOf pat (take n s) = Some i.
Proof.
  intros Hi Hn. destruct (indexOf pat (take n s)) as [j|] eqn:Hj.
  - pose proof (indexOf_app_Some _ _ (drop n s) _ Hj) as Hj'.
    rewrite take_drop in Hj'. congruence.
  - exfalso. apply indexOf_first in Hi as [Hhit _].
    rewrite indexOf_None_iff in Hj. specialize (Hj i).
    rewrite <- (take_drop n s) in Hhit.
    destruct (decide (n ≤ length s)) as [Hle|Hgt].
    + rewrite drop_app_le in Hhit by (rewrite length_take; lia).
      rewrite starts_with_app_short in Hhit
        by (rewrite length_drop, length_take; lia).
      congruence.
    + rewrite take_ge in Hj by lia. rewrite take_drop in Hhit. congruence.
Qed.

Lemma indexOf_trimEnd (pat s : list N) (i : nat) (c : N) :
  last pat = Some c → is_space c = false →
  indexOf pat s = Some i → indexOf pat (trimEnd s) = Some i.
Proof.
  intros Hlast Hc Hi. destruct (trimEnd_split s) as (ws & Hs & Hws).
  assert (i + length pat ≤ length (trimEnd s)) as Hin.
  { destruct (decide (i + length pat ≤ length (trimEnd s))) as [|Hout];
      [done|exfalso].
    pose proof (indexOf_split _ _ _ Hi) as Hsplit.
    pose proof (indexOf_bound _ _ _ Hi) as Hb.
    assert (0 < length pat) as Hpos by (destruct pat; [done|cbn; lia]).
    assert (s !! (i + length pat - 1) = Some c) as Hlook.
    { rewrite Hsplit. rewrite lookup_app_r by (rewrite length_take; lia).
      rewrite length_take, Nat.min_l by lia.
      destruct pat as [|p pat] using rev_ind; [done|].
      rewrite last_snoc in Hlast. injection Hlast as ->.
      rewrite length_app. cbn [length].
      rewrite lookup_app_l by (rewrite length_app; cbn; lia).
      rewrite lookup_app_r by lia.
      by replace (i + (length pat + 1) - 1 - i - length pat) with 0 by lia. }
    rewrite Hs, lookup_app_r in Hlook by lia.
    apply list_elem_of_lookup_2 in Hlook.
    rewrite Forall_forall in Hws. rewrite (Hws c Hlook) in Hc. done. }
  rewrite <- (indexOf_take_Some pat s i (length (trimEnd s)) Hi Hin).
  f_equal. remember (trimEnd s) as T. subst s. by rewrite take_app_length.
Qed.

(** X21: a document whose first end marker comes before any start marker is
    never repaired.  The parser answers with the whole document as prefix
    and no entry; and in the document written from that answer, whatever
    the entries, the section appended is not found either: the next run
    reads no entry from it and appends one more section. *)
Theorem stray_end_marker_stays (today today' content : list N) (ei : nat)
    (entries : list link) :
  indexOf MARKER_END content = Some ei →
  (∀ si, indexOf MARKER_START content = Some si → ei ≤ si) →
  let p := parseSection today content in
  let document := before p ++ renderSection entries ++ after p in
  p = Section_ (trimEnd content ++ [LF; LF]) [LF] [] ∧
  parseSection today' document
  = Section_ (trimEnd document ++ [LF; LF]) [LF] [].
Proof.
  intros He Hs. cbn zeta.
  assert (indexOf MARKER_END (trimEnd content) = Some ei) as HeT.
  { apply (indexOf_trimEnd _ _ _ 62%N); done. }
  assert (fallback content = Section_ (trimEnd content ++ [LF; LF]) [LF] [])
    as Hfb.
  { unfold fallback. destruct (trimEnd content); [|done].
    apply indexOf_bound in HeT. cbn in HeT. lia. }
  rewrite (parseSection_fallback today content), Hfb
    by (intros si ei' Hsi [= <-]%(eq_trans (eq_sym He)); by apply Hs).
  cbn [before after]. split; [done|].
  set (document := (trimEnd content ++ [LF; LF]) ++ renderSection entries ++
                   [LF]).
  assert (indexOf MARKER_END document = Some ei) as Hed.
  { unfold document. rewrite <- (assoc_L (++)). by apply indexOf_app_Some. }
  assert (∀ si, indexOf MARKER_START document = Some si → ei ≤ si) as Hsd.
  { intros si Hsi.
    destruct (indexOf MARKER_START content) as [si0|] eqn:Hs0.
    - assert (indexOf MARKER_START document = Some si0) as Hsi0.
      { unfold document. rewrite <- (assoc_L (++)). apply indexOf_app_Some.
        apply (indexOf_trimEnd _ _ _ 62%N); done. }
      rewrite Hsi0 in Hsi. injection Hsi as <-. by apply Hs.
    - destruct (decide (ei ≤ si)) as [|Hlt]; [done|exfalso].
      assert (indexOf MARKER_START (trimEnd content ++ [LF; LF]) = None)
        as Hnone.
      { apply indexOf_None_blank_line; [decide_by_compute|done|].
        destruct (trimEnd_split content) as (ws & Hc & _).
        rewrite Hc in Hs0. by apply indexOf_None_app_l in Hs0. }
      apply indexOf_bound in HeT.
      change (length MARKER_END) with 23 in HeT.
      apply indexOf_first in Hsi as [Hhit _].
      rewrite indexOf_None_iff in Hnone. specialize (Hnone si).
      unfold document in Hhit.
      rewrite drop_app_le in Hhit by (rewrite length_app; cbn; lia).
      rewrite starts_with_app_short in Hhit; [congruence|].
      rewrite length_drop, length_app.
      change (length MARKER_START) with 25. cbn [length]. lia. }
  rewrite (parseSection_fallback today' document)
    by (intros si ei' Hsi [= <-]%(eq_trans (eq_sym Hed)); by apply Hsd).
  unfold fallback. destruct (trimEnd document) eqn:Hd; [|done].
  assert (indexOf MARKER_END (trimEnd document) = Some ei) as HeD
    by (apply (indexOf_trimEnd _ _ _ 62%N); done).
  rewrite Hd in HeD. apply indexOf_bound in HeD. cbn in HeD. lia.
Qed.

Lemma stray_end_marker_stays_witness :
  parseSection Sample.today0
    (before (parseSection Sample.today0 Sample.stray_end) ++
     renderSection [Sample.e2] ++
     after (parseSection Sample.today0 Sample.stray_end))
  = Section_
      (trimEnd (before (parseSection Sample.today0 Sample.stray_end) ++
                renderSection [Sample.e2] ++
                after (parseSection Sample.today0 Sample.stray_end)) ++
       [LF; LF])
      [LF] [].
Proof.
  refine (proj2 (stray_end_marker_stays Sample.today0 Sample.today0
            Sample.stray_end 0 [Sample.e2] _ _)); [by vm_compute|].
  intros si _. lia.
Defined.

(** ** The run that follows a run *)

Lemma parseSection_rewritten (today today' content : list N)
    (entries : list link) :
  section_or_none content → Forall wf_link entries →
  parseSection today'
    (before (parseSection today content) ++ renderSection entries ++
     after (parseSection today content))
  = Section_ (before (parseSection today content))
             (after (parseSection today content)) entries.
Proof.
  intros [(si & ei & Hs & He & Hlt)|[Hs He]] Hwf.
  - assert (before (parseSection today content) = take si content) as ->.
    { unfold parseSection. rewrite Hs, He.
      replace (ei <=? si) with false by (symmetry; apply Nat.leb_gt; lia).
      cbn [before]. unfold slice. by rewrite drop_0, Nat.sub_0_r. }
    apply parseSection_rendered; [done|..].
    + apply (indexOf_take_None _ _ si); [done|]. cbn. lia.
    + apply (indexOf_take_None _ _ ei); [done|]. lia.
  - rewrite (parseSection_fallback today content) by congruence.
    unfold fallback. cbn [before after].
    destruct (trimEnd_split content) as (ws & Hc & _).
    rewrite Hc in Hs, He. apply indexOf_None_app_l in Hs, He.
    apply parseSection_rendered; [done|..]; destruct (trimEnd content);
      try done; apply indexOf_None_blank_line; try done; decide_by_compute.
Qed.

Lemma pushItems_with_file (w : world) (path content : list N)
    (items : list item) :
  pushItems (with_file w path content) items = pushItems w items.
Proof.
  induction items as [|it items IH]; [done|]. by rewrite !pushItems_cons, IH.
Qed.

Lemma fetchFeeds_with_file (w : world) (path content : list N)
    (us : list (list N)) :
  fetchFeeds (with_file w path content) us = fetchFeeds w us.
Proof.
  induction us as [|u us IH]; [done|]. cbn [fetchFeeds].
  rewrite IH. cbn [w_parseURL with_file].
  destruct (w_parseURL w u); [done|]. by rewrite pushItems_with_file.
Qed.

(** X22: a run that writes a well-formed list without cutting it settles the
    file: with the same feeds, the run that follows reads the file
    written, finds every fetched item in it and changes nothing.  It
    touches neither the file, nor git, nor the hosting API, and sets
    [new_items_count] to "0". *)
Theorem run_again_changes_nothing {A : URLApi} (w : world) :
  let urls := rssUrlsOf (getInput (w_env w) "rss_urls") in
  let filePath :=
    w_resolve w (or_else (Some (getInput (w_env w) "output_file"))
                         (lit "links.md")) in
  let fresh :=
    map (λ item, Link (title item)
                      (addUTM (url item) (w_owner w) (w_repo w)) (date item))
        (fetched w urls) in
  let content := if w_exists w filePath then w_read w filePath else seed in
  let parsed := parseSection (today w) content in
  let newItems := dedup fresh (links parsed) in
  let merged := mergeLinks (maxLinksOf (w_env w)) newItems (links parsed) in
  let document := before parsed ++ renderSection merged.1 ++ after parsed in
  getInput (w_env w) "github_token" ≠ [] →
  newItems ≠ [] →
  section_or_none content →
  Forall wf_link merged.1 →
  merged.2 = Int 0 →
  written (run w) = [(filePath, document)] ∧
  Forall (λ e, ¬ is_action e ∧ ¬ is_failure e)
         (run (with_file w filePath document)) ∧
  written (run (with_file w filePath document)) = [] ∧
  outputs (run (with_file w filePath document))
  = [(lit "pr_url", []); (lit "new_items_count", lit "0")].
Proof.
  cbn zeta. intros Htok Hnew Hmarkers Hwf Hkept.
  destruct (getInput (w_env w) "rss_urls") as [|c raw] eqn:Er; [done|].
  destruct (getInput (w_env w) "github_token") as [|c' token] eqn:Et; [done|].
  destruct (rssUrlsOf (c :: raw)) as [|u us] eqn:Eu; [done|].
  set (outputFile := or_else (Some (getInput (w_env w) "output_file"))
                             (lit "links.md")) in *.
  set (filePath := w_resolve w outputFile) in *.
  set (content := if w_exists w filePath then w_read w filePath else seed) in *.
  set (parsed := parseSection (today w) content) in *.
  destruct (fetched w (u :: us)) as [|l ls] eqn:Ef; [done|].
  set (fresh := map (λ item, Link (title item)
                               (addUTM (url item) (w_owner w) (w_repo w))
                               (date item)) (l :: ls)) in *.
  set (merged := mergeLinks (maxLinksOf (w_env w)) (dedup fresh (links parsed))
                            (links parsed)) in *.
  set (document := before parsed ++ renderSection merged.1 ++ after parsed).
  (* the first run *)
  destruct (gather_fetch w c c' raw token u us) as (tf & Htf & Hg); [done..|].
  cbn zeta in Hg. rewrite Ef in Hg.
  fold outputFile filePath in Hg.
  replace (if w_exists w filePath then w_read w filePath else seed)
    with content in Hg by done.
  fold parsed fresh in Hg.
  split.
  { rewrite (run_publish w _ _ Hg) by done.
    rewrite written_app, publish_written, quiet_written; [done|].
    apply Forall_app. split; [done|]. destruct (w_exists w filePath);
      by repeat constructor. }
  (* the run that follows *)
  set (w' := with_file w filePath document).
  destruct (gather_fetch w' c c' raw token u us) as (tf' & Htf' & Hg');
    [done..|].
  cbn zeta in Hg'. unfold fetched, w' in Hg'.
  rewrite fetchFeeds_with_file in Hg'. fold (fetched w (u :: us)) in Hg'.
  rewrite Ef in Hg'. cbn [w_env w_owner w_repo w_resolve with_file] in Hg'.
  fold outputFile filePath fresh in Hg'.
  assert (w_exists (with_file w filePath document) filePath = true) as Hex
    by (cbn; by rewrite decide_True).
  assert (w_read (with_file w filePath document) filePath = document) as Hrd
    by (cbn; by rewrite decide_True).
  assert (parseSection (today w) document
          = Section_ (before parsed) (after parsed) merged.1) as Hparse
    by by apply parseSection_rewritten.
  rewrite Hex, Hrd in Hg'.
  replace (today (with_file w filePath document)) with (today w) in Hg' by done.
  rewrite Hparse in Hg'.
  assert (merged.1 = dedup fresh (links parsed) ++ links parsed) as Hall.
  { unfold merged, mergeLinks in Hkept |- *.
    destruct (length_gt _ _) eqn:Hgt; [|done]. exfalso.
    destruct (maxLinksOf (w_env w)) as [|z]; [done|].
    cbn in Hgt, Hkept. apply Z.ltb_lt in Hgt. injection Hkept as Hz. lia. }
  assert (dedup fresh merged.1 = []) as Hsettled.
  { rewrite Hall. apply dedup_nil_iff. intros i Hi.
    destruct (decide (stripUTM (url i) ∈ existingBaseUrls (links parsed)))
      as [Hin|Hout].
    - apply elem_of_existingBaseUrls in Hin as (e & He & Heq).
      exists e. split; [|done]. apply elem_of_app. by right.
    - exists i. split; [|done]. apply elem_of_app. left.
      by apply list_elem_of_filter. }
  rewrite (run_no_change w' _ _ Hg') by done.
  assert (Forall quiet (tf' ++ [])) as Hq by by rewrite app_nil_r.
  split; [|split].
  - apply Forall_app. split; [by apply quiet_harmless|].
    repeat constructor; cbn; tauto.
  - by rewrite written_app, quiet_written.
  - by rewrite outputs_app, quiet_outputs.
Qed.

Lemma run_again_changes_nothing_witness :
  outputs (run (A := PlainURL.api)
             (with_file
                (Sample.world_of Sample.inputs0 [Sample.mk_item "D"]
                   (Sample.file_with [Sample.mk_link "A"]))
                (lit "/repo/links.md")
                (Sample.file_with
                   [Link (lit "D")
                      (lit "https://x.com/D?utm_source=github&utm_medium=o&utm_campaign=r")
                      (lit "2024-05-06");
                    Sample.mk_link "A"])))
  = [(lit "pr_url", []); (lit "new_items_count", lit "0")].
Proof.
  refine (proj2 (proj2 (proj2
            (run_again_changes_nothing (A := PlainURL.api)
               (Sample.world_of Sample.inputs0 [Sample.mk_item "D"]
                  (Sample.file_with [Sample.mk_link "A"])) _ _ _ _ _))));
    [decide_by_compute | decide_by_compute | | | by vm_compute].
  - left. exists 13, 75. split; [by vm_compute|]. split; [by vm_compute|lia].
  - repeat constructor; try done; decide_by_compute.
Defined.

(** ** Entries without date *)

Lemma indexOf_end_after_start (body : list N) :
  indexOf MARKER_END body = None →
  indexOf MARKER_END (MARKER_START ++ body) = None.
Proof.
  rewrite !indexOf_None_iff. intros Hbody j.
  destruct (decide (j = 0)) as [->|Hj0]; [reflexivity|].
  destruct (decide (j < length MARKER_START)) as [Hlt|Hge].
  - apply marker_no_overlap. lia.
  - rewrite drop_app_ge by lia. apply Hbody.
Qed.

(** A section between its markers, after a text without marker: the
    entries are those of the text between the markers when that text
    holds no end marker. *)
Lemma parseSection_between (today pre body post : list N) :
  indexOf MARKER_START pre = None → indexOf MARKER_END pre = None →
  indexOf MARKER_END body = None →
  parseSection today (pre ++ MARKER_START ++ body ++ MARKER_END ++ post)
  = Section_ pre post (matchLinks today body).
Proof.
  intros Hs He Hb.
  assert (indexOf MARKER_START (pre ++ MARKER_START ++ body ++ MARKER_END ++ post)
          = Some (length pre)) as Hsi.
  { destruct MARKER_START_shape as (tl & Heq & Htl).
    rewrite Heq in Hs |- *. cbn [app]. rewrite indexOf_past by done.
    change (60%N :: tl ++ ?x) with ((60%N :: tl) ++ x).
    rewrite indexOf_head. cbn. f_equal. lia. }
  assert (indexOf MARKER_END (pre ++ MARKER_START ++ body ++ MARKER_END ++ post)
          = Some (length pre + (length MARKER_START + length body))) as Hei.
  { apply indexOf_end_after_start in Hb.
    destruct MARKER_END_shape as (tl & Heq & Htl).
    assert (indexOf MARKER_END
              ((MARKER_START ++ body) ++ MARKER_END ++ post)
            = Some (length (MARKER_START ++ body))) as Hin.
    { rewrite Heq in Hb |- *. cbn [app]. rewrite indexOf_past by done.
      change (60%N :: tl ++ ?x) with ((60%N :: tl) ++ x).
      rewrite indexOf_head. cbn. f_equal. lia. }
    rewrite <- (assoc_L (++)) in Hin. revert Hin.
    change MARKER_START with (60%N :: drop 1 MARKER_START) at 1 3.
    cbn [app]. rewrite Heq in He |- *. intros Hin.
    rewrite indexOf_past by done. rewrite Hin.
    cbn [fmap option_fmap option_map]. by rewrite length_app. }
  unfold parseSection. rewrite Hsi, Hei.
  replace (_ <=? length pre) with false
    by (symmetry; apply Nat.leb_gt; simpl; lia).
  unfold slice, slice_from. f_equal.
  - by rewrite drop_0, Nat.sub_0_r, take_app_length.
  - replace (length pre + (length MARKER_START + length body) + length MARKER_END)
      with (length (pre ++ MARKER_START ++ body ++ MARKER_END))
      by (rewrite !length_app; lia).
    replace (pre ++ MARKER_START ++ body ++ MARKER_END ++ post)
      with ((pre ++ MARKER_START ++ body ++ MARKER_END) ++ post)
      by (by rewrite <- !(assoc_L (++))).
    by rewrite drop_app_length.
  - replace (length pre + length MARKER_START)
      with (length (pre ++ MARKER_START)) by (by rewrite length_app).
    rewrite (assoc_L (++) pre), drop_app_length.
    replace (length pre + (length MARKER_START + length body)
             - length (pre ++ MARKER_START)) with (length body)
      by (rewrite length_app; lia).
    by rewrite take_app_length.
Qed.

Lemma matcher_date_absent (s : list N) pv cp :
  matcher (ROpt (rseq [ rlit " - "; RGroup 3 dateRe ]))
          (MState pv (LF :: s) cp) Some
  = Some (MState pv (LF :: s) cp).
Proof.
  cbn [matcher prev rest caps].
  rewrite matcher_rseq_cons, matcher_rlit. cbn [rest]. reflexivity.
Qed.

Lemma lineRe_undated (today : list N) (e : list N * list N) (s : list N) :
  wf_undated e →
  ∃ m, matcher lineRe (MState (Some LF) (undatedLine e ++ LF :: s) ∅) Some
       = Some m ∧
       rest m = LF :: s ∧ link_of_match today m = Link e.1 e.2 today.
Proof.
  intros (Ht & Htu & _ & Hu & Huu & _). destruct e as [t u].
  cbn [fst snd] in *.
  destruct t as [|tc t]; [done|]. destruct u as [|uc u]; [done|].
  eexists. split; [|split].
  - unfold lineRe, undatedLine. cbn [fst snd].
    rewrite matcher_rseq_cons. cbn [matcher prev].
    change (is_line_terminator LF) with true. cbn match.
    rewrite matcher_rseq_cons, matcher_rlit. cbn [rest prev caps].
    rewrite <- !(assoc_L (++)), starts_with_app, drop_app_length.
    rewrite matcher_rseq_cons. cbn [matcher rest prev caps].
    change (lit ")" ++ ?x) with (RPAREN :: x).
    apply rep_lazy_title; [done| |].
    { intros y Hy. rewrite matcher_rseq_cons, matcher_rlit. cbn [rest].
      change (lit "](") with [RBRACKET; LPAREN].
      by rewrite starts_with_head_ne. }
    cbn [prev rest caps].
    change (RBRACKET :: N_of_ascii "(" :: ?x) with (lit "](" ++ x).
    rewrite matcher_rseq_cons, matcher_rlit. cbn [rest prev caps].
    rewrite starts_with_app, drop_app_length.
    rewrite matcher_rseq_cons. cbn [matcher rest prev caps].
    apply rep_greedy_url; [done|].
    cbn [prev rest caps].
    rewrite matcher_rseq_cons. cbn [matcher rest prev caps].
    rewrite N.eqb_refl.
    rewrite matcher_rseq_cons.
    change (λ y, matcher (rseq []) y Some) with (Some : cont).
    rewrite matcher_date_absent. reflexivity.
  - reflexivity.
  - unfold link_of_match. cbn [caps].
    rewrite lookup_insert_eq.
    rewrite !lookup_insert_ne, lookup_insert_eq by done.
    rewrite !lookup_insert_ne, lookup_empty by done.
    rewrite !consumed_app. reflexivity.
Qed.

Lemma collect_undated (today : list N) (es : list (list N * list N)) :
  Forall wf_undated es →
  ∀ fuel pv, length es < fuel →
    collect fuel today pv (LF :: undated es)
    = Some (map (λ e, Link e.1 e.2 today) es).
Proof.
  induction 1 as [|e es He Hes IH]; intros [|fuel] pv Hfuel;
    simpl in Hfuel; try lia; cbn [collect]; rewrite exec_skip_LF.
  - by rewrite exec_nil.
  - cbn [undated].
    destruct (lineRe_undated today e (undated es) He)
      as (m & Hm & Hrest & Hlink).
    rewrite (exec_hit _ _ _ _ Hm), Hrest, Hlink, IH by lia. done.
Qed.

Lemma sealed_undated (es : list (list N * list N)) :
  Forall wf_undated es → sealed MARKER_END (undated es).
Proof.
  induction 1 as [|e es (_ & _ & Ht & _ & _ & Hu) _ IH]; [apply sealed_nil|].
  cbn [undated]. unfold undatedLine.
  replace ((lit "- [" ++ e.1 ++ lit "](" ++ e.2 ++ lit ")") ++ LF :: undated es)
    with ((lit "- " ++ [LBRACKET]) ++ (e.1 ++ [RBRACKET]) ++ ([] ++ [LPAREN]) ++
          (e.2 ++ [RPAREN]) ++ ([] ++ [LF]) ++ undated es)
    by (by rewrite <- !(assoc_L (++))).
  apply sealed_app; [|apply sealed_app; [|apply sealed_app;
    [|apply sealed_app; [|apply sealed_app; [|done]]]]].
  - apply sealed_short; [decide_by_compute|simpl; lia].
  - apply sealed_sep; [decide_by_compute|done|done].
  - apply sealed_short; [decide_by_compute|simpl; lia].
  - apply sealed_sep; [decide_by_compute|done|done].
  - apply sealed_short; [decide_by_compute|simpl; lia].
Qed.

(** X23: entries written without date, [- [title](url)], are read with the
    day of the run as their date: the next write stamps them with it. *)
Theorem undated_entries_read_today (today pre post : list N)
    (es : list (list N * list N)) :
  Forall wf_undated es →
  indexOf MARKER_START pre = None → indexOf MARKER_END pre = None →
  parseSection today
    (pre ++ MARKER_START ++ (LF :: undated es) ++ MARKER_END ++ post)
  = Section_ pre post (map (λ e, Link e.1 e.2 today) es).
Proof.
  intros Hes Hs He. rewrite parseSection_between; [|done..|].
  - f_equal. unfold matchLinks. rewrite collect_undated; [done..|].
    assert (length es ≤ length (undated es)); [|simpl; lia].
    clear. induction es as [|e es IH]; simpl; [lia|].
    rewrite length_app. simpl. lia.
  - pose proof (sealed_app MARKER_END [LF] (undated es)) as Hsealed.
    specialize (Hsealed (sealed_short MARKER_END [] LF
                           ltac:(decide_by_compute) ltac:(simpl; lia))
                        (sealed_undated es Hes) []).
    rewrite app_nil_r in Hsealed. exact Hsealed.
Qed.

Lemma undated_entries_read_today_witness :
  parseSection Sample.today0
    ((lit "# Links" ++ [LF]) ++ MARKER_START ++
     (LF :: undated [(lit "Hello", lit "https://x.com/a")]) ++
     MARKER_END ++ [LF])
  = Section_ (lit "# Links" ++ [LF]) [LF]
      [Link (lit "Hello") (lit "https://x.com/a") Sample.today0].
Proof.
  refine (undated_entries_read_today Sample.today0 (lit "# Links" ++ [LF])
            [LF] [(lit "Hello", lit "https://x.com/a")] _ _ _);
    [|by vm_compute..].
  repeat constructor; try done; decide_by_compute.
Defined.

(** ** The cap *)




(** ** The ways a run ends *)

Lemma publish_no_failure {A : URLApi} (w : world) (g : gathered)
    (newItems : list link) :
  Forall (λ e, ¬ is_failure e) (publish w g newItems).1.
Proof.
  unfold publish. destruct (mergeLinks _ _ _) as [allLinks removedCount].
  destruct (length_gt _ _), (w_exists w _); repeat constructor; cbn; tauto.
Qed.

(** X25: every run ends in one of three ways.  It fails on its inputs, and
    its whole trace is that failure: nothing is fetched, written or
    output.  Or it changes nothing: no failure, no action on the file,
    git or the hosting API, and the outputs [pr_url], empty, and
    [new_items_count], "0".  Or it publishes: no failure, one file
    written, and the outputs [pr_url], the address of the pull request,
    and [new_items_count], a number that is not 0.  A file is never
    written without the outputs being set, and no output is set by a run
    that fails. *)
Theorem run_outcomes {A : URLApi} (w : world) :
  (∃ message,
     run w = [EvSetFailed message] ∧
     message ∈ [required_missing "rss_urls"; required_missing "github_token";
                lit "No RSS URLs provided."]) ∨
  (Forall (λ e, ¬ is_action e ∧ ¬ is_failure e) (run w) ∧
   outputs (run w) = [(lit "pr_url", []); (lit "new_items_count", lit "0")]) ∨
  (∃ path content n,
     0 < n ∧
     Forall (λ e, ¬ is_failure e) (run w) ∧
     written (run w) = [(path, content)] ∧
     outputs (run w) = [(lit "pr_url", w_pr_html_url w);
                        (lit "new_items_count", String_of_nat n)]).
Proof.
  destruct (getInput (w_env w) "rss_urls") as [|c raw] eqn:Er.
  { left. eexists. split; [|by left].
    unfold run, run_steps, gather, getRequired. by rewrite Er. }
  destruct (getInput (w_env w) "github_token") as [|c' token] eqn:Et.
  { left. eexists. split; [|right; by left].
    unfold run, run_steps, gather, getRequired. by rewrite Er, Et. }
  destruct (rssUrlsOf (c :: raw)) as [|u us] eqn:Eu.
  { left. eexists. split; [|right; right; by left].
    unfold run, run_steps, gather, getRequired.
    by rewrite Er, Et, !bind_ret, Eu. }
  right.
  destruct (gather_fetch w c c' raw token u us) as (tf & Htf & Hg); [done..|].
  cbn zeta in Hg.
  destruct (fetched w (u :: us)) as [|l ls].
  { left. unfold run, run_steps. rewrite Hg. cbn [mbind M_bind fst]. split.
    - apply Forall_app. split; [by apply quiet_harmless|].
      repeat constructor; cbn; tauto.
    - by rewrite outputs_app, quiet_outputs. }
  pose proof (gather_quiet w _ _ Hg) as Hq.
  match type of Hg with _ = (_, Some ?g0) => set (g := g0) in * end.
  destruct (dedup (g_freshItems g) (links (g_parsed g))) as [|i new] eqn:Hd.
  - left. rewrite (run_no_change w _ g Hg Hd). split.
    + apply Forall_app. split; [by apply quiet_harmless|].
      repeat constructor; cbn; tauto.
    + by rewrite outputs_app, quiet_outputs.
  - right. eexists _, _, (length (i :: new)). split; [cbn; lia|].
    rewrite (run_publish w _ g Hg) by by rewrite Hd.
    rewrite Hd, written_app, outputs_app, publish_written, publish_outputs.
    rewrite quiet_written, quiet_outputs by done.
    split; [|by split].
    apply Forall_app. split.
    + eapply Forall_impl; [by apply quiet_harmless|]. cbn. tauto.
    + apply publish_no_failure.
Qed.

(** ** What the cap removes *)

(** X26: whatever the [max_links] input holds, the number reported as
    removed is the number of entries the merge left out, and it is
    positive, which is when the pull request says so, exactly when the
    list was cut. *)
Theorem removedCount_exact (env : list N → option (list N))
    (newItems existingLinks : list link) :
  let merged := mergeLinks (maxLinksOf env) newItems existingLinks in
  merged.2 = Int (Z.of_nat (length (newItems ++ existingLinks)
                            - length merged.1)) ∧
  positive merged.2
  = length_gt (length (newItems ++ existingLinks)) (maxLinksOf env) ∧
  (positive merged.2 = true ↔
   length merged.1 < length (newItems ++ existingLinks)).
Proof.
  cbn zeta. unfold mergeLinks, maxLinksOf, max1.
  destruct (parseInt10 _) as [|z]; cbn [length_gt slice0 length_minus].
  { cbn [fst snd positive]. split; [f_equal; lia|]. split; [done|].
    split; [done|lia]. }
  destruct (Z.max 1 z <? _)%Z eqn:Hlt; cbn [fst snd positive].
  - apply Z.ltb_lt in Hlt.
    replace (Z.max 1 z <? 0)%Z with false by (symmetry; apply Z.ltb_ge; lia).
    rewrite length_take. split; [f_equal; lia|]. split.
    + apply Z.ltb_lt. lia.
    + split; [lia|]. intros _. apply Z.ltb_lt. lia.
  - apply Z.ltb_ge in Hlt. split; [f_equal; lia|]. split; [done|].
    split; [done|lia].
Qed.

Section Churn.
Context {A : URLApi}.

(** X27: a cut that reaches the new items is undone by the next run.
    When the fresh items have pairwise different canonical URLs and the
    cap is smaller than the number of new items, every new item that was
    cut is new again against the list written: the run that follows
    adds it back and opens another pull request. *)
Theorem cut_items_return (cap : nat) (freshItems existingLinks : list link) :
  let newItems := dedup freshItems existingLinks in
  let merged := (mergeLinks (Int (Z.of_nat cap)) newItems existingLinks).1 in
  NoDup (map (λ i, stripUTM (url i)) freshItems) →
  cap < length newItems →
  merged = take cap newItems ∧
  (∀ i, i ∈ drop cap newItems → i ∈ dedup freshItems merged) ∧
  dedup freshItems merged ≠ [].
Proof.
  cbn zeta. intros Hnd Hcap. rewrite mergeLinks_Int. cbn [fst].
  rewrite take_app_le by lia.
  set (newItems := dedup freshItems existingLinks) in *.
  assert (∀ i, i ∈ drop cap newItems →
               i ∈ dedup freshItems (take cap newItems)) as Hback.
  { intros i Hi. apply elem_of_dedup. split.
    - apply (elem_of_dedup i freshItems existingLinks).
      rewrite <- (take_drop cap (dedup _ _)). apply elem_of_app. by right.
    - intros e He Heq.
      assert (NoDup (map (λ i, stripUTM (url i)) newItems)) as Hnd'.
      { eapply sublist_NoDup; [exact Hnd|].
        change (map ?f ?l) with (f <$> l). apply fmap_sublist.
        apply sublist_filter. }
      rewrite <- (take_drop cap newItems), map_app, NoDup_app in Hnd'.
      destruct Hnd' as (_ & Hdisj & _).
      apply (Hdisj (stripUTM (url e))).
      + change (map ?f ?l) with (f <$> l). apply list_elem_of_fmap.
        by exists e.
      + rewrite Heq. change (map ?f ?l) with (f <$> l).
        apply list_elem_of_fmap. by exists i. }
  split; [done|]. split; [done|].
  destruct (drop cap newItems) as [|i rest] eqn:Hdrop.
  - assert (length (drop cap newItems) = 0) as Hlen by by rewrite Hdrop.
    rewrite length_drop in Hlen. lia.
  - intros Hnil. specialize (Hback i (list_elem_of_here _ _)).
    rewrite Hnil in Hback. by apply elem_of_nil in Hback.
Qed.

End Churn.

Lemma cut_items_return_witness :
  (mergeLinks (Int 2) (dedup (A := PlainURL.api) Sample.cap_fresh []) []).1
  = take 2 (dedup (A := PlainURL.api) Sample.cap_fresh []).
Proof.
  refine (proj1 (cut_items_return (A := PlainURL.api) 2
            Sample.cap_fresh [] _ _)).
  - decide_by_compute.
  - vm_compute. lia.
Defined.
